(** * RISE Glossary: term matching, term indexing and popup control

    A shallow embedding of [rise-glossary.js] (class [RiseGlossary]) and the
    properties of its term matcher and popup controller.

    Conventions of the embedding.
    - JavaScript strings are [string]s.  The embedding is exact on ASCII
      text, where a character is one UTF-16 code unit; other text stands as
      its UTF-8 bytes, and [jsLength] counts its code units.  Regular expressions are built without the [u] flag,
      so [\b] and case folding look at ASCII letters, digits and [_] only.
    - The built-ins the source calls ([RegExp], [String.prototype.replace],
      [Array.prototype.sort], [innerHTML], the tree walker) are executable
      definitions that follow ECMAScript and the HTML standard on the
      fragment the source uses.
    - A function that can throw returns an [option]; [None] is the
      exception.  For the markup parser, [None] is markup outside the
      fragment that is modelled.
    - The document is the tree under [document.body]; the popups appended
      to the body are kept apart, in the state of the popup controller.
    - Pixel quantities are doubles, with the arithmetic of IEEE 754. *)

From Stdlib Require Import Ascii String Floats.
From stdpp Require Import gmap strings list.
From Stdlib Require Import Sorting.Sorted Sorting.Permutation.
Set Warnings "-register-all,-inexact-float".
Open Scope string_scope.
Open Scope list_scope.

(** ** Strings *)

(** The double quote, kept out of literals. *)
Definition dq : string := String "034"%char EmptyString.

Definition code (c : ascii) : nat := nat_of_ascii c.

Definition inRange (lo hi : nat) (c : ascii) : bool :=
  (lo <=? code c)%nat && (code c <=? hi)%nat.

(** [s.length]: the number of UTF-16 code units of the text.  In the UTF-8
    form a continuation byte begins no character, the first byte of a
    four-byte sequence begins a character outside the basic plane, which
    takes two code units, and every other byte begins a character of one
    code unit. *)
Definition codeUnits (c : ascii) : nat :=
  if inRange 128 191 c then 0%nat
  else if inRange 240 247 c then 2%nat
  else 1%nat.

Fixpoint jsLength (s : string) : nat :=
  match s with
  | EmptyString => 0%nat
  | String c s' => (codeUnits c + jsLength s')%nat
  end.

Fixpoint memChar (c : ascii) (s : string) : bool :=
  match s with
  | EmptyString => false
  | String d s' => Ascii.eqb c d || memChar c s'
  end.

(** ** JSON values and terms *)

(** The values a JSON field can hold ([JUndefined] is an absent field). *)
Inductive jsval : Type :=
| JUndefined
| JNull
| JBool (b : bool)
| JNum (n : Z)
| JStr (s : string).

(** [v !== false] *)
Definition strictNeqFalse (v : jsval) : bool :=
  match v with
  | JBool false => false
  | _ => true
  end.

(** ToBoolean *)
Definition truthy (v : jsval) : bool :=
  match v with
  | JUndefined | JNull => false
  | JBool b => b
  | JNum n => negb (n =? 0)%Z
  | JStr s => negb (String.eqb s EmptyString)
  end.

Record term : Type := Term {
  term_id : string;
  word : string;
  definition : string;
  image : option string;
  link : option string;
  enabled : jsval;
  caseSensitive : jsval
}.

(** A selector of the exclusion list: a tag name, [.class] or [[attr]]. *)
Inductive selector : Type :=
| SelTag (name : string)
| SelClass (name : string)
| SelAttr (name : string).

(** [this.options] after the constructor's merge (the fields the matcher and
    the popup controller read, and [caseSensitive], which none reads). *)
Record options : Type := Options {
  popupPosition : string;
  animationDuration : nat;
  optCaseSensitive : jsval;
  excludeSelectors : list selector
}.

Definition defaultExcludeSelectors : list selector :=
  [SelTag "script"; SelTag "style"; SelTag "code"; SelTag "pre";
   SelClass "glossary-term"; SelClass "glossary-popup";
   SelAttr "data-glossary-processed"].

Definition defaultOptions : options :=
  {| popupPosition := "auto";
     animationDuration := 300;
     optCaseSensitive := JBool false;
     excludeSelectors := defaultExcludeSelectors |}.

(** ** Regular expressions

    The patterns the source builds are [\b], an escaped literal, [\b].  The
    embedding parses pattern strings of that shape: [\b], a backslash
    followed by a syntax character, and plain characters.  An unescaped
    syntax character is outside the fragment and gives [None], as does a
    pattern the engine rejects. *)

Inductive atom : Type :=
| WordBoundary
| Char (c : ascii).

Record RegExp : Type := {
  atoms : list atom;
  global : bool;
  ignoreCase : bool
}.

(** SyntaxCharacter of the ECMAScript pattern grammar. *)
Definition isSyntaxChar (c : ascii) : bool := memChar c "^$\.*+?()[]{}|".

Fixpoint parsePattern (p : string) : option (list atom) :=
  match p with
  | EmptyString => Some []
  | String "\"%char EmptyString => None
  | String "\"%char (String c rest) =>
      if Ascii.eqb c "b" then option_map (cons WordBoundary) (parsePattern rest)
      else if isSyntaxChar c then option_map (cons (Char c)) (parsePattern rest)
      else None
  | String c rest =>
      if isSyntaxChar c then None
      else option_map (cons (Char c)) (parsePattern rest)
  end.

Fixpoint parseFlags (f : string) (g i : bool) : option (bool * bool) :=
  match f with
  | EmptyString => Some (g, i)
  | String c f' =>
      if Ascii.eqb c "g" then (if g then None else parseFlags f' true i)
      else if Ascii.eqb c "i" then (if i then None else parseFlags f' g true)
      else None
  end.

(** [new RegExp(pattern, flags)] *)
Definition RegExp_new (pattern flags : string) : option RegExp :=
  match parsePattern pattern, parseFlags flags false false with
  | Some a, Some (g, i) => Some {| atoms := a; global := g; ignoreCase := i |}
  | _, _ => None
  end.

(** [\w] without the [u] flag. *)
Definition isWordChar (c : ascii) : bool :=
  inRange 48 57 c || inRange 65 90 c || inRange 97 122 c || Ascii.eqb c "_".

(** Canonicalize of the pattern semantics: upper-casing of a code unit.
    The upper case is that of the ASCII letters; a non-ASCII code unit never
    folds to an ASCII one, in the engine as here.  The folding of non-ASCII
    letters among themselves (the Unicode table behind [toUpperCase]) is not
    part of the embedding: a case-insensitive expression is exact when its
    pattern is ASCII, a case-sensitive one always. *)
Definition canonicalize (c : ascii) : ascii :=
  if inRange 97 122 c then ascii_of_nat (code c - 32) else c.

Definition charMatches (ic : bool) (c d : ascii) : bool :=
  if ic then Ascii.eqb (canonicalize c) (canonicalize d) else Ascii.eqb c d.

Definition wordBefore (prev : option ascii) : bool :=
  match prev with Some c => isWordChar c | None => false end.

Definition wordAt (s : string) : bool :=
  match s with String c _ => isWordChar c | EmptyString => false end.

(** The assertion [\b] between the character [prev] and the text [s]. *)
Definition isBoundary (prev : option ascii) (s : string) : bool :=
  xorb (wordBefore prev) (wordAt s).

(** Match the atoms at the current position; the length of the match. *)
Fixpoint matchAtoms (ic : bool) (a : list atom) (prev : option ascii)
    (s : string) : option nat :=
  match a with
  | [] => Some 0%nat
  | WordBoundary :: a' =>
      if isBoundary prev s then matchAtoms ic a' prev s else None
  | Char c :: a' =>
      match s with
      | String d s' =>
          if charMatches ic c d
          then option_map S (matchAtoms ic a' (Some d) s')
          else None
      | EmptyString => None
      end
  end.

(** All the matches of a global regular expression, left to right, as
    (index, length): after a match the search resumes at its end, one
    position further when the match is empty (AdvanceStringIndex).  [skip]
    counts the characters of the last match still to be passed. *)
Fixpoint execAll (re : RegExp) (prev : option ascii) (s : string)
    (pos skip : nat) : list (nat * nat) :=
  match s with
  | EmptyString =>
      match skip with
      | O => match matchAtoms (ignoreCase re) (atoms re) prev s with
             | Some l => [(pos, l)]
             | None => []
             end
      | S _ => []
      end
  | String c s' =>
      match skip with
      | S k => execAll re (Some c) s' (S pos) k
      | O => match matchAtoms (ignoreCase re) (atoms re) prev s with
             | Some l => (pos, l) :: execAll re (Some c) s' (S pos) (Nat.pred l)
             | None => execAll re (Some c) s' (S pos) 0%nat
             end
      end
  end.

(** The matches [String.prototype.replace] substitutes: all of them for a
    global expression, the first one otherwise. *)
Definition matchesOf (re : RegExp) (s : string) : list (nat * nat) :=
  let ms := execAll re None s 0 0 in
  if global re then ms else take 1 ms.

(** [regex.test(s)] on a fresh expression ([lastIndex] is 0). *)
Definition RegExp_test (re : RegExp) (s : string) : bool :=
  match execAll re None s 0 0 with
  | [] => false
  | _ :: _ => true
  end.

Fixpoint spliceMatches (ms : list (nat * nat)) (f : string -> string)
    (s : string) (next : nat) : string :=
  match ms with
  | [] => substring next (String.length s - next) s
  | (p, l) :: ms' =>
      substring next (p - next) s +:+ f (substring p l s)
        +:+ spliceMatches ms' f s (p + l)
  end.

(** [s.replace(re, f)] with a replacer function of the matched text. *)
Definition String_replace (re : RegExp) (f : string -> string) (s : string)
    : string :=
  spliceMatches (matchesOf re s) f s 0.

(** ** The term matcher *)

Definition isRegExpSpecial (c : ascii) : bool := memChar c ".*+?^${}()|[]\".

(** [escapeRegExp]: a backslash before every character of the class. *)
Fixpoint escapeRegExp (s : string) : string :=
  match s with
  | EmptyString => EmptyString
  | String c s' =>
      if isRegExpSpecial c then String "\"%char (String c (escapeRegExp s'))
      else String c (escapeRegExp s')
  end.

Definition termFlags (t : term) : string :=
  if truthy (caseSensitive t) then "g" else "gi".

(** The expression [processTextNode] builds for a term.  The options are the
    receiver's; the source does not read them here. *)
Definition termRegExp (o : options) (t : term) : option RegExp :=
  RegExp_new ("\b" +:+ escapeRegExp (word t) +:+ "\b") (termFlags t).

Definition placeholderOpen (t : term) : string :=
  "<span class=" +:+ dq +:+ "glossary-term-placeholder" +:+ dq
    +:+ " data-term-id=" +:+ dq +:+ term_id t +:+ dq +:+ ">".

Definition placeholderClose : string := "</span>".

Definition placeholder (t : term) (m : string) : string :=
  placeholderOpen t +:+ m +:+ placeholderClose.

(** The loop of [processTextNode] over the terms: the working copy of the
    text and the [hasMatches] flag. *)
Fixpoint matchTerms (o : options) (ts : list term) (content : string)
    (hasMatches : bool) : option (string * bool) :=
  match ts with
  | [] => Some (content, hasMatches)
  | t :: ts' =>
      match termRegExp o t with
      | None => None
      | Some re =>
          if RegExp_test re content
          then matchTerms o ts' (String_replace re (placeholder t) content) true
          else matchTerms o ts' content hasMatches
      end
  end.

(** The matches of one term in the working text it scans. *)
Definition termMatches (o : options) (t : term) (content : string)
    : option (list (nat * nat)) :=
  option_map (fun re => matchesOf re content) (termRegExp o t).

(** Where the placeholders of a pass lie in the text the pass produces: the
    i-th match, at [p] of length [l] in the scanned text, becomes a
    placeholder at [p] shifted by the markup inserted before it. *)
Fixpoint placeholderSpans (t : term) (ms : list (nat * nat)) (shift : nat)
    : list (nat * nat) :=
  match ms with
  | [] => []
  | (p, l) :: ms' =>
      let n := String.length (placeholder t EmptyString) in
      (p + shift, l + n)%nat :: placeholderSpans t ms' (shift + n)
  end.

Definition startsInside (spans : list (nat * nat)) (p : nat) : bool :=
  existsb (fun sp => (fst sp <=? p)%nat && (p <? fst sp + snd sp)%nat) spans.

(** ** The term index *)

(** The comparator of the source: [b.word.length - a.word.length]. *)
Definition byLengthDesc (a b : term) : Z :=
  (Z.of_nat (jsLength (word b)) - Z.of_nat (jsLength (word a)))%Z.

(** [Array.prototype.sort] is stable; with a comparator it yields the stable
    ordering, computed here by insertion from the right. *)
Fixpoint insertSorted {A : Type} (cmp : A -> A -> Z) (x : A) (l : list A)
    : list A :=
  match l with
  | [] => [x]
  | y :: l' =>
      if (cmp x y <=? 0)%Z then x :: y :: l' else y :: insertSorted cmp x l'
  end.

Definition Array_sort {A : Type} (cmp : A -> A -> Z) (l : list A) : list A :=
  fold_right (insertSorted cmp) [] l.

Definition isEnabled (t : term) : bool := strictNeqFalse (enabled t).

(** The expression shared by [loadTerms] and [updateTerms]. *)
Definition indexTerms (ts : list term) : list term :=
  Array_sort byLengthDesc (List.filter isEnabled ts).

(** The response of [fetch(dataUrl)]: [json] is [None] when the body does
    not parse, and holds the [terms] field of the data otherwise. *)
Record response : Type := {
  ok : bool;
  json : option (option (list term))
}.

(** [loadTerms]: the stored term list, [None] when it throws. *)
Definition loadTerms (r : option response) : option (list term) :=
  match r with
  | None => None
  | Some r =>
      if ok r then
        match json r with
        | None => None
        | Some data_terms => Some (indexTerms (default [] data_terms))
        end
      else None
  end.

(** ** Popup placement

    The rectangles, the viewport and the scroll offsets are JavaScript
    numbers, IEEE 754 doubles: the sums and differences below round as the
    source's do, and a comparison with a NaN is false. *)

Record DOMRect : Type := {
  rTop : float; rLeft : float; rBottom : float; rRight : float;
  rWidth : float; rHeight : float
}.

(** [a >= b], [a > b] and [a < b] on numbers. *)
Definition geb (a b : float) : bool := PrimFloat.leb b a.
Definition gtb (a b : float) : bool := PrimFloat.ltb b a.
Definition lessThan (a b : float) : bool := PrimFloat.ltb a b.

(** The style [positionPopup] writes: [top] and [left] stay undefined
    ([None]) when the position is none of the four sides. *)
Record popupStyle : Type := {
  styleTop : option float;
  styleLeft : option float;
  positionClass : string
}.

(** The auto-detection block. *)
Definition autoPosition (triggerRect popupRect : DOMRect)
    (viewportWidth viewportHeight : float) : string :=
  let spaceAbove := rTop triggerRect in
  let spaceBelow := (viewportHeight - rBottom triggerRect)%float in
  let spaceLeft := rLeft triggerRect in
  let spaceRight := (viewportWidth - rRight triggerRect)%float in
  if geb spaceBelow (rHeight popupRect + 10)%float then "bottom"
  else if geb spaceAbove (rHeight popupRect + 10)%float then "top"
  else if geb spaceRight (rWidth popupRect + 10)%float then "right"
  else if geb spaceLeft (rWidth popupRect + 10)%float then "left"
  else "bottom".

(** The [switch]: (top, left) for the four sides. *)
Definition sideOffsets (position : string) (triggerRect popupRect : DOMRect)
    (scrollX scrollY : float) : option (float * float) :=
  if String.eqb position "top" then
    Some ((rTop triggerRect + scrollY - rHeight popupRect - 10)%float,
          (rLeft triggerRect + scrollX + rWidth triggerRect / 2
             - rWidth popupRect / 2)%float)
  else if String.eqb position "bottom" then
    Some ((rBottom triggerRect + scrollY + 10)%float,
          (rLeft triggerRect + scrollX + rWidth triggerRect / 2
             - rWidth popupRect / 2)%float)
  else if String.eqb position "left" then
    Some ((rTop triggerRect + scrollY + rHeight triggerRect / 2
             - rHeight popupRect / 2)%float,
          (rLeft triggerRect + scrollX - rWidth popupRect - 10)%float)
  else if String.eqb position "right" then
    Some ((rTop triggerRect + scrollY + rHeight triggerRect / 2
             - rHeight popupRect / 2)%float,
          (rRight triggerRect + scrollX + 10)%float)
  else None.

(** The viewport boundary checks on [left], then on [top]. *)
Definition clampLeft (left popupWidth viewportWidth : float) : float :=
  let left := if lessThan left 10 then 10%float else left in
  if gtb (left + popupWidth)%float (viewportWidth - 10)%float
  then (viewportWidth - popupWidth - 10)%float else left.

Definition clampTop (top popupHeight viewportHeight scrollY : float) : float :=
  let top := if lessThan top 10 then 10%float else top in
  if gtb (top + popupHeight)%float (viewportHeight + scrollY - 10)%float
  then (viewportHeight + scrollY - popupHeight - 10)%float else top.

Definition positionPopup (o : options) (triggerRect popupRect : DOMRect)
    (viewportWidth viewportHeight scrollX scrollY : float) : popupStyle :=
  let position :=
    if String.eqb (popupPosition o) "auto"
    then autoPosition triggerRect popupRect viewportWidth viewportHeight
    else popupPosition o in
  match sideOffsets position triggerRect popupRect scrollX scrollY with
  | Some (y, x) =>
      {| styleTop :=
           Some (clampTop y (rHeight popupRect) viewportHeight scrollY);
         styleLeft := Some (clampLeft x (rWidth popupRect) viewportWidth);
         positionClass := "position-" +:+ position |}
  | None =>
      {| styleTop := None; styleLeft := None;
         positionClass := "position-" +:+ position |}
  end.

(** The popup and the 10-unit margin fit in a space: the test of the
    source, [space >= size + 10] on doubles. *)
Definition fits (size space : float) : bool :=
  PrimFloat.leb (size + 10)%float space.

(** The placement the specification describes for the auto mode. *)
Inductive AutoChoice (triggerRect popupRect : DOMRect)
    (viewportWidth viewportHeight : float) : string -> Prop :=
| ChooseBelow :
    fits (rHeight popupRect) (viewportHeight - rBottom triggerRect)%float = true ->
    AutoChoice triggerRect popupRect viewportWidth viewportHeight "bottom"
| ChooseAbove :
    fits (rHeight popupRect) (viewportHeight - rBottom triggerRect)%float = false ->
    fits (rHeight popupRect) (rTop triggerRect) = true ->
    AutoChoice triggerRect popupRect viewportWidth viewportHeight "top"
| ChooseRight :
    fits (rHeight popupRect) (viewportHeight - rBottom triggerRect)%float = false ->
    fits (rHeight popupRect) (rTop triggerRect) = false ->
    fits (rWidth popupRect) (viewportWidth - rRight triggerRect)%float = true ->
    AutoChoice triggerRect popupRect viewportWidth viewportHeight "right"
| ChooseLeft :
    fits (rHeight popupRect) (viewportHeight - rBottom triggerRect)%float = false ->
    fits (rHeight popupRect) (rTop triggerRect) = false ->
    fits (rWidth popupRect) (viewportWidth - rRight triggerRect)%float = false ->
    fits (rWidth popupRect) (rLeft triggerRect) = true ->
    AutoChoice triggerRect popupRect viewportWidth viewportHeight "left"
| ChooseFallback :
    fits (rHeight popupRect) (viewportHeight - rBottom triggerRect)%float = false ->
    fits (rHeight popupRect) (rTop triggerRect) = false ->
    fits (rWidth popupRect) (viewportWidth - rRight triggerRect)%float = false ->
    fits (rWidth popupRect) (rLeft triggerRect) = false ->
    AutoChoice triggerRect popupRect viewportWidth viewportHeight "bottom".

(** A popup at (top, left), in page coordinates, keeps the inset from every
    edge of the viewport, which shows the page from (scrollX, scrollY). *)
Definition keepsInset (inset top left : float) (popupRect : DOMRect)
    (viewportWidth viewportHeight scrollX scrollY : float) : Prop :=
  PrimFloat.leb (scrollX + inset)%float left = true /\
  PrimFloat.leb (left + rWidth popupRect)%float
    (scrollX + viewportWidth - inset)%float = true /\
  PrimFloat.leb (scrollY + inset)%float top = true /\
  PrimFloat.leb (top + rHeight popupRect)%float
    (scrollY + viewportHeight - inset)%float = true.

(** What the boundary checks leave of a coordinate [c] of a popup of the
    given size, against the far limit (the viewport width, or the viewport
    height plus the scroll offset): the near-edge test [c < 10] fails, and
    the far-edge test [c + size > limit - 10] fails or [c] is the far
    position [limit - size - 10] the source assigns. *)
Definition passesNearCheck (c : float) : Prop := lessThan c 10 = false.

Definition passesFarCheck (c size limit : float) : Prop :=
  gtb (c + size)%float (limit - 10)%float = false.

Definition isFarPosition (c size limit : float) : Prop :=
  c = (limit - size - 10)%float.

(** ** The popup controller

    Popup elements are told apart by their identity, a number given at
    creation.  The callbacks handed to [setTimeout] and
    [requestAnimationFrame] wait in [removalTimers] and [frames], each with
    the popup it closes over, until the environment runs them. *)

Record activeRecord : Type := {
  element : nat;
  trigger : nat;
  activeTerm : term
}.

Record controller : Type := {
  documentPopups : list nat;
  activePopup : option activeRecord;
  activeClass : list nat;
  removalTimers : list nat;
  frames : list nat;
  nextElement : nat
}.

Definition initialController : controller :=
  {| documentPopups := []; activePopup := None; activeClass := [];
     removalTimers := []; frames := []; nextElement := 0 |}.

Definition removeElement (p : nat) (l : list nat) : list nat :=
  List.filter (fun x => negb (x =? p)%nat) l.

(** [hidePopup] *)
Definition hidePopup (c : controller) : controller :=
  match activePopup c with
  | None => c
  | Some a =>
      {| documentPopups := documentPopups c;
         activePopup := None;
         activeClass := removeElement (element a) (activeClass c);
         removalTimers := removalTimers c ++ [element a];
         frames := frames c;
         nextElement := nextElement c |}
  end.

(** [showPopup]: the popup created by [createPopup] is a new element. *)
Definition showPopup (triggerElement : nat) (t : term) (c : controller)
    : controller :=
  let c := hidePopup c in
  let popup := nextElement c in
  {| documentPopups := documentPopups c ++ [popup];
     activePopup :=
       Some {| element := popup; trigger := triggerElement; activeTerm := t |};
     activeClass := activeClass c;
     removalTimers := removalTimers c;
     frames := frames c ++ [popup];
     nextElement := S popup |}.

(** The removal callback of [hidePopup] runs for the [i]-th pending timer. *)
Definition fireRemoval (i : nat) (c : controller) : controller :=
  match removalTimers c !! i with
  | None => c
  | Some popup =>
      {| documentPopups := removeElement popup (documentPopups c);
         activePopup := activePopup c;
         activeClass := activeClass c;
         removalTimers := take i (removalTimers c) ++ drop (S i) (removalTimers c);
         frames := frames c;
         nextElement := nextElement c |}
  end.

(** The oldest animation-frame callback runs. *)
Definition fireFrame (c : controller) : controller :=
  match frames c with
  | [] => c
  | popup :: rest =>
      {| documentPopups := documentPopups c;
         activePopup := activePopup c;
         activeClass := popup :: removeElement popup (activeClass c);
         removalTimers := removalTimers c;
         frames := rest;
         nextElement := nextElement c |}
  end.

Inductive event : Type :=
| ShowPopup (triggerElement : nat) (t : term)
| HidePopup
| RemovalTimer (i : nat)
| AnimationFrame.

Definition step (c : controller) (e : event) : controller :=
  match e with
  | ShowPopup tr t => showPopup tr t c
  | HidePopup => hidePopup c
  | RemovalTimer i => fireRemoval i c
  | AnimationFrame => fireFrame c
  end.

Definition run (es : list event) : controller :=
  fold_left step es initialController.

(** ** Popup markup *)

Definition nl : string := String "010"%char EmptyString.
Definition nbsp : string := String "194"%char (String "160"%char EmptyString).

(** [escapeHtml]: the serialization of a text node, which escapes the
    ampersand, the no-break space and the angle brackets, and nothing else. *)
Fixpoint escapeHtml (text : string) : string :=
  match text with
  | EmptyString => EmptyString
  | String c rest =>
      if Ascii.eqb c "&" then "&amp;" +:+ escapeHtml rest
      else if Ascii.eqb c "<" then "&lt;" +:+ escapeHtml rest
      else if Ascii.eqb c ">" then "&gt;" +:+ escapeHtml rest
      else if Ascii.eqb c "194" then
        match rest with
        | String "160"%char rest' => "&nbsp;" +:+ escapeHtml rest'
        | _ => String c (escapeHtml rest)
        end
      else String c (escapeHtml rest)
  end.

Definition isTruthyString (s : option string) : bool :=
  match s with
  | Some s => negb (String.eqb s EmptyString)
  | None => false
  end.

Definition indent (n : nat) : string := string_of_list_ascii (repeat " "%char n).

(** [createPopup]: the id of the popup element and the markup assigned to
    its [innerHTML]. *)
Definition popupMarkup (t : term) : string :=
  let content :=
    nl +:+ indent 12 +:+ "<button class=" +:+ dq +:+ "glossary-popup-close" +:+ dq
      +:+ " aria-label=" +:+ dq +:+ "Close definition" +:+ dq
      +:+ " title=" +:+ dq +:+ "Close" +:+ dq +:+ ">×</button>"
    +:+ nl +:+ indent 12 +:+ "<div class=" +:+ dq +:+ "glossary-popup-word" +:+ dq +:+ ">"
      +:+ escapeHtml (word t) +:+ "</div>"
    +:+ nl +:+ indent 12 +:+ "<div class=" +:+ dq +:+ "glossary-popup-definition" +:+ dq
      +:+ ">" +:+ escapeHtml (definition t) +:+ "</div>"
    +:+ nl +:+ indent 8 in
  let content :=
    if isTruthyString (image t) then
      content +:+ "<img src=" +:+ dq +:+ escapeHtml (default EmptyString (image t)) +:+ dq
        +:+ " alt=" +:+ dq +:+ escapeHtml (word t) +:+ dq
        +:+ " class=" +:+ dq +:+ "glossary-popup-image" +:+ dq
        +:+ " loading=" +:+ dq +:+ "lazy" +:+ dq +:+ ">"
    else content in
  if isTruthyString (link t) then
    content
      +:+ nl +:+ indent 16 +:+ "<a href=" +:+ dq +:+ escapeHtml (default EmptyString (link t)) +:+ dq
      +:+ " target=" +:+ dq +:+ "_blank" +:+ dq
      +:+ " rel=" +:+ dq +:+ "noopener noreferrer" +:+ dq
      +:+ " class=" +:+ dq +:+ "glossary-popup-link" +:+ dq +:+ ">"
      +:+ nl +:+ indent 20 +:+ "Learn more"
      +:+ nl +:+ indent 20 +:+ "<span aria-hidden=" +:+ dq +:+ "true" +:+ dq +:+ ">↗</span>"
      +:+ nl +:+ indent 20 +:+ "<span class=" +:+ dq +:+ "sr-only" +:+ dq
      +:+ ">(opens in new window)</span>"
      +:+ nl +:+ indent 16 +:+ "</a>"
      +:+ nl +:+ indent 12
  else content.

Definition popupElementId (t : term) : string := "glossary-popup-" +:+ term_id t.

(** ** The document

    Text nodes carry an identity, which is what the processed-node set
    holds; elements carry their tag, attributes and children. *)

Inductive node : Type :=
| TextNode (nid : nat) (data : string)
| Element (tag : string) (attrs : list (string * string)) (children : list node).

Fixpoint getAttribute (name : string) (attrs : list (string * string))
    : option string :=
  match attrs with
  | [] => None
  | (n, v) :: attrs' =>
      if String.eqb n name then Some v else getAttribute name attrs'
  end.

Definition hasAttribute (name : string) (attrs : list (string * string)) : bool :=
  match getAttribute name attrs with Some _ => true | None => false end.

Fixpoint setAttribute (name value : string) (attrs : list (string * string))
    : list (string * string) :=
  match attrs with
  | [] => [(name, value)]
  | (n, v) :: attrs' =>
      if String.eqb n name then (n, value) :: attrs'
      else (n, v) :: setAttribute name value attrs'
  end.

(** ASCII whitespace of the DOM and HTML standards: tab, line feed, form
    feed, carriage return and space. *)
Definition isHtmlSpace (c : ascii) : bool :=
  inRange 9 10 c || inRange 12 13 c || Ascii.eqb c " ".

(** The tokens of a space-separated attribute value. *)
Fixpoint splitSpaces (s cur : string) : list string :=
  match s with
  | EmptyString => if String.eqb cur EmptyString then [] else [cur]
  | String c s' =>
      if isHtmlSpace c then
        (if String.eqb cur EmptyString then splitSpaces s' EmptyString
         else cur :: splitSpaces s' EmptyString)
      else splitSpaces s' (cur +:+ String c EmptyString)
  end.

Definition classList (attrs : list (string * string)) : list string :=
  match getAttribute "class" attrs with
  | Some v => splitSpaces v EmptyString
  | None => []
  end.

Definition hasClass (c : string) (attrs : list (string * string)) : bool :=
  existsb (String.eqb c) (classList attrs).

(** [element.matches(selector)] *)
Definition matchesSelector (sel : selector) (tag : string)
    (attrs : list (string * string)) : bool :=
  match sel with
  | SelTag name => String.eqb tag name
  | SelClass name => hasClass name attrs
  | SelAttr name => hasAttribute name attrs
  end.

Fixpoint textContent (n : node) : string :=
  match n with
  | TextNode _ d => d
  | Element _ _ cs => fold_right String.append EmptyString (map textContent cs)
  end.

Definition textOf (cs : list node) : string :=
  fold_right String.append EmptyString (map textContent cs).

Definition isMarker (n : node) : bool :=
  match n with
  | TextNode _ _ => false
  | Element _ attrs _ => hasClass "glossary-term" attrs
  end.

(** The number of marker elements, [.glossary-term], below a node. *)
Fixpoint countMarkers (n : node) : nat :=
  match n with
  | TextNode _ _ => 0
  | Element _ attrs cs =>
      (if hasClass "glossary-term" attrs then 1 else 0)
        + list_sum (map countMarkers cs)
  end.

(** The white space [String.prototype.trim] strips: the ASCII characters
    from tab to carriage return and the space, and in their UTF-8 form the
    no-break space, the other space separators, the line and paragraph
    separators and the byte order mark. *)
Definition isSpace (c : ascii) : bool := inRange 9 13 c || Ascii.eqb c " ".

Definition twoByteSpace (c d : ascii) : bool :=
  (code c =? 194)%nat && (code d =? 160)%nat.

Definition threeByteSpace (c d e : ascii) : bool :=
  ((code c =? 225)%nat && (code d =? 154)%nat && (code e =? 128)%nat)
  || ((code c =? 226)%nat && (code d =? 128)%nat
      && (inRange 128 138 e || inRange 168 169 e || (code e =? 175)%nat))
  || ((code c =? 226)%nat && (code d =? 129)%nat && (code e =? 159)%nat)
  || ((code c =? 227)%nat && (code d =? 128)%nat && (code e =? 128)%nat)
  || ((code c =? 239)%nat && (code d =? 187)%nat && (code e =? 191)%nat).

Fixpoint trimStart (s : string) : string :=
  match s with
  | EmptyString => EmptyString
  | String c s1 =>
      if isSpace c then trimStart s1
      else
        match s1 with
        | String d s2 =>
            if twoByteSpace c d then trimStart s2
            else
              match s2 with
              | String e s3 => if threeByteSpace c d e then trimStart s3 else s
              | EmptyString => s
              end
        | EmptyString => s
        end
  end.

(** The text is white space throughout. *)
Fixpoint allSpaces (s : string) : bool :=
  match s with
  | EmptyString => true
  | String c s1 =>
      if isSpace c then allSpaces s1
      else
        match s1 with
        | String d s2 =>
            if twoByteSpace c d then allSpaces s2
            else
              match s2 with
              | String e s3 => threeByteSpace c d e && allSpaces s3
              | EmptyString => false
              end
        | EmptyString => false
        end
  end.

Fixpoint trimEnd (s : string) : string :=
  match s with
  | EmptyString => EmptyString
  | String c s' => if allSpaces s then EmptyString else String c (trimEnd s')
  end.

Definition trim (s : string) : string := trimEnd (trimStart s).

(** *** Parsing markup

    [innerHTML] runs the HTML fragment parser.  [miniParse] follows it on
    the markup the widget writes: text, the references [&amp;] [&lt;] [&gt;]
    [&quot;] [&nbsp;], start tags with double-quoted attributes and end tags
    of the elements below, properly nested.  Anything else is [None]:
    outside the fragment, not an error of the parser. *)

Inductive token : Type :=
| TChar (c : ascii)
| TStart (name : string) (attrs : list (string * string))
| TEnd (name : string).

Inductive tokState : Type :=
| SData
| STagOpen
| SEndTagOpen
| STagName (isEnd : bool) (name : string)
| SBeforeAttr (name : string) (attrs : list (string * string))
| SAttrName (name : string) (attrs : list (string * string)) (an : string)
| SBeforeValue (name : string) (attrs : list (string * string)) (an : string)
| SValue (name : string) (attrs : list (string * string)) (an av : string)
| SAfterValue (name : string) (attrs : list (string * string)).

Definition isLower (c : ascii) : bool := inRange 97 122 c.
Definition isUpper (c : ascii) : bool := inRange 65 90 c.
Definition isDigit (c : ascii) : bool := inRange 48 57 c.

Fixpoint startsWith (p s : string) : bool :=
  match p, s with
  | EmptyString, _ => true
  | String a p', String b s' => Ascii.eqb a b && startsWith p' s'
  | String _ _, EmptyString => false
  end.

(** The references the fragment knows: the decoded text and the number of
    characters after the ampersand. *)
Definition decodeRef (rest : string) : option (string * nat) :=
  if startsWith "amp;" rest then Some ("&", 4)
  else if startsWith "lt;" rest then Some ("<", 3)
  else if startsWith "gt;" rest then Some (">", 3)
  else if startsWith "quot;" rest then Some (dq, 5)
  else if startsWith "nbsp;" rest then Some (nbsp, 5)
  else None.

(** An ampersand that starts no reference stands for itself. *)
Definition plainAmpersand (rest : string) : bool :=
  match rest with
  | EmptyString => true
  | String c _ => negb (isLower c || isUpper c || isDigit c || Ascii.eqb c "#")
  end.

Definition rewrittenByParser (c : ascii) : bool :=
  Ascii.eqb c "000" || Ascii.eqb c "013".

(** A later attribute of the same name is dropped. *)
Definition addAttr (attrs : list (string * string)) (an av : string)
    : list (string * string) :=
  if hasAttribute an attrs then attrs else attrs ++ [(an, av)].

Definition snoc (s : string) (c : ascii) : string := s +:+ String c EmptyString.

Definition tagToken (isEnd : bool) (name : string)
    (attrs : list (string * string)) : token :=
  if isEnd then TEnd name else TStart name attrs.

Definition badAttrNameChar (c : ascii) : bool :=
  memChar c "/<'=" || Ascii.eqb c "034" || isUpper c || rewrittenByParser c.

Fixpoint tokenize (st : tokState) (skip : nat) (s : string)
    : option (list token) :=
  match s with
  | EmptyString =>
      match st with SData => Some [] | _ => None end
  | String c rest =>
      match skip with
      | S k => tokenize st k rest
      | O =>
          match st with
          | SData =>
              if Ascii.eqb c "<" then
                match rest with
                | String d _ =>
                    if isLower d || Ascii.eqb d "/" then tokenize STagOpen 0 rest
                    else if isUpper d || memChar d "!?" then None
                    else option_map (cons (TChar c)) (tokenize SData 0 rest)
                | EmptyString => Some [TChar c]
                end
              else if Ascii.eqb c "&" then
                match decodeRef rest with
                | Some (txt, n) =>
                    option_map (app (map TChar (list_ascii_of_string txt)))
                               (tokenize SData n rest)
                | None =>
                    if plainAmpersand rest
                    then option_map (cons (TChar c)) (tokenize SData 0 rest)
                    else None
                end
              else if rewrittenByParser c then None
              else option_map (cons (TChar c)) (tokenize SData 0 rest)
          | STagOpen =>
              if isLower c then tokenize (STagName false (String c EmptyString)) 0 rest
              else if Ascii.eqb c "/" then tokenize SEndTagOpen 0 rest
              else None
          | SEndTagOpen =>
              if isLower c then tokenize (STagName true (String c EmptyString)) 0 rest
              else None
          | STagName isEnd name =>
              if isLower c || isDigit c || Ascii.eqb c "-"
              then tokenize (STagName isEnd (snoc name c)) 0 rest
              else if Ascii.eqb c ">"
              then option_map (cons (tagToken isEnd name [])) (tokenize SData 0 rest)
              else if isHtmlSpace c && negb isEnd
              then tokenize (SBeforeAttr name []) 0 rest
              else None
          | SBeforeAttr name attrs =>
              if isHtmlSpace c then tokenize (SBeforeAttr name attrs) 0 rest
              else if Ascii.eqb c ">"
              then option_map (cons (TStart name attrs)) (tokenize SData 0 rest)
              else if badAttrNameChar c then None
              else tokenize (SAttrName name attrs (String c EmptyString)) 0 rest
          | SAttrName name attrs an =>
              if Ascii.eqb c "=" then tokenize (SBeforeValue name attrs an) 0 rest
              else if isHtmlSpace c
              then tokenize (SBeforeAttr name (addAttr attrs an EmptyString)) 0 rest
              else if Ascii.eqb c ">"
              then option_map (cons (TStart name (addAttr attrs an EmptyString)))
                              (tokenize SData 0 rest)
              else if badAttrNameChar c then None
              else tokenize (SAttrName name attrs (snoc an c)) 0 rest
          | SBeforeValue name attrs an =>
              if Ascii.eqb c "034"
              then tokenize (SValue name attrs an EmptyString) 0 rest
              else None
          | SValue name attrs an av =>
              if Ascii.eqb c "034"
              then tokenize (SAfterValue name (addAttr attrs an av)) 0 rest
              else if Ascii.eqb c "&" then
                match decodeRef rest with
                | Some (txt, n) => tokenize (SValue name attrs an (av +:+ txt)) n rest
                | None =>
                    if plainAmpersand rest
                    then tokenize (SValue name attrs an (snoc av c)) 0 rest
                    else None
                end
              else if rewrittenByParser c then None
              else tokenize (SValue name attrs an (snoc av c)) 0 rest
          | SAfterValue name attrs =>
              if isHtmlSpace c then tokenize (SBeforeAttr name attrs) 0 rest
              else if Ascii.eqb c ">"
              then option_map (cons (TStart name attrs)) (tokenize SData 0 rest)
              else None
          end
      end
  end.

(** The elements of the fragment; [img] has no content. *)
Definition isVoid (name : string) : bool := String.eqb name "img".

Definition knownTag (name : string) : bool :=
  existsb (String.eqb name) ["span"; "div"; "button"; "a"; "img"].

(** An open element: its tag, attributes and the siblings before it, the
    latest first. *)
Definition frame : Type := (string * list (string * string) * list node)%type.

Definition isOpen (name : string) (stack : list frame) : bool :=
  existsb (fun f => String.eqb (fst (fst f)) name) stack.

Definition appendChar (c : ascii) (cur : list node) : list node :=
  match cur with
  | TextNode i d :: cur' => TextNode i (snoc d c) :: cur'
  | _ => TextNode 0 (String c EmptyString) :: cur
  end.

Fixpoint closeAll (stack : list frame) (cur : list node) : list node :=
  match stack with
  | [] => rev cur
  | (name, attrs, before) :: stack' =>
      closeAll stack' (Element name attrs (rev cur) :: before)
  end.

(** Tree construction; [cur] holds the children of the current element, the
    latest first. *)
Fixpoint buildTree (ts : list token) (stack : list frame) (cur : list node)
    : option (list node) :=
  match ts with
  | [] => Some (closeAll stack cur)
  | TChar c :: ts' => buildTree ts' stack (appendChar c cur)
  | TStart name attrs :: ts' =>
      if negb (knownTag name) then None
      else if isVoid name then buildTree ts' stack (Element name attrs [] :: cur)
      else if (String.eqb name "a" || String.eqb name "button") && isOpen name stack
      then None
      else buildTree ts' ((name, attrs, cur) :: stack) []
  | TEnd name :: ts' =>
      if negb (knownTag name) || isVoid name then None
      else
        match stack with
        | (open, attrs, before) :: stack' =>
            if String.eqb open name
            then buildTree ts' stack' (Element open attrs (rev cur) :: before)
            else if isOpen name stack' then None
            else buildTree ts' stack cur
        | [] => buildTree ts' stack cur
        end
  end.

Definition miniParse (markup : string) : option (list node) :=
  match tokenize SData 0 markup with
  | Some ts => buildTree ts [] []
  | None => None
  end.

(** *** Scanning *)

(** [createGlossaryElement], without its listeners. *)
Definition createGlossaryElement (t : term) (matchedText : string) : node :=
  Element "span"
    [("class", "glossary-term"); ("tabindex", "0"); ("role", "button");
     ("aria-describedby", "glossary-popup-" +:+ term_id t);
     ("aria-label", matchedText +:+ ": " +:+ definition t);
     ("data-term-id", term_id t)]
    (if String.eqb matchedText EmptyString then [] else [TextNode 0 matchedText]).

(** [this.terms.find(t => t.id === termId)] *)
Definition findTerm (ts : list term) (termId : option string) : option term :=
  match termId with
  | None => None
  | Some i => List.find (fun t => String.eqb (term_id t) i) ts
  end.

(** The pass over the placeholders of the parsed markup, in document order:
    a placeholder whose term is found gives way to a marker holding its
    text; what it contained goes with it. *)
Fixpoint resolvePlaceholders (ts : list term) (n : node) : node :=
  match n with
  | TextNode _ _ => n
  | Element tag attrs cs =>
      if hasClass "glossary-term-placeholder" attrs then
        match findTerm ts (getAttribute "data-term-id" attrs) with
        | Some t => createGlossaryElement t (textContent n)
        | None => Element tag attrs (map (resolvePlaceholders ts) cs)
        end
      else Element tag attrs (map (resolvePlaceholders ts) cs)
  end.

(** A traversal of siblings that hands out node identities: [f] takes the
    next unused identity and returns the one after those it used. *)
Definition threadNodes (f : nat -> node -> node * nat)
    : nat -> list node -> list node * nat :=
  fix go (k : nat) (cs : list node) {struct cs} : list node * nat :=
    match cs with
    | [] => ([], k)
    | c :: rest =>
        let '(c', k1) := f k c in
        let '(rest', k2) := go k1 rest in
        (c' :: rest', k2)
    end.

(** New text nodes get the identities from [k] on, in document order. *)
Fixpoint relabel (k : nat) (n : node) : node * nat :=
  match n with
  | TextNode _ d => (TextNode k d, S k)
  | Element tag attrs cs =>
      let '(cs', k') := threadNodes relabel k cs in
      (Element tag attrs cs', k')
  end.

Definition isTextNode (nid : nat) (n : node) : bool :=
  match n with
  | TextNode i _ => (i =? nid)%nat
  | Element _ _ _ => false
  end.

(** [parent.replaceChild(fragment, textNode)] followed by
    [parent.setAttribute('data-glossary-processed', 'true')], at the parent
    of the text node [nid]. *)
Fixpoint replaceTextNode (nid : nat) (fragment : list node) (n : node) : node :=
  match n with
  | TextNode _ _ => n
  | Element tag attrs cs =>
      if existsb (isTextNode nid) cs then
        Element tag (setAttribute "data-glossary-processed" "true" attrs)
          (flat_map (fun c => if isTextNode nid c then fragment
                              else [replaceTextNode nid fragment c]) cs)
      else Element tag attrs (map (replaceTextNode nid fragment) cs)
  end.

(** The receiver: [this.terms], [this.options], [this.processedNodes], the
    tree under [document.body], and the next unused node identity. *)
Record glossary : Type := {
  terms : list term;
  opts : options;
  processedNodes : gset nat;
  body : node;
  nextNode : nat
}.

(** [shouldExcludeElement]: some selector matches the element or one of its
    ancestors; [above] tells whether one matched an ancestor. *)
Definition shouldExcludeElement (o : options) (above : bool) (tag : string)
    (attrs : list (string * string)) : bool :=
  above || existsb (fun sel => matchesSelector sel tag attrs) (excludeSelectors o).

(** [acceptNode] of the tree walker, for a text node under a parent whose
    exclusion is [excluded]. *)
Definition acceptNode (g : glossary) (excluded : bool) (nid : nat)
    (data : string) : bool :=
  if bool_decide (nid ∈ processedNodes g) then false
  else if excluded then false
  else if String.eqb (trim data) EmptyString
          || (jsLength (trim data) <? 2)%nat then false
  else true.

(** The text nodes the walker returns below [n], in document order, each
    with its content. *)
Fixpoint acceptedBelow (g : glossary) (above : bool) (n : node)
    : list (nat * string) :=
  match n with
  | TextNode _ _ => []
  | Element tag attrs cs =>
      let excluded := shouldExcludeElement (opts g) above tag attrs in
      flat_map (fun c => match c with
                         | TextNode i d =>
                             if acceptNode g excluded i d then [(i, d)] else []
                         | Element _ _ _ => acceptedBelow g excluded c
                         end) cs
  end.

Definition withScan (g : glossary) (b : node) (p : gset nat) (k : nat)
    : glossary :=
  {| terms := terms g; opts := opts g; processedNodes := p; body := b;
     nextNode := k |}.

Section Scan.

(** The fragment parser behind [innerHTML]. *)
Variable parseFragment : string -> option (list node).

(** [processTextNode], for a text node and its content. *)
Definition processTextNode (g : glossary) (textNode : nat * string)
    : option glossary :=
  let (nid, data) := textNode in
  if bool_decide (nid ∈ processedNodes g) then Some g
  else
    match matchTerms (opts g) (terms g) data false with
    | None => None
    | Some (content, hasMatches) =>
        if hasMatches then
          match parseFragment content with
          | None => None
          | Some parsed =>
              let resolved := map (resolvePlaceholders (terms g)) parsed in
              let '(fragment, k) := threadNodes relabel (nextNode g) resolved in
              Some (withScan g (replaceTextNode nid fragment (body g))
                             ({[nid]} ∪ processedNodes g) k)
          end
        else Some (withScan g (body g) ({[nid]} ∪ processedNodes g) (nextNode g))
    end.

Fixpoint processAll (textNodes : list (nat * string)) (g : glossary)
    : option glossary :=
  match textNodes with
  | [] => Some g
  | t :: rest =>
      match processTextNode g t with
      | Some g' => processAll rest g'
      | None => None
      end
  end.

(** [processExistingContent]: collect, then process each node. *)
Definition processExistingContent (g : glossary) : option glossary :=
  processAll (acceptedBelow g false (body g)) g.

(** [refresh] *)
Definition refresh (g : glossary) : option glossary :=
  processExistingContent g.

(** [updateTerms] *)
Definition updateTerms (newTerms : list term) (g : glossary)
    : option glossary :=
  refresh {| terms := indexTerms newTerms; opts := opts g;
             processedNodes := ∅; body := body g; nextNode := nextNode g |}.

End Scan.

(** *** Destroying *)

(** [normalize] on the children of an element: empty text nodes go, a run
    of text nodes becomes its first node. *)
Fixpoint mergeText (cs : list node) : list node :=
  match cs with
  | [] => []
  | TextNode i d :: rest =>
      if String.eqb d EmptyString then mergeText rest
      else
        match mergeText rest with
        | TextNode _ d' :: rest' => TextNode i (d +:+ d') :: rest'
        | rest' => TextNode i d :: rest'
        end
  | c :: rest => c :: mergeText rest
  end.

(** The loop of [destroy] over the markers: each is replaced by a new text
    node of its text and its parent is normalized, subtree included.
    [norm] tells whether an ancestor is normalized; [k] is the next
    identity. *)
Fixpoint unwrapMarkers (norm : bool) (k : nat) (n : node) : node * nat :=
  match n with
  | TextNode _ _ => (n, k)
  | Element tag attrs cs =>
      let norm' := norm || existsb isMarker cs in
      let '(cs', k') :=
        threadNodes (fun k c =>
                       if isMarker c then (TextNode k (textContent c), S k)
                       else unwrapMarkers norm' k c) k cs in
      (Element tag attrs (if norm' then mergeText cs' else cs'), k')
  end.

(** [destroy], on the page content. *)
Definition destroy (g : glossary) : glossary :=
  let '(b, k) := unwrapMarkers false (nextNode g) (body g) in
  withScan g b (processedNodes g) k.

(** ** Induction on the document tree *)

Fixpoint node_induction (P : node -> Prop)
    (Htext : forall nid data, P (TextNode nid data))
    (Helem : forall tag attrs cs, Forall P cs -> P (Element tag attrs cs))
    (n : node) {struct n} : P n :=
  match n with
  | TextNode nid data => Htext nid data
  | Element tag attrs cs =>
      Helem tag attrs cs
        ((fix all (cs : list node) : Forall P cs :=
            match cs with
            | [] => @List.Forall_nil node P
            | c :: r =>
                @List.Forall_cons node P c r (node_induction P Htext Helem c) (all r)
            end) cs)
  end.

(** ** Notions used by the statements *)

(** The positions of a text, from [pos] on, at which [\b] holds. *)
Fixpoint boundaryPositions (prev : option ascii) (s : string) (pos : nat)
    : list nat :=
  match s with
  | EmptyString => if isBoundary prev s then [pos] else []
  | String c s' =>
      (if isBoundary prev s then [pos] else [])
        ++ boundaryPositions (Some c) s' (S pos)
  end.

Definition wordBoundaries (text : string) : list nat :=
  boundaryPositions None text 0.

Fixpoint hasWordChar (s : string) : bool :=
  match s with
  | EmptyString => false
  | String c s' => isWordChar c || hasWordChar s'
  end.

(** The text with an empty placeholder of the term at every word boundary:
    what the substitution makes of a text for a term with the empty word.
    [prev] is the character before the text. *)
Fixpoint withEmptyPlaceholders (t : term) (prev : option ascii) (s : string)
    : string :=
  (if isBoundary prev s then placeholder t EmptyString else EmptyString)
    +:+ match s with
        | EmptyString => EmptyString
        | String c s' => String c (withEmptyPlaceholders t (Some c) s')
        end.

(** The tokens [\b] separates at position [p] of [text]. *)
Definition wordCharAt (text : string) (p : nat) : bool :=
  match String.get p text with
  | Some c => isWordChar c
  | None => false
  end.

Definition boundaryAt (text : string) (p : nat) : bool :=
  xorb (match p with O => false | S q => wordCharAt text q end)
       (wordCharAt text p).

(** A term as it comes from a glossary with only the mandatory fields. *)
Definition plainTerm (i w d : string) : term :=
  {| term_id := i; word := w; definition := d; image := None; link := None;
     enabled := JUndefined; caseSensitive := JUndefined |}.

Definition withExclusions (sels : list selector) (cs : jsval) : options :=
  {| popupPosition := "auto"; animationDuration := 300;
     optCaseSensitive := cs; excludeSelectors := sels |}.

Definition pageOf (ts : list term) (o : options) (b : node) (k : nat) : glossary :=
  {| terms := indexTerms ts; opts := o; processedNodes := ∅; body := b;
     nextNode := k |}.

Definition processedGuard : selector := SelAttr "data-glossary-processed".

(** The text rendered in the first element of a class, and an attribute of
    the first element of a tag, in a parsed fragment. *)
Fixpoint firstByClass (c : string) (n : node) : option node :=
  match n with
  | TextNode _ _ => None
  | Element _ attrs cs =>
      if hasClass c attrs then Some n
      else fold_right (fun child acc =>
                         match firstByClass c child with
                         | Some e => Some e
                         | None => acc
                         end) None cs
  end.

Fixpoint firstByTag (name : string) (n : node) : option node :=
  match n with
  | TextNode _ _ => None
  | Element tag _ cs =>
      if String.eqb tag name then Some n
      else fold_right (fun child acc =>
                         match firstByTag name child with
                         | Some e => Some e
                         | None => acc
                         end) None cs
  end.

Definition attributesOf (n : node) : list (string * string) :=
  match n with
  | TextNode _ _ => []
  | Element _ attrs _ => attrs
  end.

(** The popup element [createPopup] returns, when its markup lies in the
    fragment [miniParse] covers. *)
Definition createPopup (t : term) : option node :=
  option_map (Element "div" [("class", "glossary-popup");
                             ("id", popupElementId t);
                             ("role", "tooltip"); ("aria-live", "polite")])
             (miniParse (popupMarkup t)).

(** The word of the term has [n] code units. *)
Definition lengthIs (n : nat) (t : term) : bool :=
  (jsLength (word t) =? n)%nat.

(** Longer words first, by [word.length]. *)
Definition longerFirst (a b : term) : Prop :=
  (jsLength (word b) <= jsLength (word a))%nat.

Definition isActive (c : controller) (p : nat) : Prop :=
  exists a, activePopup c = Some a /\ element a = p.

Definition supportedPositions : list string :=
  ["auto"; "top"; "bottom"; "left"; "right"].

Definition withPosition (p : string) : options :=
  {| popupPosition := p; animationDuration := 300;
     optCaseSensitive := JUndefined;
     excludeSelectors := defaultExcludeSelectors |}.

(** A marker whose text node has the identity [k]. *)
Definition createGlossaryElementAt (k : nat) (t : term) (matchedText : string)
    : node :=
  fst (relabel k (createGlossaryElement t matchedText)).

(** Two scans in a row. *)
Definition scanTwice (parseFragment : string -> option (list node))
    (g : glossary) : option glossary :=
  match processExistingContent parseFragment g with
  | Some g1 => processExistingContent parseFragment g1
  | None => None
  end.

(** A paragraph of text in an otherwise empty page. *)
Definition paragraph (text : string) : node :=
  Element "body" [] [Element "p" [] [TextNode 1 text]].

Definition apiTerm : term :=
  plainTerm "1" "API" "Application Programming Interface".

(** A term whose image address holds a double quote. *)
Definition quotedImageTerm : term :=
  {| term_id := "1"; word := "API";
     definition := "Application Programming Interface";
     image := Some ("a" +:+ dq +:+ " onerror=" +:+ dq +:+ "alert(1)");
     link := None; enabled := JUndefined; caseSensitive := JUndefined |}.

(** What holds of the controller between any two events. *)
Record consistent (c : controller) : Prop := {
  popups_allocated :
    forall p, In p (documentPopups c) -> (p < nextElement c)%nat;
  popups_distinct : List.NoDup (documentPopups c);
  popups_accounted :
    forall p, In p (documentPopups c) ->
              isActive c p \/ In p (removalTimers c)
}.

(** The page "Use the API to connect." after a scan with the default
    options. *)
Definition scannedApiPage : glossary :=
  {| terms := [apiTerm]; opts := defaultOptions;
     processedNodes := {[1%nat]} ∪ ∅;
     body :=
       Element "body" []
         [Element "p" [("data-glossary-processed", "true")]
            [TextNode 2 "Use the ";
             createGlossaryElementAt 3 apiTerm "API";
             TextNode 4 " to connect."]];
     nextNode := 5 |}.

Definition sampleTerms : list term :=
  [plainTerm "1" "ab" "d"; plainTerm "2" "abcd" "d";
   {| term_id := "3"; word := "abcdefg"; definition := "d"; image := None;
      link := None; enabled := JBool false; caseSensitive := JUndefined |};
   plainTerm "4" "cd" "d"; plainTerm "5" "wxyz" "d"].

(** The letter e with an acute accent, U+00E9: two bytes, one code unit. *)
Definition eAcute : string := String "195"%char (String "169"%char EmptyString).

Definition accentedTerms : list term :=
  [plainTerm "1" "ab" "d"; plainTerm "2" (eAcute +:+ eAcute) "d";
   plainTerm "3" "abc" "d"].

(** A page without a word of [sampleTerms], after [updateTerms]. *)
Definition updatedPage : glossary :=
  {| terms := [plainTerm "2" "abcd" "d"; plainTerm "5" "wxyz" "d";
               plainTerm "1" "ab" "d"; plainTerm "4" "cd" "d"];
     opts := defaultOptions;
     processedNodes := {[1%nat]} ∪ ∅;
     body := paragraph "Nothing to mark here.";
     nextNode := 2 |}.

(** Text the markup parser takes as it is: no NUL, no carriage return. *)
Fixpoint cleanText (s : string) : bool :=
  match s with
  | EmptyString => true
  | String c s' => negb (rewrittenByParser c) && cleanText s'
  end.

(** ** Further notions: matches *)

(** Matches listed left to right from [n] on, each starting where the one
    before it ended or later, and after its start. *)
Fixpoint inOrder (n : nat) (ms : list (nat * nat)) : Prop :=
  match ms with
  | [] => True
  | (p, l) :: ms' => (n <= p)%nat /\ inOrder (Nat.max (p + l) (S p)) ms'
  end.

(** Two texts of one length whose characters the expression takes for the
    same. *)
Fixpoint sameText (ic : bool) (w m : string) : bool :=
  match w, m with
  | EmptyString, EmptyString => true
  | String c w', String d m' => charMatches ic c d && sameText ic w' m'
  | _, _ => false
  end.

(** The character before the end of [s], [prev] when [s] is empty. *)
Fixpoint lastChar (prev : option ascii) (s : string) : option ascii :=
  match s with
  | EmptyString => prev
  | String c s' => lastChar (Some c) s'
  end.

(** Text of ASCII characters only. *)
Fixpoint isAsciiText (s : string) : bool :=
  match s with
  | EmptyString => true
  | String c s' => (code c <? 128)%nat && isAsciiText s'
  end.

(** The case folding of the embedding is the engine's for the term: the
    term is case-sensitive, so nothing is folded, or its word is ASCII. *)
Definition foldsExactly (t : term) : bool :=
  truthy (caseSensitive t) || isAsciiText (word t).

(** The word of the term stands at [p] of the text as a whole word: the
    same characters (up to the case of ASCII letters unless the term is
    case-sensitive) between two word boundaries. *)
Definition wholeWordAt (t : term) (content : string) (p : nat) : bool :=
  (p + String.length (word t) <=? String.length content)%nat
  && sameText (negb (truthy (caseSensitive t))) (word t)
       (substring p (String.length (word t)) content)
  && boundaryAt content p
  && boundaryAt content (p + String.length (word t)).

(** The test [processTextNode] makes for a term: [regex.test(content)]. *)
Definition termFound (o : options) (t : term) (content : string) : bool :=
  match termRegExp o t with
  | Some re => RegExp_test re content
  | None => false
  end.

(** ** The event handlers of the popup controller *)

(** The click listener of a marker. *)
Definition onTermClick (currentTarget : nat) (t : term) (c : controller)
    : controller :=
  match activePopup c with
  | Some a =>
      if (trigger a =? currentTarget)%nat then hidePopup c
      else showPopup currentTarget t c
  | None => showPopup currentTarget t c
  end.

(** The keydown listener of a popup,
    [hidePopup(); this.activePopup?.trigger.focus()] on Escape: the
    controller after it and the element that receives the focus, if one
    does. *)
Definition onPopupKeydown (key : string) (c : controller)
    : controller * option nat :=
  if String.eqb key "Escape" then
    let c' := hidePopup c in
    (c', option_map trigger (activePopup c'))
  else (c, None).

Definition isOpenFor (c : controller) (target : nat) : bool :=
  match activePopup c with
  | Some a => (trigger a =? target)%nat
  | None => false
  end.

(** The removal callbacks run, the oldest first, [n] of them. *)
Fixpoint fireRemovals (n : nat) (c : controller) : controller :=
  match n with
  | O => c
  | S n' => fireRemovals n' (fireRemoval 0 c)
  end.

(** What holds of the active popup between any two events. *)
Record activeAttached (c : controller) : Prop := {
  timers_allocated :
    forall p, In p (removalTimers c) -> (p < nextElement c)%nat;
  active_allocated :
    forall a, activePopup c = Some a -> (element a < nextElement c)%nat;
  active_in_document :
    forall a, activePopup c = Some a -> In (element a) (documentPopups c);
  active_not_scheduled :
    forall a, activePopup c = Some a -> ~ In (element a) (removalTimers c)
}.

(** ** Further notions: the document *)

(** The identities of the text nodes of a tree, in document order. *)
Fixpoint textIds (n : node) : list nat :=
  match n with
  | TextNode i _ => [i]
  | Element _ _ cs => flat_map textIds cs
  end.

(** A node and the nodes below it. *)
Fixpoint subtrees (n : node) : list node :=
  n :: match n with
       | TextNode _ _ => []
       | Element _ _ cs => flat_map subtrees cs
       end.

(** An element that an exclusion selector matches. *)
Definition excludedBySelector (o : options) (n : node) : bool :=
  match n with
  | Element tag attrs _ =>
      existsb (fun sel => matchesSelector sel tag attrs) (excludeSelectors o)
  | TextNode _ _ => false
  end.

(** No term of the list occurs in the text. *)
Definition noOccurrence (o : options) (ts : list term) (data : string) : Prop :=
  Forall (fun t => termMatches o t data = Some []) ts.

(** A parser that reads every markup as one text node; it stands for a
    parser that is defined everywhere. *)
Definition parseAsText (markup : string) : option (list node) :=
  Some (if String.eqb markup EmptyString then [] else [TextNode 0 markup]).

(** A page with an excluded block. *)
Definition pageWithCode : node :=
  Element "body" []
    [Element "p" [] [TextNode 1 "Call the API first."];
     Element "pre" [] [Element "code" [] [TextNode 2 "API.call(1 &amp; 2)"]]].

(** ** Further notions: markup *)



(** ** Automatic initialization *)

(** The key conversion of the auto-initialization,
    [key.replace(/-([a-z])/g, g => g[1].toUpperCase())]: a hyphen and the
    lower-case letter after it give way to the upper-case letter. *)
Fixpoint camelKey (key : string) : string :=
  match key with
  | EmptyString => EmptyString
  | String c rest =>
      if Ascii.eqb c "-" then
        match rest with
        | String d rest' =>
            if isLower d then String (canonicalize d) (camelKey rest')
            else String c (camelKey rest)
        | EmptyString => String c EmptyString
        end
      else String c (camelKey rest)
  end.

(** A hyphen followed by a lower-case letter, somewhere in the key. *)
Fixpoint hasHyphenLower (key : string) : bool :=
  match key with
  | EmptyString => false
  | String c rest =>
      (Ascii.eqb c "-" && match rest with
                          | String d _ => isLower d
                          | EmptyString => false
                          end)
      || hasHyphenLower rest
  end.

(** ** The options of the constructor *)

(** A value of the options object: a JSON value or a list of selectors. *)
Inductive optionValue : Type :=
| OJs (v : jsval)
| OStrings (l : list string).

(** ToBoolean: an array is truthy. *)
Definition truthyOption (v : optionValue) : bool :=
  match v with
  | OJs v => truthy v
  | OStrings _ => true
  end.

(** [options.key || fallback]; an absent key reads [undefined]. *)
Definition orDefault (given : option optionValue) (fallback : optionValue)
    : optionValue :=
  match given with
  | Some v => if truthyOption v then v else fallback
  | None => fallback
  end.

(** [options.key !== false] *)
Definition notFalse (given : option optionValue) : optionValue :=
  OJs (JBool (match given with
              | Some (OJs (JBool false)) => false
              | _ => true
              end)).

(** The properties the object literal of the constructor lists before the
    spread. *)
Definition listedOptions (options : gmap string optionValue)
    : list (string * optionValue) :=
  [("dataUrl", orDefault (options !! "dataUrl") (OJs (JStr "glossary-data.json")));
   ("highlightColor", orDefault (options !! "highlightColor") (OJs (JStr "#000000")));
   ("popupPosition", orDefault (options !! "popupPosition") (OJs (JStr "auto")));
   ("animationDuration", orDefault (options !! "animationDuration") (OJs (JNum 300)));
   ("mobileBreakpoint", orDefault (options !! "mobileBreakpoint") (OJs (JNum 768)));
   ("caseSensitive", orDefault (options !! "caseSensitive") (OJs (JBool false)));
   ("excludeSelectors",
    orDefault (options !! "excludeSelectors")
      (OStrings ["script"; "style"; "code"; "pre"; ".glossary-term";
                 ".glossary-popup"; "[data-glossary-processed]"]));
   ("enableKeyboard", notFalse (options !! "enableKeyboard"));
   ("enableTouch", notFalse (options !! "enableTouch"));
   ("enableHover", notFalse (options !! "enableHover"));
   ("debugMode", orDefault (options !! "debugMode") (OJs (JBool false)))].

(** [this.options] of the constructor: the listed properties, then the
    spread of the argument, whose own properties replace them. *)
Definition constructorOptions (options : gmap string optionValue)
    : gmap string optionValue :=
  options ∪ list_to_map (listedOptions options).

(** ** The content observer *)

Inductive nodeKind : Type :=
| ElementNode
| TextKind
| OtherKind.

Record mutationRecord : Type := {
  mutationType : string;
  addedNodes : list nodeKind
}.

Definition addsElement (m : mutationRecord) : bool :=
  String.eqb (mutationType m) "childList"
  && existsb (fun k => match k with ElementNode => true | _ => false end)
             (addedNodes m).

(** [shouldProcess] at the end of the observer's callback. *)
Definition shouldProcess (mutations : list mutationRecord) : bool :=
  existsb addsElement mutations.

(** The timers of the observer: [processingTimeout] is the handle the
    callback stored last, [pendingScans] the rescans that wait, and
    [scansRun] counts the rescans that ran. *)
Record observer : Type := {
  processingTimeout : option nat;
  pendingScans : list nat;
  nextHandle : nat;
  scansRun : nat
}.

Definition initialObserver : observer :=
  {| processingTimeout := None; pendingScans := []; nextHandle := 0;
     scansRun := 0 |}.

(** [clearTimeout(handle)] *)
Definition clearTimeout (handle : option nat) (pending : list nat) : list nat :=
  match handle with
  | Some h => List.filter (fun x => negb (x =? h)%nat) pending
  | None => pending
  end.

(** The callback of the mutation observer. *)
Definition observerCallback (mutations : list mutationRecord) (ob : observer)
    : observer :=
  if shouldProcess mutations then
    {| processingTimeout := Some (nextHandle ob);
       pendingScans :=
         clearTimeout (processingTimeout ob) (pendingScans ob) ++ [nextHandle ob];
       nextHandle := S (nextHandle ob);
       scansRun := scansRun ob |}
  else ob.

(** The timer with the handle [h] fires, if it is pending. *)
Definition rescanTimer (h : nat) (ob : observer) : observer :=
  if existsb (Nat.eqb h) (pendingScans ob) then
    {| processingTimeout := processingTimeout ob;
       pendingScans := List.filter (fun x => negb (x =? h)%nat) (pendingScans ob);
       nextHandle := nextHandle ob;
       scansRun := S (scansRun ob) |}
  else ob.

Inductive observerEvent : Type :=
| Mutations (ms : list mutationRecord)
| TimerFires (h : nat).

Definition observerStep (ob : observer) (e : observerEvent) : observer :=
  match e with
  | Mutations ms => observerCallback ms ob
  | TimerFires h => rescanTimer h ob
  end.

Definition observe (es : list observerEvent) : observer :=
  fold_left observerStep es initialObserver.

(** The batches of a run that add an element. *)
Definition batchesWithElements (es : list observerEvent) : nat :=
  length (List.filter (fun e => match e with
                                | Mutations ms => shouldProcess ms
                                | TimerFires _ => false
                                end) es).

(** What holds of the timers between any two events: no rescan waits, or
    one does, under the handle stored last. *)
Definition debounced (ob : observer) : Prop :=
  pendingScans ob = []
  \/ exists h, pendingScans ob = [h] /\ processingTimeout ob = Some h.

(** ** The announcement *)

(** The message [showPopup] announces. *)
Definition announcementFor (t : term) : string :=
  "Glossary definition for " +:+ word t +:+ ": " +:+ definition t.

Definition announcementAttrs : list (string * string) :=
  [("aria-live", "polite"); ("aria-atomic", "true"); ("class", "sr-only")].

(** [announceToScreenReader]: the live region appended to the body, with
    the message as its text. *)
Definition announceToScreenReader (message : string) (g : glossary) : glossary :=
  match body g with
  | Element tag attrs cs =>
      withScan g
        (Element tag attrs
           (cs ++ [Element "div" announcementAttrs
                     (if String.eqb message EmptyString then []
                      else [TextNode (nextNode g) message])]))
        (processedNodes g) (S (nextNode g))
  | TextNode _ _ => g
  end.

Definition firstChar (s : string) : option ascii :=
  match s with
  | String c _ => Some c
  | EmptyString => None
  end.

(** A page whose body holds one paragraph, ready for the announcement of
    [apiTerm]. *)
Definition announcingPage : glossary :=
  {| terms := [apiTerm]; opts := defaultOptions; processedNodes := {[1%nat]};
     body := paragraph "Nothing to mark here."; nextNode := 2 |}.

(** * Properties *)

(** ** Regular expressions of terms *)

Ltac each_char c :=
  destruct c as [[] [] [] [] [] [] [] []]; try discriminate; try reflexivity.

Lemma special_is_syntax_char (c : ascii) : isRegExpSpecial c = isSyntaxChar c.
Proof. each_char c. Qed.

Lemma parsePattern_plain (c : ascii) (p : string) :
  isSyntaxChar c = false ->
  parsePattern (String c p) = option_map (cons (Char c)) (parsePattern p).
Proof. intros H. revert H. each_char c. Qed.

Lemma parsePattern_escape (c : ascii) (p : string) :
  isSyntaxChar c = true ->
  parsePattern (String "\"%char (String c p))
  = option_map (cons (Char c)) (parsePattern p).
Proof. intros H. revert H. each_char c. Qed.

Lemma option_map_cons_app {A : Type} (a : A) (l : list A) (x : option (list A)) :
  option_map (cons a) (option_map (app l) x) = option_map (app (a :: l)) x.
Proof. destruct x; reflexivity. Qed.

(** Escaping makes every word a literal of the pattern. *)
Lemma parsePattern_escaped (w p : string) :
  parsePattern (escapeRegExp w +:+ p)
  = option_map (app (map Char (list_ascii_of_string w))) (parsePattern p).
Proof.
  induction w as [|c w IH]; simpl.
  - change (EmptyString +:+ p) with p. destruct (parsePattern p); reflexivity.
  - destruct (isRegExpSpecial c) eqn:E; rewrite special_is_syntax_char in E.
    + change (String "\"%char (String c (escapeRegExp w)) +:+ p)
        with (String "\"%char (String c (escapeRegExp w +:+ p))).
      rewrite parsePattern_escape, IH by exact E. apply option_map_cons_app.
    + change (String c (escapeRegExp w) +:+ p)
        with (String c (escapeRegExp w +:+ p)).
      rewrite parsePattern_plain, IH by exact E. apply option_map_cons_app.
Qed.

(** The expression of a term: the word as a literal between two [\b],
    global, case-insensitive unless the term says otherwise.  Building it
    never fails. *)
Lemma termRegExp_literal (o : options) (t : term) :
  termRegExp o t
  = Some {| atoms := WordBoundary
                       :: map Char (list_ascii_of_string (word t))
                       ++ [WordBoundary];
            global := true;
            ignoreCase := negb (truthy (caseSensitive t)) |}.
Proof.
  unfold termRegExp, RegExp_new, termFlags.
  change ("\b" +:+ escapeRegExp (word t) +:+ "\b")
    with (String "\"%char (String "b"%char (escapeRegExp (word t) +:+ "\b"))).
  assert (Hp : parsePattern
                 (String "\"%char (String "b"%char (escapeRegExp (word t) +:+ "\b")))
               = Some (WordBoundary
                         :: map Char (list_ascii_of_string (word t))
                         ++ [WordBoundary])).
  { change (parsePattern
              (String "\"%char (String "b"%char (escapeRegExp (word t) +:+ "\b"))))
      with (option_map (cons WordBoundary)
              (parsePattern (escapeRegExp (word t) +:+ "\b"))).
    rewrite parsePattern_escaped. reflexivity. }
  rewrite Hp. destruct (truthy (caseSensitive t)); reflexivity.
Qed.

(** The options of the receiver play no part in the expression. *)
Lemma termRegExp_ignores_options (o o' : options) (t : term) :
  termRegExp o t = termRegExp o' t.
Proof. reflexivity. Qed.

(** The loop over the terms raises no error. *)
Lemma matchTerms_total (o : options) (ts : list term) :
  forall content hasMatches,
    exists r, matchTerms o ts content hasMatches = Some r.
Proof.
  induction ts as [|t ts IH]; intros content hasMatches; simpl.
  - eexists; reflexivity.
  - rewrite termRegExp_literal.
    destruct (RegExp_test _ content); apply IH.
Qed.

(** ** Matches of an empty word *)

Lemma matchAtoms_two_boundaries (ic : bool) (prev : option ascii) (s : string) :
  matchAtoms ic [WordBoundary; WordBoundary] prev s
  = if isBoundary prev s then Some 0%nat else None.
Proof. simpl. destruct (isBoundary prev s); reflexivity. Qed.

Lemma execAll_two_boundaries (re : RegExp) :
  atoms re = [WordBoundary; WordBoundary] ->
  forall s prev pos,
    execAll re prev s pos 0
    = map (fun p => (p, 0%nat)) (boundaryPositions prev s pos).
Proof.
  intros Ha. induction s as [|c s IH]; intros prev pos.
  - simpl. rewrite Ha, matchAtoms_two_boundaries.
    destruct (isBoundary prev EmptyString); reflexivity.
  - cbn [execAll boundaryPositions]. rewrite Ha, matchAtoms_two_boundaries.
    destruct (isBoundary prev (String c s)); cbn [Nat.pred]; rewrite IH;
      reflexivity.
Qed.

Lemma boundaryPositions_no_word (s : string) :
  hasWordChar s = false ->
  forall prev pos, wordBefore prev = false -> boundaryPositions prev s pos = [].
Proof.
  induction s as [|c s IH]; intros Hw prev pos Hp.
  - simpl. unfold isBoundary. rewrite Hp. reflexivity.
  - simpl in Hw. apply orb_false_iff in Hw as [Hc Hs].
    cbn [boundaryPositions]. unfold isBoundary. rewrite Hp. simpl. rewrite Hc.
    simpl. apply IH; assumption.
Qed.

Lemma get_drop_head (s : string) (c : ascii) (r : string) (p : nat) :
  substring p (String.length s - p) s = String c r ->
  String.get p s = Some c.
Proof.
  revert p. induction s as [|d s IH]; intros p H.
  - destruct p; discriminate.
  - destruct p as [|p].
    + simpl in H. injection H as -> _. reflexivity.
    + simpl in H. simpl. apply IH. exact H.
Qed.

(** [boundaryPositions] lists the positions at which exactly one of the
    neighbouring characters is a word character. *)
Lemma boundaryPositions_spec (s : string) :
  forall prev pos p,
    In p (boundaryPositions prev s pos) <->
    (pos <= p <= pos + String.length s)%nat /\
    xorb (match (p - pos)%nat with
          | O => wordBefore prev
          | S q => wordCharAt s q
          end) (wordCharAt s (p - pos)) = true.
Proof.
  induction s as [|c s IH]; intros prev pos p.
  - simpl. unfold isBoundary, wordCharAt. simpl.
    destruct (wordBefore prev) eqn:E; simpl; split.
    + intros [<-|[]]. split; [lia|]. replace (pos - pos)%nat with 0%nat by lia.
      reflexivity.
    + intros [H _]. left. lia.
    + intros [].
    + intros [H1 H2]. replace (p - pos)%nat with 0%nat in H2 by lia.
      discriminate.
  - cbn [boundaryPositions]. rewrite in_app_iff, IH. cbn [String.length].
    split.
    + intros [H|[H1 H2]].
      * assert (p = pos /\ isBoundary prev (String c s) = true) as [-> Hb].
        { destruct (isBoundary prev (String c s)); [|destruct H].
          destruct H as [<-|[]]. split; reflexivity. }
        split; [lia|]. replace (pos - pos)%nat with 0%nat by lia. exact Hb.
      * split; [lia|].
        destruct (p - S pos)%nat as [|q] eqn:Eq.
        -- replace (p - pos)%nat with 1%nat by lia. exact H2.
        -- replace (p - pos)%nat with (S (S q)) by lia. exact H2.
    + intros [H1 H2].
      destruct (Nat.eq_dec p pos) as [->|Hne].
      * left. replace (pos - pos)%nat with 0%nat in H2 by lia.
        change (isBoundary prev (String c s) = true) in H2. rewrite H2.
        left. reflexivity.
      * right. split; [lia|].
        destruct (p - pos)%nat as [|[|q]] eqn:Eq; [lia| |].
        -- replace (p - S pos)%nat with 0%nat by lia. exact H2.
        -- replace (p - S pos)%nat with (S q) by lia. exact H2.
Qed.

Lemma wordBoundaries_spec (text : string) (p : nat) :
  In p (wordBoundaries text) <->
  (p <= String.length text)%nat /\ boundaryAt text p = true.
Proof.
  unfold wordBoundaries. rewrite boundaryPositions_spec.
  replace (p - 0)%nat with p by lia. unfold boundaryAt. simpl.
  split; intros [H1 H2]; (split; [lia|]); destruct p; exact H2.
Qed.

(** C6, as the claim states it, fails: on "Use the API" a term with the
    empty word matches six times, and the text is rewritten: an empty
    placeholder stands at each of the six word boundaries. *)
Lemma empty_word_matches_at_boundaries :
  let t := plainTerm "e" EmptyString "d" in
  termMatches defaultOptions t "Use the API"
    = Some [(0, 0); (3, 0); (4, 0); (7, 0); (8, 0); (11, 0)]%nat
  /\ matchTerms defaultOptions [t] "Use the API" false
     = Some (placeholder t EmptyString +:+ "Use" +:+ placeholder t EmptyString
               +:+ " " +:+ placeholder t EmptyString +:+ "the"
               +:+ placeholder t EmptyString +:+ " "
               +:+ placeholder t EmptyString +:+ "API"
               +:+ placeholder t EmptyString, true).
Proof. split; vm_compute; reflexivity. Qed.

(** ** Overlap of matches *)

(** C1: with the terms "machine learning" and "machine", the second scans
    the text in which the first has left its placeholder, matches inside
    that placeholder, and leaves a placeholder nested in it. *)
Theorem shorter_term_matches_inside_placeholder :
  let t1 := plainTerm "1" "machine learning" "d1" in
  let t2 := plainTerm "2" "machine" "d2" in
  let text := "machine learning" in
  indexTerms [t2; t1] = [t1; t2]
  /\ termMatches defaultOptions t1 text = Some [(0, 16)]%nat
  /\ matchTerms defaultOptions [t1] text false = Some (placeholder t1 text, true)
  /\ placeholderSpans t1 [(0, 16)]%nat 0 = [(0, 80)]%nat
  /\ termMatches defaultOptions t2 (placeholder t1 text) = Some [(57, 7)]%nat
  /\ startsInside (placeholderSpans t1 [(0, 16)]%nat 0) 57 = true
  /\ matchTerms defaultOptions [t1; t2] text false
     = Some (placeholderOpen t1 +:+ placeholder t2 "machine" +:+ " learning"
               +:+ placeholderClose, true).
Proof. vm_compute. repeat split; reflexivity. Qed.

(** The same pass on a word of the placeholder markup: "term" matches in
    the class name and in the attribute name of the earlier placeholder. *)
Example shorter_term_matches_inside_markup :
  let t1 := plainTerm "1" "glossary term" "d1" in
  let t2 := plainTerm "2" "term" "d2" in
  termMatches defaultOptions t2 (placeholder t1 "glossary term")
  = Some [(22, 4); (45, 4); (66, 4)]%nat.
Proof. reflexivity. Qed.

(** A shorter word that is no word of its own inside the longer one does
    not match there: the boundaries of the expression see to it. *)
Example substring_inside_a_word_does_not_match :
  matchTerms defaultOptions
    [plainTerm "1" "category" "d1"; plainTerm "2" "cat" "d2"]
    "a cat in a category" false
  = Some ("a " +:+ placeholder (plainTerm "2" "cat" "d2") "cat" +:+ " in a "
            +:+ placeholder (plainTerm "1" "category" "d1") "category", true).
Proof. vm_compute. reflexivity. Qed.

(** ** Case sensitivity *)

(** C5: with the option [caseSensitive] set, a term without the field still
    matches whatever the case: the option is not read. *)
Theorem caseSensitive_option_not_consulted :
  let o := withExclusions defaultExcludeSelectors (JBool true) in
  let t := plainTerm "1" "API" "Application Programming Interface" in
  optCaseSensitive o = JBool true
  /\ caseSensitive t = JUndefined
  /\ termFlags t = "gi"
  /\ termMatches o t "use the api" = Some [(8, 3)]%nat
  /\ matchTerms o [t] "use the api" false
     = Some ("use the " +:+ placeholder t "api", true).
Proof. vm_compute. repeat split; reflexivity. Qed.

(** A term's own field does decide. *)
Lemma term_caseSensitive_decides (o : options) (t : term) :
  option_map ignoreCase (termRegExp o t) = Some (negb (truthy (caseSensitive t))).
Proof. rewrite termRegExp_literal. reflexivity. Qed.

(** ** Popup placement *)

Lemma autoPosition_choice (tr pr : DOMRect) (vw vh : float) :
  AutoChoice tr pr vw vh (autoPosition tr pr vw vh).
Proof.
  unfold autoPosition, geb.
  change (PrimFloat.leb (rHeight pr + 10) (vh - rBottom tr))
    with (fits (rHeight pr) (vh - rBottom tr)).
  change (PrimFloat.leb (rHeight pr + 10) (rTop tr))
    with (fits (rHeight pr) (rTop tr)).
  change (PrimFloat.leb (rWidth pr + 10) (vw - rRight tr))
    with (fits (rWidth pr) (vw - rRight tr)).
  change (PrimFloat.leb (rWidth pr + 10) (rLeft tr))
    with (fits (rWidth pr) (rLeft tr)).
  destruct (fits (rHeight pr) (vh - rBottom tr)) eqn:Eb.
  { apply ChooseBelow. exact Eb. }
  destruct (fits (rHeight pr) (rTop tr)) eqn:Et.
  { apply ChooseAbove; assumption. }
  destruct (fits (rWidth pr) (vw - rRight tr)) eqn:Er.
  { apply ChooseRight; assumption. }
  destruct (fits (rWidth pr) (rLeft tr)) eqn:El.
  { apply ChooseLeft; assumption. }
  apply ChooseFallback; assumption.
Qed.

Lemma autoPosition_side (tr pr : DOMRect) (vw vh : float) :
  In (autoPosition tr pr vw vh) ["top"; "bottom"; "left"; "right"].
Proof.
  unfold autoPosition.
  repeat match goal with
         | |- context [if ?b then _ else _] => destruct b
         end; simpl; tauto.
Qed.

Lemma positionClass_positionPopup (o : options) (tr pr : DOMRect)
    (vw vh sx sy : float) :
  positionClass (positionPopup o tr pr vw vh sx sy)
  = "position-" +:+
      (if String.eqb (popupPosition o) "auto"
       then autoPosition tr pr vw vh else popupPosition o).
Proof.
  unfold positionPopup. destruct (sideOffsets _ tr pr sx sy) as [[y x]|];
    reflexivity.
Qed.

(** C8: in the auto mode the side is chosen in the order below, above,
    right, left, each if the popup and the 10-unit margin fit there, and
    below when none fits.  The sizes and the spaces are doubles, and a
    popup fits when the source's comparison of doubles says so. *)
Theorem auto_placement_preference (o : options) (tr pr : DOMRect)
    (vw vh sx sy : float) :
  popupPosition o = "auto" ->
  exists side,
    positionClass (positionPopup o tr pr vw vh sx sy) = "position-" +:+ side
    /\ AutoChoice tr pr vw vh side.
Proof.
  intros Hauto. exists (autoPosition tr pr vw vh). split.
  - rewrite positionClass_positionPopup, Hauto. reflexivity.
  - apply autoPosition_choice.
Qed.

(** A trigger near the bottom edge, with room above only: "top". *)
Lemma auto_placement_preference_witness :
  exists side,
    positionClass
      (positionPopup defaultOptions
         {| rTop := 560; rLeft := 300; rBottom := 580; rRight := 360;
            rWidth := 60; rHeight := 20 |}
         {| rTop := 0; rLeft := 0; rBottom := 100; rRight := 250;
            rWidth := 250; rHeight := 100 |}
         800 600 0 0)
    = "position-" +:+ side
    /\ AutoChoice
         {| rTop := 560; rLeft := 300; rBottom := 580; rRight := 360;
            rWidth := 60; rHeight := 20 |}
         {| rTop := 0; rLeft := 0; rBottom := 100; rRight := 250;
            rWidth := 250; rHeight := 100 |}
         800 600 side.
Proof. apply (auto_placement_preference defaultOptions). reflexivity. Defined.

Example auto_placement_near_bottom_edge :
  positionClass
    (positionPopup defaultOptions
       {| rTop := 560; rLeft := 300; rBottom := 580; rRight := 360;
          rWidth := 60; rHeight := 20 |}
       {| rTop := 0; rLeft := 0; rBottom := 100; rRight := 250;
          rWidth := 250; rHeight := 100 |}
       800 600 0 0)
  = "position-top".
Proof. reflexivity. Qed.

Example auto_placement_no_room :
  positionClass
    (positionPopup defaultOptions
       {| rTop := 40; rLeft := 100; rBottom := 60; rRight := 160;
          rWidth := 60; rHeight := 20 |}
       {| rTop := 0; rLeft := 0; rBottom := 100; rRight := 250;
          rWidth := 250; rHeight := 100 |}
       300 100 0 0)
  = "position-bottom".
Proof. reflexivity. Qed.

(** The comparison is the one of doubles.  With a viewport 600 high, the
    trigger ending at 469.9 and a popup 120.10000000000004 high, the space
    below and the height with its margin both round to 130.10000000000002:
    the popup fits below, and "bottom" is chosen. *)
Example auto_placement_rounds_as_doubles :
  (600 - 469.9 = 130.10000000000002)%float
  /\ (120.10000000000004 + 10 = 130.10000000000002)%float
  /\ positionClass
       (positionPopup defaultOptions
          {| rTop := 449.9; rLeft := 300; rBottom := 469.9; rRight := 360;
             rWidth := 60; rHeight := 20 |}
          {| rTop := 0; rLeft := 0; rBottom := 120.10000000000004;
             rRight := 250; rWidth := 250; rHeight := 120.10000000000004 |}
          800 600 0 0)
     = "position-bottom".
Proof. repeat split; reflexivity. Qed.

(** *** Comparisons of doubles *)

Lemma SFcompare_antisym (a b : spec_float) (c : comparison) :
  SFcompare a b = Some c -> SFcompare b a = Some (CompOpp c).
Proof.
  destruct a as [sa|sa| |sa ma ea], b as [sb|sb| |sb mb eb]; cbn;
    try discriminate; intros [= <-]; try (destruct sa; reflexivity);
    try (destruct sb; reflexivity); try (destruct sa, sb; reflexivity).
  f_equal.
  destruct sa, sb; try reflexivity.
  - rewrite (Z.compare_antisym ea eb).
    destruct (Z.compare ea eb) eqn:E; cbn; try reflexivity.
    rewrite (Pos.compare_cont_antisym ma mb). cbn. reflexivity.
  - rewrite (Z.compare_antisym ea eb).
    destruct (Z.compare ea eb) eqn:E; cbn; try reflexivity.
    rewrite (Pos.compare_cont_antisym ma mb). cbn. reflexivity.
Qed.

Lemma SFcompare_numbers (a b : spec_float) :
  SFeqb a a = true -> SFeqb b b = true -> exists c, SFcompare a b = Some c.
Proof.
  unfold SFeqb.
  destruct a as [sa|sa| |sa ma ea], b as [sb|sb| |sb mb eb]; cbn;
    try discriminate; intros _ _; eexists; reflexivity.
Qed.

(** Two numbers compare: when [x < y] fails, [y <= x] holds. *)
Lemma not_less_is_at_least (x y : float) :
  is_nan x = false -> is_nan y = false ->
  PrimFloat.ltb x y = false -> PrimFloat.leb y x = true.
Proof.
  unfold is_nan. rewrite !FloatAxioms.eqb_spec, ltb_spec, leb_spec.
  intros Hx Hy. apply negb_false_iff in Hx, Hy.
  destruct (SFcompare_numbers _ _ Hx Hy) as [c Hc].
  unfold SFltb, SFleb. rewrite Hc, (SFcompare_antisym _ _ _ Hc).
  destruct c; cbn; congruence.
Qed.

(** *** The boundary checks *)

Lemma clampLeft_cases (x pw vw : float) :
  (clampLeft x pw vw = (vw - pw - 10)%float
   /\ gtb ((if lessThan x 10 then 10 else x) + pw)%float (vw - 10)%float = true)
  \/ (clampLeft x pw vw = (if lessThan x 10 then 10%float else x)
      /\ gtb (clampLeft x pw vw + pw)%float (vw - 10)%float = false).
Proof.
  unfold clampLeft.
  destruct (gtb ((if lessThan x 10 then 10 else x) + pw)%float (vw - 10)%float)
    eqn:E; [left | right]; split; try reflexivity; assumption.
Qed.

Lemma clampTop_cases (y ph vh sy : float) :
  (clampTop y ph vh sy = (vh + sy - ph - 10)%float
   /\ gtb ((if lessThan y 10 then 10 else y) + ph)%float (vh + sy - 10)%float
      = true)
  \/ (clampTop y ph vh sy = (if lessThan y 10 then 10%float else y)
      /\ gtb (clampTop y ph vh sy + ph)%float (vh + sy - 10)%float = false).
Proof.
  unfold clampTop.
  destruct (gtb ((if lessThan y 10 then 10 else y) + ph)%float
              (vh + sy - 10)%float)
    eqn:E; [left | right]; split; try reflexivity; assumption.
Qed.

Lemma near_clamp_passes (c : float) :
  passesNearCheck (if lessThan c 10 then 10%float else c).
Proof.
  unfold passesNearCheck. destruct (lessThan c 10) eqn:E; [reflexivity | exact E].
Qed.

(** After the checks a coordinate is not below 10, provided the far
    position is not. *)
Lemma clamp_near (c size limit final : float) :
  passesNearCheck (limit - size - 10)%float ->
  final = (limit - size - 10)%float
  \/ final = (if lessThan c 10 then 10%float else c) ->
  passesNearCheck final.
Proof.
  intros Hfit [->| ->]; [exact Hfit | apply near_clamp_passes].
Qed.

Lemma passesNearCheck_number (c : float) :
  passesNearCheck c -> is_nan c = false -> PrimFloat.leb 10 c = true.
Proof.
  intros Hc Hn. apply not_less_is_at_least; [exact Hn | reflexivity | exact Hc].
Qed.

(** A coordinate that overflows on no side is left alone. *)
Lemma clampLeft_inside (x pw vw : float) :
  passesNearCheck x -> passesFarCheck x pw vw -> clampLeft x pw vw = x.
Proof.
  unfold passesNearCheck, passesFarCheck, clampLeft. intros -> ->. reflexivity.
Qed.

Lemma clampTop_inside (y ph vh sy : float) :
  passesNearCheck y -> passesFarCheck y ph (vh + sy)%float ->
  clampTop y ph vh sy = y.
Proof.
  unfold passesNearCheck, passesFarCheck, clampTop. intros -> ->. reflexivity.
Qed.

Lemma sideOffsets_defined (side : string) (tr pr : DOMRect) (sx sy : float) :
  In side ["top"; "bottom"; "left"; "right"] ->
  exists y x, sideOffsets side tr pr sx sy = Some (y, x).
Proof.
  simpl. intros [<-|[<-|[<-|[<-|[]]]]]; eexists; eexists; reflexivity.
Qed.

(** C9, as the claim states it, fails: a popup of the minimum width of 250
    in a viewport 240 wide is placed at left = -20. *)
Lemma popup_wider_than_viewport_overflows :
  exists y x,
    styleTop (positionPopup defaultOptions
                {| rTop := 100; rLeft := 100; rBottom := 120; rRight := 150;
                   rWidth := 50; rHeight := 20 |}
                {| rTop := 0; rLeft := 0; rBottom := 100; rRight := 250;
                   rWidth := 250; rHeight := 100 |}
                240 600 0 0) = Some y
    /\ styleLeft (positionPopup defaultOptions
                {| rTop := 100; rLeft := 100; rBottom := 120; rRight := 150;
                   rWidth := 50; rHeight := 20 |}
                {| rTop := 0; rLeft := 0; rBottom := 100; rRight := 250;
                   rWidth := 250; rHeight := 100 |}
                240 600 0 0) = Some x
    /\ x = (-20)%float
    /\ ~ keepsInset 10 y x
           {| rTop := 0; rLeft := 0; rBottom := 100; rRight := 250;
              rWidth := 250; rHeight := 100 |}
           240 600 0 0.
Proof.
  eexists. eexists. split; [reflexivity|]. split; [reflexivity|].
  split; [reflexivity|].
  unfold keepsInset. intros (H & _). vm_compute in H. discriminate H.
Qed.

(** On a scrolled page the near edges are compared with the page, not with
    the viewport: scrolled by 1000, a popup placed above its trigger ends
    above the top edge of the viewport. *)
Example scrolled_page_top_edge :
  exists y,
    styleTop (positionPopup (withPosition "top")
                {| rTop := 5; rLeft := 100; rBottom := 25; rRight := 150;
                   rWidth := 50; rHeight := 20 |}
                {| rTop := 0; rLeft := 0; rBottom := 100; rRight := 250;
                   rWidth := 250; rHeight := 100 |}
                800 600 0 1000) = Some y
    /\ y = 895%float
    /\ PrimFloat.leb (1000 + 10) y = false.
Proof. eexists. repeat split; reflexivity. Qed.

(** The far position is a difference of doubles, and it rounds.  In a
    viewport 600 high, scrolled by 4311.018980221029, a popup
    168.24477291712856 high that is moved to the far position fails the
    far-edge test of the source once more: its bottom edge, as the source
    adds it up, lies above the limit by one unit in the last place. *)
Example far_position_rounds :
  let top := clampTop 5000 168.24477291712856 600 4311.018980221029 in
  isFarPosition top 168.24477291712856 (600 + 4311.018980221029)
  /\ top = 4732.7742073039008%float
  /\ (top + 168.24477291712856 = 4901.0189802210298)%float
  /\ (600 + 4311.018980221029 - 10 = 4901.0189802210289)%float
  /\ gtb (top + 168.24477291712856) (600 + 4311.018980221029 - 10) = true.
Proof. repeat split; reflexivity. Qed.

(** C9, amended: for the five placement modes, on a page that is not
    scrolled and for a popup that fits between the insets (the far
    positions, as the source computes them, are not below 10), neither
    final coordinate is below 10, and one that is a number is 10 or more;
    each final coordinate passes the far-edge check of the source or is
    the far position itself; and a coordinate that passes both checks is
    not changed. *)
Theorem clamp_keeps_inset (o : options) (tr pr : DOMRect) (vw vh : float) :
  In (popupPosition o) supportedPositions ->
  passesNearCheck (vw - rWidth pr - 10)%float ->
  passesNearCheck (vh + 0 - rHeight pr - 10)%float ->
  exists side y0 x0 top left,
    sideOffsets side tr pr 0 0 = Some (y0, x0)
    /\ positionClass (positionPopup o tr pr vw vh 0 0) = "position-" +:+ side
    /\ styleTop (positionPopup o tr pr vw vh 0 0) = Some top
    /\ styleLeft (positionPopup o tr pr vw vh 0 0) = Some left
    /\ passesNearCheck left
    /\ passesNearCheck top
    /\ (is_nan left = false -> PrimFloat.leb 10 left = true)
    /\ (is_nan top = false -> PrimFloat.leb 10 top = true)
    /\ (passesFarCheck left (rWidth pr) vw
        \/ isFarPosition left (rWidth pr) vw)
    /\ (passesFarCheck top (rHeight pr) (vh + 0)%float
        \/ isFarPosition top (rHeight pr) (vh + 0)%float)
    /\ (passesNearCheck x0 -> passesFarCheck x0 (rWidth pr) vw -> left = x0)
    /\ (passesNearCheck y0 -> passesFarCheck y0 (rHeight pr) (vh + 0)%float ->
        top = y0).
Proof.
  intros Hmode Hw Hh.
  set (side := if String.eqb (popupPosition o) "auto"
               then autoPosition tr pr vw vh else popupPosition o).
  assert (Hside : In side ["top"; "bottom"; "left"; "right"]).
  { subst side. destruct (String.eqb (popupPosition o) "auto") eqn:E.
    - apply autoPosition_side.
    - simpl in Hmode. destruct Hmode as [H|H]; [|exact H].
      rewrite <- H in E. discriminate. }
  destruct (sideOffsets_defined side tr pr 0 0 Hside) as (y0 & x0 & Hoff).
  exists side, y0, x0, (clampTop y0 (rHeight pr) vh 0),
    (clampLeft x0 (rWidth pr) vw).
  split; [exact Hoff|].
  split; [apply positionClass_positionPopup|].
  unfold positionPopup. fold side. rewrite Hoff. cbn [styleTop styleLeft].
  split; [reflexivity|]. split; [reflexivity|].
  assert (HL : passesNearCheck (clampLeft x0 (rWidth pr) vw)).
  { apply (clamp_near x0 (rWidth pr) vw); [exact Hw|].
    destruct (clampLeft_cases x0 (rWidth pr) vw) as [[E _]|[E _]];
      [left | right]; exact E. }
  assert (HT : passesNearCheck (clampTop y0 (rHeight pr) vh 0)).
  { apply (clamp_near y0 (rHeight pr) (vh + 0)%float); [exact Hh|].
    destruct (clampTop_cases y0 (rHeight pr) vh 0) as [[E _]|[E _]];
      [left | right]; exact E. }
  split; [exact HL|]. split; [exact HT|].
  split; [apply passesNearCheck_number; exact HL|].
  split; [apply passesNearCheck_number; exact HT|].
  split; [|split; [|split]].
  - destruct (clampLeft_cases x0 (rWidth pr) vw) as [[E _]|[_ E]];
      [right; exact E | left; exact E].
  - destruct (clampTop_cases y0 (rHeight pr) vh 0) as [[E _]|[_ E]];
      [right; exact E | left; exact E].
  - apply clampLeft_inside.
  - apply clampTop_inside.
Qed.

(** A trigger in the upper right corner, the popup above it: the switch
    gives top = -60 and left = 605; the near check moves the top to 10,
    the far check moves the left to 540. *)
Lemma clamp_keeps_inset_witness :
  exists side y0 x0 top left,
    sideOffsets side
      {| rTop := 50; rLeft := 700; rBottom := 70; rRight := 760;
         rWidth := 60; rHeight := 20 |}
      {| rTop := 0; rLeft := 0; rBottom := 100; rRight := 250;
         rWidth := 250; rHeight := 100 |} 0 0 = Some (y0, x0)
    /\ styleTop (positionPopup (withPosition "top")
         {| rTop := 50; rLeft := 700; rBottom := 70; rRight := 760;
            rWidth := 60; rHeight := 20 |}
         {| rTop := 0; rLeft := 0; rBottom := 100; rRight := 250;
            rWidth := 250; rHeight := 100 |} 800 600 0 0) = Some top
    /\ styleLeft (positionPopup (withPosition "top")
         {| rTop := 50; rLeft := 700; rBottom := 70; rRight := 760;
            rWidth := 60; rHeight := 20 |}
         {| rTop := 0; rLeft := 0; rBottom := 100; rRight := 250;
            rWidth := 250; rHeight := 100 |} 800 600 0 0) = Some left
    /\ (y0, x0) = ((-60)%float, 605%float)
    /\ (top, left) = (10%float, 540%float)
    /\ PrimFloat.leb 10 left = true
    /\ PrimFloat.leb 10 top = true
    /\ (passesFarCheck left 250 800 \/ isFarPosition left 250 800).
Proof.
  destruct (clamp_keeps_inset (withPosition "top")
              {| rTop := 50; rLeft := 700; rBottom := 70; rRight := 760;
                 rWidth := 60; rHeight := 20 |}
              {| rTop := 0; rLeft := 0; rBottom := 100; rRight := 250;
                 rWidth := 250; rHeight := 100 |} 800 600)
    as (side & y0 & x0 & top & left & H1 & H2 & H3 & H4 & _ & _ & H7 & H8
        & H9 & _).
  - simpl. tauto.
  - reflexivity.
  - reflexivity.
  - assert (Es : side = "top").
    { vm_compute in H2. injection H2 as <-. reflexivity. }
    subst side.
    assert (Et : top = 10%float) by (vm_compute in H3; congruence).
    assert (El : left = 540%float) by (vm_compute in H4; congruence).
    exists "top", y0, x0, top, left.
    split; [exact H1|]. split; [exact H3|]. split; [exact H4|].
    split; [vm_compute in H1; congruence|].
    split; [rewrite Et, El; reflexivity|].
    split; [apply H7; rewrite El; reflexivity|].
    split; [apply H8; rewrite Et; reflexivity|].
    exact H9.
Defined.

(** ** The popup controller *)

Lemma in_removeElement (p q : nat) (l : list nat) :
  In p (removeElement q l) <-> In p l /\ p <> q.
Proof.
  unfold removeElement. rewrite filter_In, negb_true_iff, Nat.eqb_neq. tauto.
Qed.

Lemma NoDup_removeElement (q : nat) (l : list nat) :
  List.NoDup l -> List.NoDup (removeElement q l).
Proof. unfold removeElement. apply List.NoDup_filter. Qed.

Lemma in_without_index (p q : nat) (l : list nat) (i : nat) :
  l !! i = Some q -> In p l -> p <> q -> In p (take i l ++ drop (S i) l).
Proof.
  revert i. induction l as [|x l IH]; intros i Hi Hin Hne; [destruct Hin|].
  destruct i as [|i]; simpl in *.
  - injection Hi as ->. destruct Hin as [->|Hin]; [congruence | exact Hin].
  - destruct Hin as [->|Hin]; [left; reflexivity | right; eauto].
Qed.

Lemma consistent_initial : consistent initialController.
Proof. split; simpl; [tauto | constructor | tauto]. Qed.

Lemma consistent_hidePopup (c : controller) :
  consistent c -> consistent (hidePopup c) /\ activePopup (hidePopup c) = None.
Proof.
  intros [Ha Hd Hacc]. unfold hidePopup.
  destruct (activePopup c) as [a|] eqn:E; [|split; [split; assumption | exact E]].
  split; [|reflexivity]. split; simpl; [exact Ha | exact Hd |].
  intros p Hp. right. apply in_app_iff.
  destruct (Hacc p Hp) as [(a' & Ha' & <-)|Ht]; [|left; exact Ht].
  right. left. congruence.
Qed.

Lemma consistent_showPopup (tr : nat) (t : term) (c : controller) :
  consistent c -> consistent (showPopup tr t c).
Proof.
  intros Hc. destruct (consistent_hidePopup c Hc) as [[Ha Hd Hacc] Hnone].
  unfold showPopup. split; simpl.
  - intros p Hp. apply in_app_iff in Hp as [Hp|[<-|[]]]; [|lia].
    apply Ha in Hp. lia.
  - apply List.NoDup_app; [exact Hd | |].
    + constructor; [intros [] | constructor].
    + intros p Hp [<-|[]]. apply Ha in Hp. lia.
  - intros p Hp. apply in_app_iff in Hp as [Hp|[<-|[]]].
    + destruct (Hacc p Hp) as [(a & Ha' & _)|Ht]; [congruence | right; exact Ht].
    + left. eexists. split; reflexivity.
Qed.

Lemma consistent_fireRemoval (i : nat) (c : controller) :
  consistent c -> consistent (fireRemoval i c).
Proof.
  intros [Ha Hd Hacc]. unfold fireRemoval.
  destruct (removalTimers c !! i) as [q|] eqn:E; [|split; assumption].
  split; simpl.
  - intros p Hp. apply in_removeElement in Hp as [Hp _]. auto.
  - apply NoDup_removeElement. exact Hd.
  - intros p Hp. apply in_removeElement in Hp as [Hp Hne].
    destruct (Hacc p Hp) as [Hact|Ht]; [left; exact Hact | right].
    eapply in_without_index; eassumption.
Qed.

Lemma consistent_fireFrame (c : controller) :
  consistent c -> consistent (fireFrame c).
Proof.
  intros [Ha Hd Hacc]. unfold fireFrame.
  destruct (frames c); split; assumption.
Qed.

Lemma consistent_step (c : controller) (e : event) :
  consistent c -> consistent (step c e).
Proof.
  destruct e; simpl.
  - apply consistent_showPopup.
  - intros H. apply (consistent_hidePopup c H).
  - apply consistent_fireRemoval.
  - apply consistent_fireFrame.
Qed.

Lemma consistent_run (es : list event) : consistent (run es).
Proof.
  unfold run. generalize consistent_initial. generalize initialController.
  induction es as [|e es IH]; intros c Hc; simpl; [exact Hc|].
  apply IH, consistent_step, Hc.
Qed.

Lemma at_most_one_element (l : list nat) (x : nat) :
  List.NoDup l -> (forall p, In p l -> p = x) -> (length l <= 1)%nat.
Proof.
  intros Hd Hall. destruct l as [|a [|b l]]; simpl; try lia.
  exfalso. inversion Hd as [|? ? Hnot _]; subst. apply Hnot. left.
  rewrite (Hall a), (Hall b); simpl; auto.
Qed.

(** C2, as the claim states it, fails: after two calls of [showPopup] the
    document holds two popup elements; the first awaits its removal. *)
Lemma two_popups_coexist :
  documentPopups
    (run [ShowPopup 7 (plainTerm "1" "API" "d"); ShowPopup 8 (plainTerm "2" "SDK" "d")])
  = [0; 1]%nat
  /\ removalTimers
       (run [ShowPopup 7 (plainTerm "1" "API" "d"); ShowPopup 8 (plainTerm "2" "SDK" "d")])
     = [0]%nat
  /\ ~ (length
          (documentPopups
             (run [ShowPopup 7 (plainTerm "1" "API" "d");
                   ShowPopup 8 (plainTerm "2" "SDK" "d")])) <= 1)%nat.
Proof. split; [reflexivity|]. split; [reflexivity|]. simpl. lia. Qed.

(** C2, amended: after any sequence of [showPopup], [hidePopup] and timer
    events, every popup element in the document is the active popup, of
    which there is at most one, or has been hidden and awaits its deferred
    removal; when no removal is pending the document holds at most one
    popup element. *)
Theorem popups_active_or_awaiting_removal (es : list event) :
  (forall p, In p (documentPopups (run es)) ->
             isActive (run es) p \/ In p (removalTimers (run es)))
  /\ (forall p q, isActive (run es) p -> isActive (run es) q -> p = q)
  /\ (removalTimers (run es) = [] ->
      (length (documentPopups (run es)) <= 1)%nat).
Proof.
  destruct (consistent_run es) as [Ha Hd Hacc]. split; [exact Hacc|]. split.
  - intros p q (a & Ha1 & <-) (b & Hb1 & <-). congruence.
  - intros Hnone. destruct (activePopup (run es)) as [a|] eqn:E.
    + apply (at_most_one_element _ (element a) Hd). intros p Hp.
      destruct (Hacc p Hp) as [(b & Hb & <-)|Ht]; [congruence|].
      rewrite Hnone in Ht. destruct Ht.
    + destruct (documentPopups (run es)) as [|p l] eqn:El; simpl; [lia|].
      destruct (Hacc p) as [(b & Hb & _)|Ht]; [left; reflexivity | congruence |].
      rewrite Hnone in Ht. destruct Ht.
Qed.

Lemma popups_active_or_awaiting_removal_witness :
  (length
     (documentPopups
        (run [ShowPopup 7 (plainTerm "1" "API" "d");
              ShowPopup 8 (plainTerm "2" "SDK" "d"); RemovalTimer 0])) <= 1)%nat.
Proof.
  apply (popups_active_or_awaiting_removal
           [ShowPopup 7 (plainTerm "1" "API" "d");
            ShowPopup 8 (plainTerm "2" "SDK" "d"); RemovalTimer 0]).
  reflexivity.
Defined.

(** ** Scanning the document *)

#[local] Arguments String.append : simpl nomatch.

Section ScanProperties.

Variable parseFragment : string -> option (list node).

Lemma processTextNode_keeps (g g' : glossary) (x : nat * string) :
  processTextNode parseFragment g x = Some g' ->
  terms g' = terms g /\ opts g' = opts g.
Proof.
  destruct x as [i d]. unfold processTextNode.
  destruct (bool_decide (i ∈ processedNodes g)).
  { intros [= <-]. split; reflexivity. }
  destruct (matchTerms (opts g) (terms g) d false) as [[content [|]]|];
    [|intros [= <-]; split; reflexivity | discriminate].
  destruct (parseFragment content); [|discriminate].
  destruct (threadNodes relabel _ _). intros [= <-]. split; reflexivity.
Qed.

Lemma processAll_keeps (xs : list (nat * string)) :
  forall g g',
    processAll parseFragment xs g = Some g' ->
    terms g' = terms g /\ opts g' = opts g.
Proof.
  induction xs as [|x xs IH]; intros g g'; simpl.
  - intros [= <-]. split; reflexivity.
  - destruct (processTextNode parseFragment g x) as [g1|] eqn:E; [|discriminate].
    intros H. apply IH in H as [H1 H2].
    apply processTextNode_keeps in E as [E1 E2]. split; congruence.
Qed.

(** [updateTerms] stores the indexed list. *)
Lemma updateTerms_terms (newTerms : list term) (g g' : glossary) :
  updateTerms parseFragment newTerms g = Some g' ->
  terms g' = indexTerms newTerms.
Proof.
  unfold updateTerms, refresh, processExistingContent. intros H.
  apply processAll_keeps in H as [H _]. exact H.
Qed.

End ScanProperties.

Lemma flat_map_nil {A B : Type} (f : A -> list B) (l : list A) :
  (forall a, In a l -> f a = []) -> flat_map f l = [].
Proof.
  induction l as [|a l IH]; intros H; simpl; [reflexivity|].
  rewrite (H a) by (left; reflexivity). apply IH. intros b Hb. apply H.
  right. exact Hb.
Qed.

Lemma acceptNode_excluded (g : glossary) (i : nat) (d : string) :
  acceptNode g true i d = false.
Proof. unfold acceptNode. destruct (bool_decide _); reflexivity. Qed.

(** Below an excluded element the walker returns nothing. *)
Lemma acceptedBelow_excluded (g : glossary) (n : node) :
  acceptedBelow g true n = [].
Proof.
  induction n as [i d|tag attrs cs IH] using node_induction; [reflexivity|].
  cbn [acceptedBelow]. unfold shouldExcludeElement. cbn [orb].
  apply flat_map_nil. intros c Hc. destruct c as [i d|tag' attrs' cs'].
  - rewrite acceptNode_excluded. reflexivity.
  - rewrite List.Forall_forall in IH. apply (IH _ Hc).
Qed.

Lemma hasAttribute_setAttribute (name value : string)
    (attrs : list (string * string)) :
  hasAttribute name (setAttribute name value attrs) = true.
Proof.
  unfold hasAttribute.
  induction attrs as [|[n v] attrs IH]; simpl.
  - rewrite String.eqb_refl. reflexivity.
  - destruct (String.eqb n name) eqn:E; simpl; rewrite E; [reflexivity | exact IH].
Qed.

Lemma replaceTextNode_element (i : nat) (frag : list node) (tag : string)
    (attrs : list (string * string)) (cs : list node) :
  exists attrs' cs',
    replaceTextNode i frag (Element tag attrs cs) = Element tag attrs' cs'.
Proof.
  cbn [replaceTextNode]. destruct (existsb (isTextNode i) cs);
    eexists; eexists; reflexivity.
Qed.

Lemma existsb_isTextNode_false (i : nat) (cs : list node) (j : nat) (d : string) :
  existsb (isTextNode i) cs = false -> In (TextNode j d) cs -> j <> i.
Proof.
  intros H Hin Heq. subst j.
  assert (existsb (isTextNode i) cs = true); [|congruence].
  apply existsb_exists. exists (TextNode i d). split; [exact Hin|].
  simpl. apply Nat.eqb_refl.
Qed.

Section Rescan.

(** Two states of a scan: the later one has the text node [i] in the
    processed set, and the same options. *)
Variables (g g' : glossary) (i : nat).
Hypothesis same_opts : opts g' = opts g.
Hypothesis more_processed : processedNodes g' = {[i]} ∪ processedNodes g.

Lemma acceptNode_later (excluded : bool) (j : nat) (d : string) :
  acceptNode g' excluded j d = true ->
  acceptNode g excluded j d = true /\ j <> i.
Proof.
  unfold acceptNode. rewrite more_processed.
  case_bool_decide as Hn; [discriminate|].
  case_bool_decide as Hj.
  { exfalso. apply Hn. apply elem_of_union. right. exact Hj. }
  intros H. split; [exact H|]. intros ->. apply Hn.
  apply elem_of_union. left. apply elem_of_singleton. reflexivity.
Qed.

(** With the processed set grown, the walker returns no new node. *)
Lemma acceptedBelow_later (n : node) :
  forall above x,
    In x (acceptedBelow g' above n) ->
    In x (acceptedBelow g above n) /\ fst x <> i.
Proof.
  induction n as [j d|tag attrs cs IH] using node_induction;
    intros above x; [intros []|].
  cbn [acceptedBelow]. rewrite same_opts.
  rewrite !in_flat_map. intros (c & Hc & Hx).
  rewrite List.Forall_forall in IH.
  destruct c as [j d|tag' attrs' cs'].
  - destruct (acceptNode g' _ j d) eqn:E; [|destruct Hx].
    apply acceptNode_later in E as [E Hne].
    destruct Hx as [<-|[]]. split; [|exact Hne].
    exists (TextNode j d). split; [exact Hc|]. rewrite E. left. reflexivity.
  - apply (IH _ Hc) in Hx as [Hx Hne]. split; [|exact Hne].
    exists (Element tag' attrs' cs'). split; assumption.
Qed.

Hypothesis guarded : In processedGuard (excludeSelectors (opts g)).

(** After the text node [i] has given way to a fragment under a parent
    flagged as processed, the walker returns no new node either. *)
Lemma acceptedBelow_replaced (frag : list node) (n : node) :
  forall above x,
    In x (acceptedBelow g' above (replaceTextNode i frag n)) ->
    In x (acceptedBelow g above n) /\ fst x <> i.
Proof.
  induction n as [j d|tag attrs cs IH] using node_induction;
    intros above x; [intros []|].
  cbn [replaceTextNode].
  destruct (existsb (isTextNode i) cs) eqn:Echild.
  - cbn [acceptedBelow].
    assert (Hex : shouldExcludeElement (opts g') above tag
                    (setAttribute "data-glossary-processed" "true" attrs)
                  = true).
    { unfold shouldExcludeElement. apply orb_true_iff. right.
      apply existsb_exists. exists processedGuard. rewrite same_opts.
      split; [exact guarded|]. apply hasAttribute_setAttribute. }
    rewrite Hex, flat_map_nil; [intros []|].
    intros c _. destruct c as [j d|tag' attrs' cs'].
    + rewrite acceptNode_excluded. reflexivity.
    + apply acceptedBelow_excluded.
  - cbn [acceptedBelow]. rewrite same_opts.
    rewrite !in_flat_map. intros (c' & Hc' & Hx).
    apply in_map_iff in Hc' as (c & <- & Hc).
    rewrite List.Forall_forall in IH.
    destruct c as [j d|tag' attrs' cs'].
    + cbn [replaceTextNode] in Hx.
      destruct (acceptNode g' _ j d) eqn:E; [|destruct Hx].
      apply acceptNode_later in E as [E Hne].
      destruct Hx as [<-|[]]. split; [|exact Hne].
      exists (TextNode j d). split; [exact Hc|]. rewrite E. left. reflexivity.
    + destruct (replaceTextNode_element i frag tag' attrs' cs')
        as (a2 & c2 & Hr).
      assert (Hx' : In x (acceptedBelow g'
                            (shouldExcludeElement (opts g) above tag attrs)
                            (replaceTextNode i frag (Element tag' attrs' cs')))).
      { rewrite Hr in *. exact Hx. }
      apply (IH _ Hc) in Hx' as [Hx' Hne]. split; [|exact Hne].
      exists (Element tag' attrs' cs'). split; assumption.
Qed.

End Rescan.

Lemma accepted_not_processed (g : glossary) (n : node) :
  forall above x, In x (acceptedBelow g above n) -> fst x ∉ processedNodes g.
Proof.
  induction n as [j d|tag attrs cs IH] using node_induction;
    intros above x; [intros []|].
  cbn [acceptedBelow]. rewrite in_flat_map. intros (c & Hc & Hx).
  rewrite List.Forall_forall in IH. destruct c as [j d|tag' attrs' cs'].
  - unfold acceptNode in Hx. case_bool_decide as Hn; [destruct Hx|].
    match type of Hx with
    | In _ (if ?b then _ else _) => destruct b; [|destruct Hx]
    end.
    destruct Hx as [<-|[]]. exact Hn.
  - apply (IH _ Hc) in Hx. exact Hx.
Qed.

Section Idempotence.

Variable parseFragment : string -> option (list node).

(** One step of the scan leaves the walker nothing it did not already
    return, and not the node just processed. *)
Lemma processTextNode_shrinks (g g' : glossary) (i : nat) (d : string) :
  In processedGuard (excludeSelectors (opts g)) ->
  processTextNode parseFragment g (i, d) = Some g' ->
  forall x, In x (acceptedBelow g' false (body g')) ->
            In x (acceptedBelow g false (body g)) /\ fst x <> i.
Proof.
  intros Hguard. unfold processTextNode.
  case_bool_decide as Hi.
  { intros [= <-] x Hx. split; [exact Hx|].
    apply accepted_not_processed in Hx. intros Heq. apply Hx.
    rewrite Heq. exact Hi. }
  destruct (matchTerms (opts g) (terms g) d false) as [[content [|]]|];
    [| |discriminate].
  - destruct (parseFragment content) as [parsed|]; [|discriminate].
    destruct (threadNodes relabel _ _) as [fragment k].
    intros [= <-] x. cbn [body withScan].
    apply acceptedBelow_replaced; try reflexivity. exact Hguard.
  - intros [= <-] x. cbn [body withScan].
    apply acceptedBelow_later; reflexivity.
Qed.

Lemma processAll_exhausts (xs : list (nat * string)) :
  forall g g1,
    In processedGuard (excludeSelectors (opts g)) ->
    processAll parseFragment xs g = Some g1 ->
    incl (acceptedBelow g false (body g)) xs ->
    acceptedBelow g1 false (body g1) = [].
Proof.
  induction xs as [|[i d] xs IH]; intros g g1 Hguard; cbn [processAll].
  - intros [= <-] Hincl.
    destruct (acceptedBelow g false (body g)) as [|x l]; [reflexivity|].
    exfalso. apply (Hincl x). left. reflexivity.
  - destruct (processTextNode parseFragment g (i, d)) as [g'|] eqn:E;
      [|discriminate].
    intros Hall Hincl. apply (IH g' g1); [| exact Hall |].
    + destruct (processTextNode_keeps _ _ _ _ E) as [_ Ho]. rewrite Ho.
      exact Hguard.
    + intros x Hx.
      apply (processTextNode_shrinks g g' i d Hguard E) in Hx as [Hx Hne].
      destruct (Hincl x Hx) as [<-|Hin]; [|exact Hin].
      exfalso. apply Hne. reflexivity.
Qed.

(** X27: when the exclusion list holds the selector of the processed
    flag, as the default list does, a scan leaves the walker no text node
    to return, so a second scan of the unchanged document ends in the same
    state: no marker is added. *)
Theorem second_scan_changes_nothing (g g1 : glossary) :
  In processedGuard (excludeSelectors (opts g)) ->
  processExistingContent parseFragment g = Some g1 ->
  acceptedBelow g1 false (body g1) = []
  /\ processExistingContent parseFragment g1 = Some g1
  /\ (forall g2, processExistingContent parseFragment g1 = Some g2 ->
                 countMarkers (body g2) = countMarkers (body g1)).
Proof.
  intros Hguard Hscan.
  assert (Hnil : acceptedBelow g1 false (body g1) = []).
  { unfold processExistingContent in Hscan.
    apply (processAll_exhausts _ g g1 Hguard Hscan). apply incl_refl. }
  assert (Hsame : processExistingContent parseFragment g1 = Some g1).
  { unfold processExistingContent. rewrite Hnil. reflexivity. }
  split; [exact Hnil|]. split; [exact Hsame|].
  intros g2 H2. rewrite Hsame in H2. injection H2 as <-. reflexivity.
Qed.

End Idempotence.

Lemma second_scan_changes_nothing_witness :
  processExistingContent miniParse
    (pageOf [apiTerm] defaultOptions (paragraph "Use the API to connect.") 2)
  = Some scannedApiPage
  /\ processExistingContent miniParse scannedApiPage = Some scannedApiPage
  /\ countMarkers (body scannedApiPage) = 1%nat.
Proof.
  assert (E : processExistingContent miniParse
                (pageOf [apiTerm] defaultOptions
                   (paragraph "Use the API to connect.") 2)
              = Some scannedApiPage) by (vm_compute; reflexivity).
  split; [exact E|]. split; [|reflexivity].
  apply (second_scan_changes_nothing miniParse
           (pageOf [apiTerm] defaultOptions
              (paragraph "Use the API to connect.") 2) scannedApiPage);
    [simpl; tauto | exact E].
Defined.

(** C4: with the exclusion list [nav], which leaves out the selectors of
    the widget's own markup, the second scan of the unchanged document
    accepts the text node inside the marker and wraps it in a second
    marker: one marker after the first scan, two after the second. *)
Lemma rescan_without_guard_adds_marker :
  option_map (fun g1 => countMarkers (body g1))
    (processExistingContent miniParse
       (pageOf [apiTerm] (withExclusions [SelTag "nav"] JUndefined)
          (paragraph "Use the API") 2))
  = Some 1%nat
  /\ option_map (fun g2 => countMarkers (body g2))
       (scanTwice miniParse
          (pageOf [apiTerm] (withExclusions [SelTag "nav"] JUndefined)
             (paragraph "Use the API") 2))
     = Some 2%nat
  /\ miniParse ("Use the " +:+ placeholder apiTerm "API")
     = Some [TextNode 0 "Use the ";
             Element "span" [("class", "glossary-term-placeholder");
                             ("data-term-id", "1")] [TextNode 0 "API"]]
  /\ miniParse (placeholder apiTerm "API")
     = Some [Element "span" [("class", "glossary-term-placeholder");
                             ("data-term-id", "1")] [TextNode 0 "API"]].
Proof. vm_compute. repeat split; reflexivity. Qed.

(** The scenario of the specification: one marker around "API", labelled
    with the matched text and the definition. *)
Example scan_scenario :
  option_map body
    (processExistingContent miniParse
       (pageOf [apiTerm] defaultOptions (paragraph "Use the API to connect.") 2))
  = Some (Element "body" []
            [Element "p" [("data-glossary-processed", "true")]
               [TextNode 2 "Use the ";
                Element "span"
                  [("class", "glossary-term"); ("tabindex", "0");
                   ("role", "button");
                   ("aria-describedby", "glossary-popup-1");
                   ("aria-label", "API: Application Programming Interface");
                   ("data-term-id", "1")]
                  [TextNode 3 "API"];
                TextNode 4 " to connect."]]).
Proof. vm_compute. reflexivity. Qed.

(** ** Destroying *)

Lemma append_assoc (a b c : string) : (a +:+ b) +:+ c = a +:+ (b +:+ c).
Proof. induction a as [|x a IH]; simpl; [reflexivity | rewrite IH; reflexivity]. Qed.

Lemma textOf_cons (c : node) (cs : list node) :
  textOf (c :: cs) = textContent c +:+ textOf cs.
Proof. reflexivity. Qed.

Lemma textContent_element (tag : string) (attrs : list (string * string))
    (cs : list node) :
  textContent (Element tag attrs cs) = textOf cs.
Proof. reflexivity. Qed.

(** [normalize] keeps the text. *)
Lemma textOf_mergeText (cs : list node) : textOf (mergeText cs) = textOf cs.
Proof.
  induction cs as [|c cs IH]; [reflexivity|].
  destruct c as [i d|tag attrs cs']; cbn [mergeText].
  - destruct (String.eqb_spec d EmptyString) as [->|_].
    + rewrite IH. reflexivity.
    + rewrite textOf_cons, <- IH.
      destruct (mergeText cs) as [|[j d'|tag attrs cs'] rest]; try reflexivity.
      rewrite !textOf_cons. cbn [textContent]. apply append_assoc.
  - rewrite !textOf_cons, IH. reflexivity.
Qed.

(** Unwrapping the markers keeps the text of every node. *)
Lemma unwrapMarkers_text (n : node) :
  forall norm k, textContent (fst (unwrapMarkers norm k n)) = textContent n.
Proof.
  induction n as [i d|tag attrs cs IH] using node_induction; intros norm k;
    [reflexivity|].
  cbn [unwrapMarkers].
  set (norm' := norm || existsb isMarker cs). clearbody norm'.
  set (f := fun k c => if isMarker c then (TextNode k (textContent c), S k)
                       else unwrapMarkers norm' k c).
  assert (Hgo : forall k, textOf (fst (threadNodes f k cs)) = textOf cs).
  { clear k. induction IH as [|c rest Hc _ IHrest]; intros k; [reflexivity|].
    cbn [threadNodes].
    assert (Hf : textContent (fst (f k c)) = textContent c).
    { unfold f. destruct (isMarker c); [reflexivity | apply Hc]. }
    destruct (f k c) as [c' k1]. specialize (IHrest k1).
    destruct (threadNodes f k1 rest) as [rest' k2]. cbn [fst] in *.
    rewrite !textOf_cons, Hf, IHrest. reflexivity. }
  specialize (Hgo k). destruct (threadNodes f k cs) as [cs' k'].
  cbn [fst] in *. rewrite textContent_element.
  destruct norm'; [rewrite textOf_mergeText|]; exact Hgo.
Qed.

(** [destroy] leaves the text of the page as the scan made it. *)
Lemma destroy_keeps_text (g : glossary) :
  textContent (body (destroy g)) = textContent (body g).
Proof.
  unfold destroy.
  pose proof (unwrapMarkers_text (body g) false (nextNode g)) as H.
  destruct (unwrapMarkers false (nextNode g) (body g)) as [b k].
  exact H.
Qed.

(** C3: the text of a node goes through the markup parser unescaped.  A
    paragraph reading "Use the API &amp; SDK" reads "Use the API & SDK"
    after the scan, and after [destroy]. *)
Theorem scan_then_destroy_changes_text :
  textContent (paragraph "Use the API &amp; SDK") = "Use the API &amp; SDK"
  /\ matchTerms defaultOptions (indexTerms [apiTerm]) "Use the API &amp; SDK" false
     = Some ("Use the " +:+ placeholder apiTerm "API" +:+ " &amp; SDK", true)
  /\ miniParse ("Use the " +:+ placeholder apiTerm "API" +:+ " &amp; SDK")
     = Some [TextNode 0 "Use the ";
             Element "span" [("class", "glossary-term-placeholder");
                             ("data-term-id", "1")] [TextNode 0 "API"];
             TextNode 0 " & SDK"]
  /\ option_map (fun g1 => textContent (body g1))
       (processExistingContent miniParse
          (pageOf [apiTerm] defaultOptions (paragraph "Use the API &amp; SDK") 2))
     = Some "Use the API & SDK"
  /\ option_map (fun g1 => body (destroy g1))
       (processExistingContent miniParse
          (pageOf [apiTerm] defaultOptions (paragraph "Use the API &amp; SDK") 2))
     = Some (Element "body" []
               [Element "p" [("data-glossary-processed", "true")]
                  [TextNode 2 "Use the API & SDK"]])
  /\ "Use the API & SDK" <> "Use the API &amp; SDK".
Proof. vm_compute. repeat split; try reflexivity. discriminate. Qed.

(** On text without markup characters the round trip is exact. *)
Example scan_then_destroy_plain_text :
  option_map (fun g1 => textContent (body (destroy g1)))
    (processExistingContent miniParse
       (pageOf [apiTerm] defaultOptions (paragraph "Use the API to connect.") 2))
  = Some "Use the API to connect.".
Proof. vm_compute. reflexivity. Qed.

(** ** The term index *)

Lemma isEnabled_spec (t : term) :
  isEnabled t = true <-> enabled t <> JBool false.
Proof.
  unfold isEnabled. destruct (enabled t) as [| |[|]| |]; simpl; split;
    intros H; try reflexivity; try discriminate; congruence.
Qed.

Lemma insertSorted_perm {A : Type} (cmp : A -> A -> Z) (x : A) (l : list A) :
  Permutation (insertSorted cmp x l) (x :: l).
Proof.
  induction l as [|y l IH]; simpl; [reflexivity|].
  destruct (cmp x y <=? 0)%Z; [reflexivity|].
  rewrite IH. apply perm_swap.
Qed.

Lemma Array_sort_perm {A : Type} (cmp : A -> A -> Z) (l : list A) :
  Permutation (Array_sort cmp l) l.
Proof.
  induction l as [|x l IH]; simpl; [reflexivity|].
  rewrite insertSorted_perm, IH. reflexivity.
Qed.

Lemma insertSorted_sorted (x : term) (l : list term) :
  StronglySorted longerFirst l ->
  StronglySorted longerFirst (insertSorted byLengthDesc x l).
Proof.
  induction l as [|y l IH]; intros Hs; simpl.
  - constructor; constructor.
  - inversion Hs as [|? ? Hl Hy]; subst.
    destruct (byLengthDesc x y <=? 0)%Z eqn:E.
    + apply Z.leb_le in E. unfold byLengthDesc in E.
      constructor; [exact Hs|]. constructor; [unfold longerFirst; lia|].
      eapply List.Forall_impl; [|exact Hy]. unfold longerFirst. intros z Hz. lia.
    + apply Z.leb_gt in E. unfold byLengthDesc in E.
      constructor; [apply IH; exact Hl|].
      eapply Permutation_Forall; [symmetry; apply insertSorted_perm|].
      constructor; [unfold longerFirst; lia | exact Hy].
Qed.

Lemma Array_sort_sorted (l : list term) :
  StronglySorted longerFirst (Array_sort byLengthDesc l).
Proof.
  induction l as [|x l IH]; simpl; [constructor|].
  apply insertSorted_sorted, IH.
Qed.

(** Insertion does not reorder the terms of one length. *)
Lemma insertSorted_stable (n : nat) (x : term) (l : list term) :
  List.filter (lengthIs n) (insertSorted byLengthDesc x l)
  = List.filter (lengthIs n) (x :: l).
Proof.
  induction l as [|y l IH]; [reflexivity|].
  cbn [insertSorted].
  destruct (byLengthDesc x y <=? 0)%Z eqn:E; [reflexivity|].
  apply Z.leb_gt in E. unfold byLengthDesc in E.
  cbn [List.filter] in *. rewrite IH.
  destruct (lengthIs n x) eqn:Ex; [|reflexivity].
  assert (Ey : lengthIs n y = false).
  { unfold lengthIs in *. apply Nat.eqb_eq in Ex. apply Nat.eqb_neq. lia. }
  rewrite Ey. reflexivity.
Qed.

Lemma Array_sort_stable (n : nat) (l : list term) :
  List.filter (lengthIs n) (Array_sort byLengthDesc l)
  = List.filter (lengthIs n) l.
Proof.
  induction l as [|x l IH]; [reflexivity|].
  cbn [Array_sort fold_right]. fold (Array_sort byLengthDesc l).
  rewrite insertSorted_stable. cbn [List.filter]. rewrite IH. reflexivity.
Qed.

(** C7: the list stored by [loadTerms] and by [updateTerms] holds exactly
    the terms whose [enabled] is not [false], longer words first, and the
    terms of one word length in the order of the input.  The length of a
    word is its [length], the number of its UTF-16 code units. *)
Theorem indexed_terms_order (input : list term) :
  loadTerms (Some {| ok := true; json := Some (Some input) |})
    = Some (indexTerms input)
  /\ (forall parseFragment g g',
        updateTerms parseFragment input g = Some g' ->
        terms g' = indexTerms input)
  /\ Permutation (indexTerms input) (List.filter isEnabled input)
  /\ (forall t, In t (indexTerms input) <->
                In t input /\ enabled t <> JBool false)
  /\ StronglySorted longerFirst (indexTerms input)
  /\ (forall n, List.filter (lengthIs n) (indexTerms input)
                = List.filter (lengthIs n) (List.filter isEnabled input)).
Proof.
  split; [reflexivity|]. split; [intros p g g'; apply updateTerms_terms|].
  assert (Hperm : Permutation (indexTerms input) (List.filter isEnabled input))
    by apply Array_sort_perm.
  split; [exact Hperm|]. split; [|split].
  - intros t. rewrite <- isEnabled_spec, <- filter_In. split; intros H.
    + eapply Permutation_in; [exact Hperm | exact H].
    + eapply Permutation_in; [symmetry; exact Hperm | exact H].
  - apply Array_sort_sorted.
  - intros n. apply Array_sort_stable.
Qed.

Lemma indexed_terms_order_witness :
  updateTerms miniParse sampleTerms
    (pageOf [apiTerm] defaultOptions (paragraph "Nothing to mark here.") 2)
  = Some updatedPage
  /\ terms updatedPage = indexTerms sampleTerms
  /\ map word (indexTerms sampleTerms) = ["abcd"; "wxyz"; "ab"; "cd"].
Proof.
  assert (E : updateTerms miniParse sampleTerms
                (pageOf [apiTerm] defaultOptions
                   (paragraph "Nothing to mark here.") 2)
              = Some updatedPage) by (vm_compute; reflexivity).
  split; [exact E|]. split; [|reflexivity].
  destruct (indexed_terms_order sampleTerms) as (_ & H & _).
  exact (H miniParse _ _ E).
Defined.

(** The order is by code units, not by bytes: a word of two accented
    letters is as long as "ab" and comes after it, as in the input. *)
Example accented_words_count_code_units :
  jsLength (eAcute +:+ eAcute) = 2%nat
  /\ String.length (eAcute +:+ eAcute) = 4%nat
  /\ map term_id (indexTerms accentedTerms) = ["3"; "1"; "2"].
Proof. repeat split; reflexivity. Qed.

(** ** Popup markup *)

(** The escaping leaves a double quote as it is, wherever it stands. *)
Lemma escapeHtml_keeps_quote (n : nat) :
  forall s1 s2,
    (String.length s1 <= n)%nat ->
    escapeHtml (s1 +:+ dq +:+ s2) = escapeHtml s1 +:+ dq +:+ escapeHtml s2.
Proof.
  induction n as [|n IH]; intros s1 s2 Hlen.
  - destruct s1; [reflexivity | cbn [String.length] in Hlen; lia].
  - destruct s1 as [|c s1]; [reflexivity|].
    cbn [String.length] in Hlen.
    change (String c s1 +:+ dq +:+ s2) with (String c (s1 +:+ dq +:+ s2)).
    cbn [escapeHtml].
    destruct (Ascii.eqb c "&").
    { rewrite IH by lia. rewrite append_assoc. reflexivity. }
    destruct (Ascii.eqb c "<").
    { rewrite IH by lia. rewrite append_assoc. reflexivity. }
    destruct (Ascii.eqb c ">").
    { rewrite IH by lia. rewrite append_assoc. reflexivity. }
    destruct (Ascii.eqb c "194").
    + destruct s1 as [|d s1].
      * reflexivity.
      * change (String d s1 +:+ dq +:+ s2) with (String d (s1 +:+ dq +:+ s2)).
        destruct (Ascii.eqb_spec d "160") as [->|Hd].
        -- cbn [String.length] in Hlen. rewrite IH by lia. rewrite append_assoc. reflexivity.
        -- assert (Hrest : forall r,
                     match String d r with
                     | String "160"%char rest' => "&nbsp;" +:+ escapeHtml rest'
                     | _ => String c (escapeHtml (String d r))
                     end = String c (escapeHtml (String d r))).
           { intros r. revert Hd. clear. each_char d. intros H. congruence. }
           rewrite !Hrest.
           change (String d (s1 +:+ dq +:+ s2)) with (String d s1 +:+ dq +:+ s2).
           rewrite IH by lia. reflexivity.
    + rewrite IH by lia. reflexivity.
Qed.

(** C10: the image address of a term is escaped for text, not for an
    attribute value: a double quote in it ends the [src] attribute and the
    rest of the address is read as further attributes of the element. *)
Theorem image_address_breaks_out_of_attribute :
  escapeHtml (default EmptyString (image quotedImageTerm))
    = default EmptyString (image quotedImageTerm)
  /\ option_map (fun p => option_map attributesOf (firstByTag "img" p))
       (createPopup quotedImageTerm)
     = Some (Some [("src", "a"); ("onerror", "alert(1)"); ("alt", "API");
                   ("class", "glossary-popup-image"); ("loading", "lazy")])
  /\ Some "a" <> image quotedImageTerm
  /\ option_map (fun p => option_map textContent
                            (firstByClass "glossary-popup-word" p))
       (createPopup quotedImageTerm)
     = Some (Some "API")
  /\ option_map (fun p => option_map textContent
                            (firstByClass "glossary-popup-definition" p))
       (createPopup quotedImageTerm)
     = Some (Some "Application Programming Interface").
Proof. vm_compute. repeat split; try reflexivity. discriminate. Qed.

(** In text position the escaping does its work: markup characters in the
    word and the definition are rendered as they are. *)
Example word_and_definition_rendered_literally :
  option_map (fun p => (option_map textContent
                          (firstByClass "glossary-popup-word" p),
                        option_map textContent
                          (firstByClass "glossary-popup-definition" p)))
    (createPopup (plainTerm "1" "<b>R&D</b>" "a < b && c > d"))
  = Some (Some "<b>R&D</b>", Some "a < b && c > d").
Proof. vm_compute. reflexivity. Qed.

(** *** Escaping in text position *)

Lemma tokenize_amp (y : string) :
  tokenize SData 0 ("&amp;" +:+ y)
  = option_map (cons (TChar "&")) (tokenize SData 0 y).
Proof. reflexivity. Qed.

Lemma tokenize_lt (y : string) :
  tokenize SData 0 ("&lt;" +:+ y)
  = option_map (cons (TChar "<")) (tokenize SData 0 y).
Proof. reflexivity. Qed.

Lemma tokenize_gt (y : string) :
  tokenize SData 0 ("&gt;" +:+ y)
  = option_map (cons (TChar ">")) (tokenize SData 0 y).
Proof. reflexivity. Qed.

Lemma tokenize_nbsp (y : string) :
  tokenize SData 0 ("&nbsp;" +:+ y)
  = option_map (app [TChar "194"; TChar "160"]) (tokenize SData 0 y).
Proof. reflexivity. Qed.

Lemma tokenize_plain (c : ascii) (y : string) :
  Ascii.eqb c "<" = false -> Ascii.eqb c "&" = false ->
  rewrittenByParser c = false ->
  tokenize SData 0 (String c y)
  = option_map (cons (TChar c)) (tokenize SData 0 y).
Proof. intros H1 H2 H3. cbn [tokenize]. rewrite H1, H2, H3. reflexivity. Qed.

Lemma option_map_app_app {A : Type} (l1 l2 : list A) (x : option (list A)) :
  option_map (app l1) (option_map (app l2) x) = option_map (app (l1 ++ l2)) x.
Proof. destruct x; simpl; [rewrite app_assoc|]; reflexivity. Qed.

(** The tokenizer reads escaped text back as the characters of the text. *)
Lemma tokenize_escaped (n : nat) :
  forall s y,
    (String.length s <= n)%nat ->
    cleanText s = true ->
    tokenize SData 0 (escapeHtml s +:+ y)
    = option_map (app (map TChar (list_ascii_of_string s)))
                 (tokenize SData 0 y).
Proof.
  induction n as [|n IH]; intros s y Hlen Hclean.
  { destruct s; [|cbn [String.length] in Hlen; lia].
    change (escapeHtml EmptyString +:+ y) with y.
    destruct (tokenize SData 0 y); reflexivity. }
  destruct s as [|c s].
  { change (escapeHtml EmptyString +:+ y) with y.
    destruct (tokenize SData 0 y); reflexivity. }
  cbn [String.length] in Hlen. cbn [cleanText] in Hclean.
  apply andb_true_iff in Hclean as [Hc Hs]. apply negb_true_iff in Hc.
  cbn [escapeHtml list_ascii_of_string map].
  destruct (Ascii.eqb_spec c "&") as [->|Hamp].
  { rewrite append_assoc, tokenize_amp, IH by (lia || assumption).
    apply (option_map_app_app [TChar "&"%char]). }
  destruct (Ascii.eqb_spec c "<") as [->|Hlt].
  { rewrite append_assoc, tokenize_lt, IH by (lia || assumption).
    apply (option_map_app_app [TChar "<"%char]). }
  destruct (Ascii.eqb_spec c ">") as [->|Hgt].
  { rewrite append_assoc, tokenize_gt, IH by (lia || assumption).
    apply (option_map_app_app [TChar ">"%char]). }
  assert (Hplain : forall r,
             tokenize SData 0 (String c r)
             = option_map (cons (TChar c)) (tokenize SData 0 r)).
  { intros r. apply tokenize_plain; [| |exact Hc];
      apply Ascii.eqb_neq; assumption. }
  assert (Hstep : tokenize SData 0 (String c (escapeHtml s) +:+ y)
                  = option_map (app (TChar c :: map TChar (list_ascii_of_string s)))
                               (tokenize SData 0 y)).
  { change (String c (escapeHtml s) +:+ y) with (String c (escapeHtml s +:+ y)).
    rewrite Hplain, IH by (lia || assumption).
    apply (option_map_app_app [TChar c]). }
  destruct (Ascii.eqb_spec c "194") as [->|H194]; [|exact Hstep].
  destruct s as [|d s]; [exact Hstep|].
  destruct (Ascii.eqb_spec d "160") as [->|H160].
  - cbn [String.length] in Hlen. cbn [cleanText] in Hs.
    apply andb_true_iff in Hs as [_ Hs].
    cbn [list_ascii_of_string map].
    rewrite append_assoc, tokenize_nbsp, IH by (lia || assumption).
    apply (option_map_app_app [TChar "194"%char; TChar "160"%char]).
  - assert (Hother : match String d s with
                     | String "160"%char rest' => "&nbsp;" +:+ escapeHtml rest'
                     | _ => String "194"%char (escapeHtml (String d s))
                     end = String "194"%char (escapeHtml (String d s))).
    { revert H160. clear. each_char d. intros H. congruence. }
    rewrite Hother. exact Hstep.
Qed.

Lemma append_nil_r (s : string) : s +:+ EmptyString = s.
Proof. induction s as [|c s IH]; simpl; [|rewrite IH]; reflexivity. Qed.

Lemma buildTree_text (l : list ascii) :
  forall i d cur,
    buildTree (map TChar l) [] (TextNode i d :: cur)
    = Some (rev (TextNode i (d +:+ string_of_list_ascii l) :: cur)).
Proof.
  induction l as [|c l IH]; intros i d cur; cbn [map buildTree].
  - cbn [string_of_list_ascii closeAll]. rewrite append_nil_r. reflexivity.
  - cbn [appendChar]. rewrite IH. unfold snoc. rewrite append_assoc.
    reflexivity.
Qed.

(** X18: escaped text assigned to [innerHTML] is read back as the text:
    in text position [escapeHtml] renders every character as it is, for
    every text free of NUL and carriage return, which the parser rewrites. *)
Lemma escaped_text_reads_back (s : string) :
  cleanText s = true ->
  option_map textOf (miniParse (escapeHtml s)) = Some s.
Proof.
  intros Hclean. unfold miniParse.
  pose proof (tokenize_escaped (String.length s) s EmptyString
                (Nat.le_refl _) Hclean) as H.
  rewrite append_nil_r in H. rewrite H. cbn [tokenize option_map]. rewrite app_nil_r.
  destruct s as [|c s]; [reflexivity|].
  cbn [list_ascii_of_string map buildTree appendChar].
  rewrite buildTree_text. cbn [option_map rev app textOf map fold_right textContent].
  rewrite string_of_list_ascii_of_string.
  change (String c EmptyString +:+ s) with (String c s).
  apply f_equal, append_nil_r.
Qed.

Lemma escaped_text_reads_back_witness :
  option_map textOf (miniParse (escapeHtml "<b>R&D</b> a < b && c > d"))
  = Some "<b>R&D</b> a < b && c > d".
Proof. apply (escaped_text_reads_back "<b>R&D</b> a < b && c > d"). reflexivity. Defined.

(** * Further properties *)

(** ** Matches of one pass *)

Lemma inOrder_weaken (ms : list (nat * nat)) (n m : nat) :
  (m <= n)%nat -> inOrder n ms -> inOrder m ms.
Proof.
  destruct ms as [|[p l] ms]; [intros; exact I|].
  cbn [inOrder]. intros Hle [H1 H2]. split; [lia | exact H2].
Qed.

Lemma matchAtoms_bound (ic : bool) (a : list atom) :
  forall prev s l, matchAtoms ic a prev s = Some l -> (l <= String.length s)%nat.
Proof.
  induction a as [|[|c] a IH]; intros prev s l; cbn [matchAtoms].
  - intros [= <-]. lia.
  - destruct (isBoundary prev s); [apply IH | discriminate].
  - destruct s as [|d s]; [discriminate|].
    destruct (charMatches ic c d); [|discriminate].
    destruct (matchAtoms ic a (Some d) s) as [l'|] eqn:E; [|discriminate].
    intros [= <-]. apply IH in E. cbn [String.length]. lia.
Qed.

Lemma execAll_inOrder (re : RegExp) (s : string) :
  forall prev pos skip, inOrder (pos + skip) (execAll re prev s pos skip).
Proof.
  induction s as [|c s IH]; intros prev pos skip; cbn [execAll].
  - destruct skip; [|exact I].
    destruct (matchAtoms _ _ prev EmptyString); [|exact I].
    cbn [inOrder]. split; [lia | exact I].
  - destruct skip as [|k].
    + destruct (matchAtoms _ _ prev (String c s)) as [l|].
      * cbn [inOrder]. split; [lia|].
        eapply inOrder_weaken; [|apply IH]. destruct l; simpl; lia.
      * eapply inOrder_weaken; [|apply IH]. lia.
    + eapply inOrder_weaken; [|apply IH]. lia.
Qed.

Lemma execAll_bound (re : RegExp) (s : string) :
  forall prev pos skip p l,
    In (p, l) (execAll re prev s pos skip) ->
    (pos <= p)%nat /\ (p + l <= pos + String.length s)%nat.
Proof.
  induction s as [|c s IH]; intros prev pos skip p l; cbn [execAll].
  - destruct skip; [|intros []].
    destruct (matchAtoms _ _ prev EmptyString) as [l'|] eqn:E; [|intros []].
    intros [[= <- <-]|[]]. apply matchAtoms_bound in E. lia.
  - cbn [String.length]. destruct skip as [|k].
    + destruct (matchAtoms _ _ prev (String c s)) as [l'|] eqn:E.
      * intros [[= <- <-]|Hin].
        -- apply matchAtoms_bound in E. cbn [String.length] in E. lia.
        -- apply IH in Hin. lia.
      * intros Hin. apply IH in Hin. lia.
    + intros Hin. apply IH in Hin. lia.
Qed.

Lemma take_one_inOrder (n : nat) (ms : list (nat * nat)) :
  inOrder n ms -> inOrder n (take 1 ms).
Proof.
  destruct ms as [|[p l] ms]; [intros; exact I|].
  cbn [inOrder take]. intros [H _]. split; [exact H | exact I].
Qed.

Lemma in_take_one {A : Type} (x : A) (ms : list A) : In x (take 1 ms) -> In x ms.
Proof. destruct ms as [|y ms]; [intros [] | intros [<-|[]]; left; reflexivity]. Qed.

(** X1: the matches one expression has in a text come left to right, none
    starts inside or before the end of the one before it, and each lies
    within the text. *)
Theorem matches_in_order_and_apart (re : RegExp) (s : string) :
  inOrder 0 (matchesOf re s)
  /\ (forall p l, In (p, l) (matchesOf re s) ->
                  (p + l <= String.length s)%nat).
Proof.
  unfold matchesOf. split.
  - pose proof (execAll_inOrder re s None 0 0) as H.
    destruct (global re); [exact H | apply take_one_inOrder, H].
  - intros p l Hin.
    assert (Hin' : In (p, l) (execAll re None s 0 0)).
    { destruct (global re); [exact Hin | apply in_take_one, Hin]. }
    apply execAll_bound in Hin'. lia.
Qed.

Lemma substring_join (s : string) :
  forall n a b,
    substring n a s +:+ substring (n + a) b s = substring n (a + b) s.
Proof.
  induction s as [|c s IH]; intros n a b.
  - destruct n, a, b; reflexivity.
  - destruct n as [|n].
    + destruct a as [|a]; [reflexivity|].
      cbn [substring Nat.add].
      change (String c (substring 0 a s) +:+ substring a b s)
        with (String c (substring 0 a s +:+ substring (0 + a) b s)).
      rewrite IH. reflexivity.
    + cbn [substring Nat.add]. apply IH.
Qed.

Lemma substring_whole (s : string) : substring 0 (String.length s) s = s.
Proof.
  induction s as [|c s IH]; [reflexivity|].
  cbn [String.length substring]. rewrite IH. reflexivity.
Qed.

Lemma spliceMatches_identity (s : string) (ms : list (nat * nat)) :
  forall n,
    inOrder n ms ->
    (forall p l, In (p, l) ms -> (p + l <= String.length s)%nat) ->
    (n <= String.length s)%nat ->
    spliceMatches ms (fun m => m) s n = substring n (String.length s - n) s.
Proof.
  induction ms as [|[p l] ms IH]; intros n Hord Hin Hn; [reflexivity|].
  cbn [spliceMatches]. cbn [inOrder] in Hord. destruct Hord as [Hnp Hord].
  assert (Hpl : (p + l <= String.length s)%nat) by (apply Hin; left; reflexivity).
  rewrite IH.
  - replace (String.length s - n)%nat
      with ((p - n) + (l + (String.length s - (p + l))))%nat by lia.
    rewrite <- (substring_join s n).
    replace (n + (p - n))%nat with p by lia.
    rewrite <- (substring_join s p). reflexivity.
  - eapply inOrder_weaken; [|exact Hord]. lia.
  - intros q k Hq. apply Hin. right. exact Hq.
  - exact Hpl.
Qed.

(** X2: the substitution rewrites the matched spans and nothing else: with
    a replacer that returns each match as it is, the text comes back
    unchanged. *)
Theorem replace_by_the_match_is_identity (re : RegExp) (s : string) :
  String_replace re (fun m => m) s = s.
Proof.
  unfold String_replace.
  destruct (matches_in_order_and_apart re s) as [Hord Hin].
  rewrite (spliceMatches_identity s _ 0 Hord Hin) by lia.
  rewrite Nat.sub_0_r. apply substring_whole.
Qed.

(** ** A match is an occurrence of the word *)

Lemma lastChar_app (a b : string) :
  forall prev, lastChar prev (a +:+ b) = lastChar (lastChar prev a) b.
Proof. induction a as [|c a IH]; intros prev; simpl; [reflexivity | apply IH]. Qed.

Lemma length_append (a b : string) :
  String.length (a +:+ b) = (String.length a + String.length b)%nat.
Proof. induction a as [|c a IH]; simpl; [reflexivity | rewrite IH; reflexivity]. Qed.

Lemma matchAtoms_chars (ic : bool) (w : string) :
  forall a prev s l,
    matchAtoms ic (map Char (list_ascii_of_string w) ++ a) prev s = Some l ->
    exists m rest l',
      s = m +:+ rest
      /\ String.length m = String.length w
      /\ sameText ic w m = true
      /\ matchAtoms ic a (lastChar prev m) rest = Some l'
      /\ l = (String.length w + l')%nat.
Proof.
  induction w as [|c w IH]; intros a prev s l.
  - cbn [list_ascii_of_string map app]. intros H.
    exists EmptyString, s, l. repeat split; assumption.
  - cbn [list_ascii_of_string map app matchAtoms].
    destruct s as [|d s]; [discriminate|].
    destruct (charMatches ic c d) eqn:Ec; [|discriminate].
    destruct (matchAtoms ic _ (Some d) s) as [k|] eqn:E; [|discriminate].
    intros [= <-].
    apply IH in E as (m & rest & l' & -> & Hlen & Hsame & Hrest & ->).
    exists (String d m), rest, l'. cbn [String.length sameText lastChar].
    rewrite Ec, Hsame, Hlen. repeat split; try reflexivity. exact Hrest.
Qed.

Lemma execAll_sound (re : RegExp) (s : string) :
  forall pre prev pos skip p l,
    pos = String.length pre ->
    prev = lastChar None pre ->
    In (p, l) (execAll re prev s pos skip) ->
    exists pre' s',
      pre +:+ s = pre' +:+ s'
      /\ String.length pre' = p
      /\ matchAtoms (ignoreCase re) (atoms re) (lastChar None pre') s' = Some l.
Proof.
  induction s as [|c s IH]; intros pre prev pos skip p l Hpos Hprev;
    cbn [execAll].
  - destruct skip; [|intros []].
    destruct (matchAtoms _ _ prev EmptyString) as [l'|] eqn:E; [|intros []].
    intros [[= <- <-]|[]]. exists pre, EmptyString. subst. repeat split.
    exact E.
  - assert (Hnext : forall skip',
               In (p, l) (execAll re (Some c) s (S pos) skip') ->
               exists pre' s',
                 pre +:+ String c s = pre' +:+ s'
                 /\ String.length pre' = p
                 /\ matchAtoms (ignoreCase re) (atoms re)
                      (lastChar None pre') s' = Some l).
    { intros skip' Hin.
      apply (IH (pre +:+ String c EmptyString)) in Hin.
      - destruct Hin as (pre' & s' & H1 & H2 & H3). exists pre', s'.
        rewrite append_assoc in H1. repeat split; assumption.
      - rewrite length_append. cbn [String.length]. lia.
      - rewrite lastChar_app. reflexivity. }
    destruct skip as [|k]; [|apply Hnext].
    destruct (matchAtoms _ _ prev (String c s)) as [l'|] eqn:E; [|apply Hnext].
    intros [[= <- <-]|Hin]; [|apply (Hnext _ Hin)].
    exists pre, (String c s). subst. repeat split. exact E.
Qed.

Lemma substring_middle (pre m rest : string) :
  substring (String.length pre) (String.length m) (pre +:+ m +:+ rest) = m.
Proof.
  induction pre as [|c pre IH]; [|exact IH].
  cbn [String.length]. change (EmptyString +:+ m +:+ rest) with (m +:+ rest).
  induction m as [|d m IHm]; [destruct rest; reflexivity|].
  cbn [String.length]. change (String d m +:+ rest) with (String d (m +:+ rest)).
  cbn [substring]. rewrite IHm. reflexivity.
Qed.

Lemma get_after (pre s : string) (c : ascii) :
  String.get (String.length pre) (String c (pre +:+ s)) = lastChar (Some c) pre.
Proof.
  revert c. induction pre as [|d pre IH]; intros c; [reflexivity|].
  cbn [String.length lastChar]. change (String d pre +:+ s) with (String d (pre +:+ s)).
  cbn [String.get]. apply IH.
Qed.

Lemma wordCharAt_split (pre s : string) :
  wordCharAt (pre +:+ s) (String.length pre) = wordAt s.
Proof.
  unfold wordCharAt. induction pre as [|c pre IH]; [|exact IH].
  destruct s; reflexivity.
Qed.

Lemma boundaryAt_split (pre s : string) :
  boundaryAt (pre +:+ s) (String.length pre) = isBoundary (lastChar None pre) s.
Proof.
  unfold boundaryAt, isBoundary. rewrite wordCharAt_split. f_equal.
  destruct pre as [|c pre]; [reflexivity|].
  cbn [String.length lastChar]. unfold wordCharAt.
  change (String c pre +:+ s) with (String c (pre +:+ s)).
  rewrite get_after.
  clear. revert c. induction pre as [|d pre IH]; intros c; [reflexivity | apply IH].
Qed.

Lemma execAll_whole_word (t : term) (content : string) (p l : nat) :
  In (p, l)
     (execAll {| atoms := WordBoundary
                            :: map Char (list_ascii_of_string (word t))
                            ++ [WordBoundary];
                 global := true;
                 ignoreCase := negb (truthy (caseSensitive t)) |}
              None content 0 0) ->
  l = String.length (word t)
  /\ (p + l <= String.length content)%nat
  /\ sameText (negb (truthy (caseSensitive t))) (word t) (substring p l content)
     = true
  /\ boundaryAt content p = true
  /\ boundaryAt content (p + l) = true.
Proof.
  intros Hin.
  apply (execAll_sound _ content EmptyString None 0 0 p l eq_refl eq_refl) in Hin.
  destruct Hin as (pre & s & Hsplit & Hp & Hm).
  change (EmptyString +:+ content) with content in Hsplit.
  cbn [atoms ignoreCase matchAtoms] in Hm.
  destruct (isBoundary (lastChar None pre) s) eqn:Hb1; [|discriminate].
  apply matchAtoms_chars in Hm as (m & rest & l' & -> & Hlen & Hsame & Hrest & ->).
  cbn [matchAtoms] in Hrest.
  destruct (isBoundary (lastChar (lastChar None pre) m) rest) eqn:Hb2;
    [|discriminate].
  injection Hrest as <-. subst p content.
  rewrite Nat.add_0_r. split; [reflexivity|]. split; [|split; [|split]].
  - rewrite !length_append. lia.
  - rewrite <- Hlen, substring_middle. exact Hsame.
  - rewrite boundaryAt_split. exact Hb1.
  - rewrite <- Hlen, <- length_append, <- append_assoc, boundaryAt_split.
    rewrite lastChar_app. exact Hb2.
Qed.

(** X3: every match of a term is an occurrence of its word: as long as the
    word, inside the text, equal to the word character for character (up
    to the case of ASCII letters unless the term is case-sensitive), with a
    word boundary on either side.  This holds whatever characters a
    case-sensitive word contains, and for every ASCII word. *)
Theorem term_match_is_whole_word_occurrence (o : options) (t : term)
    (content : string) (ms : list (nat * nat)) (p l : nat) :
  foldsExactly t = true ->
  termMatches o t content = Some ms ->
  In (p, l) ms ->
  l = String.length (word t)
  /\ (p + l <= String.length content)%nat
  /\ sameText (negb (truthy (caseSensitive t))) (word t) (substring p l content)
     = true
  /\ boundaryAt content p = true
  /\ boundaryAt content (p + l) = true.
Proof.
  intros _. unfold termMatches. rewrite termRegExp_literal. cbn [option_map].
  unfold matchesOf. cbn [global]. intros [= <-]. apply execAll_whole_word.
Qed.

Lemma term_match_is_whole_word_occurrence_witness :
  termMatches defaultOptions apiTerm "use the api, not the apis"
    = Some [(8, 3)]%nat
  /\ substring 8 3 "use the api, not the apis" = "api"
  /\ boundaryAt "use the api, not the apis" 8 = true
  /\ boundaryAt "use the api, not the apis" 11 = true.
Proof.
  assert (E : termMatches defaultOptions apiTerm "use the api, not the apis"
              = Some [(8, 3)]%nat) by reflexivity.
  destruct (term_match_is_whole_word_occurrence defaultOptions apiTerm
              "use the api, not the apis" [(8, 3)]%nat 8 3 eq_refl E)
    as (_ & _ & _ & H4 & H5); [left; reflexivity|].
  split; [exact E|]. split; [reflexivity|]. split; [exact H4 | exact H5].
Defined.

(** ** The substitution for an empty word *)

Lemma substring_zero (s : string) : forall p, substring p 0 s = EmptyString.
Proof.
  induction s as [|c s IH]; intros [|p]; try reflexivity.
  cbn [substring]. apply IH.
Qed.

Lemma substring_char_at (pre : string) (c : ascii) (rest : string) :
  substring (String.length pre) 1 (pre +:+ String c rest)
  = String c EmptyString.
Proof. exact (substring_middle pre (String c EmptyString) rest). Qed.

(** The substitution at the word boundaries of [s], which follows [pre] in
    the text, resumed at [next]. *)
Lemma splice_at_boundaries (t : term) (s : string) :
  forall pre prev next,
    (next <= String.length pre)%nat ->
    spliceMatches
      (map (fun p => (p, 0%nat)) (boundaryPositions prev s (String.length pre)))
      (placeholder t) (pre +:+ s) next
    = substring next (String.length pre - next) (pre +:+ s)
        +:+ withEmptyPlaceholders t prev s.
Proof.
  induction s as [|c s IH]; intros pre prev next Hnext.
  - cbn [boundaryPositions withEmptyPlaceholders]. rewrite (append_nil_r pre).
    destruct (isBoundary prev EmptyString); cbn [map spliceMatches].
    + rewrite Nat.add_0_r, Nat.sub_diag, !substring_zero. reflexivity.
    + change (EmptyString +:+ EmptyString) with EmptyString.
      rewrite append_nil_r. reflexivity.
  - assert (IH' : forall next',
               (next' <= S (String.length pre))%nat ->
               spliceMatches
                 (map (fun p => (p, 0%nat))
                      (boundaryPositions (Some c) s (S (String.length pre))))
                 (placeholder t) (pre +:+ String c s) next'
               = substring next' (S (String.length pre) - next')
                   (pre +:+ String c s)
                   +:+ withEmptyPlaceholders t (Some c) s).
    { intros next' Hn.
      pose proof (IH (pre +:+ String c EmptyString) (Some c) next') as H.
      rewrite length_append, append_assoc in H. cbn [String.length] in H.
      change (String c EmptyString +:+ s) with (String c s) in H.
      replace (String.length pre + 1)%nat with (S (String.length pre)) in H
        by lia.
      apply H. exact Hn. }
    cbn [boundaryPositions withEmptyPlaceholders].
    destruct (isBoundary prev (String c s)).
    + cbn [app map spliceMatches].
      rewrite Nat.add_0_r, substring_zero, IH' by lia.
      replace (S (String.length pre) - String.length pre)%nat with 1%nat by lia.
      rewrite substring_char_at. reflexivity.
    + cbn [app]. rewrite IH' by lia.
      change (EmptyString +:+ String c (withEmptyPlaceholders t (Some c) s))
        with (String c EmptyString +:+ withEmptyPlaceholders t (Some c) s).
      rewrite <- append_assoc. f_equal.
      pose proof (substring_join (pre +:+ String c s) next
                    (String.length pre - next) 1) as J.
      replace (next + (String.length pre - next))%nat
        with (String.length pre) in J by lia.
      replace (String.length pre - next + 1)%nat
        with (S (String.length pre) - next)%nat in J by lia.
      rewrite substring_char_at in J. symmetry. exact J.
Qed.

Lemma boundaryPositions_word (s : string) :
  hasWordChar s = true ->
  forall prev pos, wordBefore prev = false -> boundaryPositions prev s pos <> [].
Proof.
  induction s as [|c s IH]; intros Hw prev pos Hp; [discriminate|].
  cbn [boundaryPositions]. unfold isBoundary. rewrite Hp. cbn [wordAt xorb].
  destruct (isWordChar c) eqn:Ec; [discriminate|].
  cbn [app]. apply IH; [|exact Ec].
  cbn [hasWordChar] in Hw. rewrite Ec in Hw. exact Hw.
Qed.

Lemma withEmptyPlaceholders_no_word (t : term) (s : string) :
  hasWordChar s = false ->
  forall prev, wordBefore prev = false -> withEmptyPlaceholders t prev s = s.
Proof.
  induction s as [|c s IH]; intros Hw prev Hp.
  - cbn [withEmptyPlaceholders]. unfold isBoundary. rewrite Hp. reflexivity.
  - cbn [hasWordChar] in Hw. apply orb_false_iff in Hw as [Hc Hs].
    cbn [withEmptyPlaceholders]. unfold isBoundary. rewrite Hp.
    cbn [wordAt xorb]. rewrite Hc.
    change (EmptyString +:+ String c (withEmptyPlaceholders t (Some c) s))
      with (String c (withEmptyPlaceholders t (Some c) s)).
    rewrite IH; [reflexivity | exact Hs | exact Hc].
Qed.

(** C6, amended: a term with the empty word raises no error; its matches
    are the empty matches at the word boundaries of the text, one at each
    and none elsewhere, and the substitution puts an empty placeholder at
    each of them; a text without a word character has no match and is left
    as it is. *)
Theorem empty_word_matches (o : options) (t : term) (text : string) :
  word t = EmptyString ->
  termMatches o t text = Some (map (fun p => (p, 0%nat)) (wordBoundaries text))
  /\ (forall p, In p (wordBoundaries text) <->
                (p <= String.length text)%nat /\ boundaryAt text p = true)
  /\ matchTerms o [t] text false
     = Some (withEmptyPlaceholders t None text, hasWordChar text)
  /\ (hasWordChar text = false -> withEmptyPlaceholders t None text = text).
Proof.
  intros Hw.
  assert (Hre : termRegExp o t
                = Some {| atoms := [WordBoundary; WordBoundary];
                          global := true;
                          ignoreCase := negb (truthy (caseSensitive t)) |}).
  { rewrite termRegExp_literal, Hw. reflexivity. }
  split; [|split; [|split]].
  - unfold termMatches. rewrite Hre. cbn [option_map].
    unfold matchesOf. cbn [global]. f_equal.
    apply execAll_two_boundaries. reflexivity.
  - intros p. apply wordBoundaries_spec.
  - cbn [matchTerms]. rewrite Hre. unfold RegExp_test.
    rewrite execAll_two_boundaries by reflexivity.
    destruct (hasWordChar text) eqn:Hc.
    + pose proof (boundaryPositions_word text Hc None 0 eq_refl) as Hne.
      destruct (boundaryPositions None text 0) as [|p ps] eqn:Eb;
        [exfalso; apply Hne; reflexivity|].
      cbn [map]. f_equal. f_equal.
      unfold String_replace, matchesOf. cbn [global].
      rewrite execAll_two_boundaries by reflexivity. rewrite Eb.
      pose proof (splice_at_boundaries t text EmptyString None 0 (le_n 0)) as H.
      cbn [String.length] in H. rewrite Eb in H.
      change (EmptyString +:+ text) with text in H.
      rewrite H, substring_zero. reflexivity.
    + rewrite boundaryPositions_no_word by (assumption || reflexivity).
      cbn [map]. rewrite withEmptyPlaceholders_no_word
        by (assumption || reflexivity).
      reflexivity.
  - intros Hc. apply withEmptyPlaceholders_no_word; [exact Hc | reflexivity].
Qed.

Lemma empty_word_matches_witness :
  let t := plainTerm "e" EmptyString "d" in
  termMatches defaultOptions t "Use the API"
    = Some [(0, 0); (3, 0); (4, 0); (7, 0); (8, 0); (11, 0)]%nat
  /\ matchTerms defaultOptions [t] "Use the API" false
     = Some (placeholder t EmptyString +:+ "Use" +:+ placeholder t EmptyString
               +:+ " " +:+ placeholder t EmptyString +:+ "the"
               +:+ placeholder t EmptyString +:+ " "
               +:+ placeholder t EmptyString +:+ "API"
               +:+ placeholder t EmptyString, true)
  /\ matchTerms defaultOptions [t] "... - ..." false = Some ("... - ...", false).
Proof.
  intros t.
  destruct (empty_word_matches defaultOptions t "Use the API" eq_refl)
    as (H1 & _ & H3 & _).
  destruct (empty_word_matches defaultOptions t "... - ..." eq_refl)
    as (_ & _ & H3' & H4').
  split; [exact H1|]. split; [exact H3|].
  rewrite H3', H4' by reflexivity. reflexivity.
Defined.

(** ** Indexing twice *)

Lemma insertSorted_front (x : term) (l : list term) :
  Forall (longerFirst x) l -> insertSorted byLengthDesc x l = x :: l.
Proof.
  destruct l as [|y l]; [reflexivity|]. intros H.
  inversion H as [|? ? Hy _]; subst. cbn [insertSorted].
  unfold longerFirst in Hy. unfold byLengthDesc.
  destruct (Z.leb_spec (Z.of_nat (jsLength (word y))
                        - Z.of_nat (jsLength (word x))) 0);
    [reflexivity | lia].
Qed.

Lemma Array_sort_of_sorted (l : list term) :
  StronglySorted longerFirst l -> Array_sort byLengthDesc l = l.
Proof.
  induction l as [|x l IH]; intros Hs; [reflexivity|].
  inversion Hs as [|? ? Hl Hx]; subst.
  cbn [Array_sort fold_right]. fold (Array_sort byLengthDesc l).
  rewrite IH by exact Hl. apply insertSorted_front, Hx.
Qed.

Lemma filter_all_pass {A : Type} (f : A -> bool) (l : list A) :
  (forall x, In x l -> f x = true) -> List.filter f l = l.
Proof.
  induction l as [|x l IH]; intros H; [reflexivity|].
  cbn [List.filter]. rewrite (H x) by (left; reflexivity).
  rewrite IH; [reflexivity|]. intros y Hy. apply H. right. exact Hy.
Qed.

(** X4: indexing a list that is already an index changes nothing: handing
    the stored terms back to [updateTerms] stores the same list. *)
Theorem indexing_is_idempotent (ts : list term) :
  indexTerms (indexTerms ts) = indexTerms ts.
Proof.
  unfold indexTerms at 1.
  rewrite filter_all_pass.
  - apply Array_sort_of_sorted, Array_sort_sorted.
  - intros t Ht.
    eapply Permutation_in in Ht; [|apply Array_sort_perm].
    apply filter_In in Ht as [_ Ht]. exact Ht.
Qed.

(** ** Placement: the unknown positions *)

Lemma sideOffsets_none (side : string) (tr pr : DOMRect) (sx sy : float) :
  sideOffsets side tr pr sx sy = None <->
  ~ In side ["top"; "bottom"; "left"; "right"].
Proof.
  unfold sideOffsets.
  destruct (String.eqb_spec side "top") as [->|H1].
  { split; [discriminate | intros H; exfalso; apply H; simpl; tauto]. }
  destruct (String.eqb_spec side "bottom") as [->|H2].
  { split; [discriminate | intros H; exfalso; apply H; simpl; tauto]. }
  destruct (String.eqb_spec side "left") as [->|H3].
  { split; [discriminate | intros H; exfalso; apply H; simpl; tauto]. }
  destruct (String.eqb_spec side "right") as [->|H4].
  { split; [discriminate | intros H; exfalso; apply H; simpl; tauto]. }
  split; [|reflexivity]. intros _ [H|[H|[H|[H|[]]]]]; congruence.
Qed.

Lemma sideOffsets_of_mode (o : options) (tr pr : DOMRect) (vw vh sx sy : float) :
  sideOffsets
    (if String.eqb (popupPosition o) "auto"
     then autoPosition tr pr vw vh else popupPosition o)
    tr pr sx sy = None <->
  ~ In (popupPosition o) supportedPositions.
Proof.
  rewrite sideOffsets_none.
  destruct (String.eqb_spec (popupPosition o) "auto") as [E|E].
  - pose proof (autoPosition_side tr pr vw vh) as Ha. rewrite E.
    split; [intros H; exfalso; exact (H Ha) | intros H; exfalso; apply H].
    left. reflexivity.
  - unfold supportedPositions. simpl. split; intros H; [|tauto].
    intros [H'|H']; [congruence | exact (H H')].
Qed.

(** X5: the coordinates are defined exactly for the five placement modes:
    with any other [popupPosition] the switch sets neither [top] nor
    [left], and both stay undefined through the boundary checks. *)
Theorem coordinates_defined_iff_supported (o : options) (tr pr : DOMRect)
    (vw vh sx sy : float) :
  (styleTop (positionPopup o tr pr vw vh sx sy) = None <->
   ~ In (popupPosition o) supportedPositions)
  /\ (styleLeft (positionPopup o tr pr vw vh sx sy) = None <->
      ~ In (popupPosition o) supportedPositions).
Proof.
  pose proof (sideOffsets_of_mode o tr pr vw vh sx sy) as Hkey.
  unfold positionPopup.
  destruct (sideOffsets _ tr pr sx sy) as [[y x]|]; cbn [styleTop styleLeft].
  - split; (split; [discriminate|]); intros H; apply Hkey in H; discriminate.
  - split; (split; [|reflexivity]); intros _; apply Hkey; reflexivity.
Qed.

Example unknown_position_leaves_coordinates_undefined :
  positionPopup (withPosition "center")
    {| rTop := 100; rLeft := 100; rBottom := 120; rRight := 150;
       rWidth := 50; rHeight := 20 |}
    {| rTop := 0; rLeft := 0; rBottom := 100; rRight := 250;
       rWidth := 250; rHeight := 100 |} 800 600 0 0
  = {| styleTop := None; styleLeft := None;
       positionClass := "position-center" |}.
Proof. reflexivity. Qed.

(** ** The active popup *)

Lemma in_without_index_inv (p : nat) (l : list nat) (i : nat) :
  In p (take i l ++ drop (S i) l) -> In p l.
Proof.
  revert i. induction l as [|x l IH]; intros i H.
  - destruct i; exact H.
  - destruct i as [|i]; simpl in H.
    + right. exact H.
    + destruct H as [->|H]; [left; reflexivity | right; eauto].
Qed.

Lemma activeAttached_initial : activeAttached initialController.
Proof. split; simpl; intros; try discriminate; tauto. Qed.

Lemma activeAttached_hidePopup (c : controller) :
  activeAttached c -> activeAttached (hidePopup c).
Proof.
  intros Hc. unfold hidePopup.
  destruct (activePopup c) as [a|] eqn:E; [|exact Hc].
  destruct Hc as [Ht Ha Hd Hn]. split; simpl; try discriminate.
  intros p Hp. apply in_app_iff in Hp as [Hp|[<-|[]]]; [apply Ht, Hp|].
  apply Ha. exact E.
Qed.

Lemma hidePopup_clears (c : controller) : activePopup (hidePopup c) = None.
Proof. unfold hidePopup. destruct (activePopup c) eqn:E; [reflexivity | exact E]. Qed.

Lemma activeAttached_showPopup (tr : nat) (t : term) (c : controller) :
  activeAttached c -> activeAttached (showPopup tr t c).
Proof.
  intros Hc. apply activeAttached_hidePopup in Hc. destruct Hc as [Ht _ _ _].
  unfold showPopup. split; simpl.
  - intros p Hp. apply Ht in Hp. lia.
  - intros a [= <-]. simpl. lia.
  - intros a [= <-]. simpl. apply in_app_iff. right. left. reflexivity.
  - intros a [= <-]. simpl. intros Hin. apply Ht in Hin. lia.
Qed.

Lemma activeAttached_fireRemoval (i : nat) (c : controller) :
  activeAttached c -> activeAttached (fireRemoval i c).
Proof.
  intros Hc. unfold fireRemoval.
  destruct (removalTimers c !! i) as [q|] eqn:E; [|exact Hc].
  destruct Hc as [Ht Ha Hd Hn]. split; simpl.
  - intros p Hp. apply Ht. eapply in_without_index_inv, Hp.
  - exact Ha.
  - intros a Hact. apply in_removeElement. split; [apply Hd, Hact|].
    intros Heq. apply (Hn a Hact). rewrite Heq.
    apply list_elem_of_In. eapply list_elem_of_lookup_2, E.
  - intros a Hact Hin. apply (Hn a Hact). eapply in_without_index_inv, Hin.
Qed.

Lemma activeAttached_fireFrame (c : controller) :
  activeAttached c -> activeAttached (fireFrame c).
Proof.
  intros Hc. unfold fireFrame. destruct (frames c); [exact Hc|].
  destruct Hc as [Ht Ha Hd Hn]. split; assumption.
Qed.

Lemma activeAttached_run (es : list event) : activeAttached (run es).
Proof.
  unfold run. generalize activeAttached_initial. generalize initialController.
  induction es as [|e es IH]; intros c Hc; simpl; [exact Hc|].
  apply IH. destruct e; simpl.
  - apply activeAttached_showPopup, Hc.
  - apply activeAttached_hidePopup, Hc.
  - apply activeAttached_fireRemoval, Hc.
  - apply activeAttached_fireFrame, Hc.
Qed.

(** X7: after any sequence of [showPopup], [hidePopup] and timer events,
    the active popup is an element of the document and no removal is
    pending for it: a deferred removal never takes away the popup that is
    shown. *)
Theorem active_popup_is_attached (es : list event) (a : activeRecord) :
  activePopup (run es) = Some a ->
  In (element a) (documentPopups (run es))
  /\ ~ In (element a) (removalTimers (run es)).
Proof.
  intros H. destruct (activeAttached_run es) as [_ _ Hd Hn].
  split; [apply Hd, H | apply Hn, H].
Qed.

Lemma active_popup_is_attached_witness :
  In 1%nat
     (documentPopups
        (run [ShowPopup 7 apiTerm; ShowPopup 8 apiTerm; RemovalTimer 0]))
  /\ ~ In 1%nat
       (removalTimers
          (run [ShowPopup 7 apiTerm; ShowPopup 8 apiTerm; RemovalTimer 0])).
Proof.
  apply (active_popup_is_attached
           [ShowPopup 7 apiTerm; ShowPopup 8 apiTerm; RemovalTimer 0]
           {| element := 1; trigger := 8; activeTerm := apiTerm |}).
  reflexivity.
Defined.

Lemma fireRemovals_empties (n : nat) :
  forall c,
    length (removalTimers c) = n ->
    (forall p, In p (documentPopups c) -> In p (removalTimers c)) ->
    documentPopups (fireRemovals n c) = []
    /\ removalTimers (fireRemovals n c) = []
    /\ activePopup (fireRemovals n c) = activePopup c.
Proof.
  induction n as [|n IH]; intros c Hlen Hall; cbn [fireRemovals].
  - destruct (removalTimers c) as [|q l] eqn:Et; [|discriminate].
    split; [|split; reflexivity].
    destruct (documentPopups c) as [|p d]; [reflexivity|].
    destruct (Hall p). left. reflexivity.
  - destruct (removalTimers c) as [|q l] eqn:Et; [discriminate|].
    assert (Hfire : fireRemoval 0 c
                    = {| documentPopups := removeElement q (documentPopups c);
                         activePopup := activePopup c;
                         activeClass := activeClass c;
                         removalTimers := l;
                         frames := frames c;
                         nextElement := nextElement c |}).
    { unfold fireRemoval. rewrite Et. reflexivity. }
    rewrite Hfire.
    destruct (IH {| documentPopups := removeElement q (documentPopups c);
                    activePopup := activePopup c;
                    activeClass := activeClass c;
                    removalTimers := l;
                    frames := frames c;
                    nextElement := nextElement c |}) as (H1 & H2 & H3); simpl.
    + simpl in Hlen. lia.
    + intros p Hp. apply in_removeElement in Hp as [Hp Hne].
      destruct (Hall p Hp) as [->|Hin]; [congruence | exact Hin].
    + split; [exact H1|]. split; [exact H2 | exact H3].
Qed.

(** X8: no popup element is left behind: once [hidePopup] has run and the
    removal callbacks that are pending have fired, the document holds no
    popup element and no removal is pending, whatever happened before. *)
Theorem hidden_popups_are_all_removed (es : list event) :
  documentPopups
    (fireRemovals (length (removalTimers (hidePopup (run es))))
                  (hidePopup (run es))) = []
  /\ removalTimers
       (fireRemovals (length (removalTimers (hidePopup (run es))))
                     (hidePopup (run es))) = [].
Proof.
  destruct (fireRemovals_empties
              (length (removalTimers (hidePopup (run es))))
              (hidePopup (run es)) eq_refl) as (H1 & H2 & _);
    [|split; assumption].
  destruct (consistent_hidePopup (run es) (consistent_run es))
    as [[_ _ Hacc] Hnone].
  intros p Hp. destruct (Hacc p Hp) as [(a & Ha & _)|Ht]; [congruence | exact Ht].
Qed.

(** X9: the click listener of a marker toggles: a click on the marker whose
    popup is open closes it; a click on another marker, or with no popup
    open, opens the popup of the marker clicked, and a second click on the
    same marker closes it again. *)
Theorem marker_click_toggles (target : nat) (t : term) (c : controller) :
  (isOpenFor c target = true ->
   activePopup (onTermClick target t c) = None)
  /\ (isOpenFor c target = false ->
      isOpenFor (onTermClick target t c) target = true
      /\ option_map activeTerm (activePopup (onTermClick target t c)) = Some t
      /\ activePopup (onTermClick target t (onTermClick target t c)) = None).
Proof.
  assert (Hshow : forall c', isOpenFor (showPopup target t c') target = true
                             /\ option_map activeTerm
                                  (activePopup (showPopup target t c')) = Some t
                             /\ onTermClick target t (showPopup target t c')
                                = hidePopup (showPopup target t c')).
  { intros c'. unfold onTermClick, isOpenFor, showPopup. cbn [activePopup trigger].
    rewrite Nat.eqb_refl. repeat split. }
  unfold isOpenFor. split.
  - unfold onTermClick. destruct (activePopup c) as [a|]; [|discriminate].
    intros ->. apply hidePopup_clears.
  - intros Hclosed.
    assert (Hclick : onTermClick target t c = showPopup target t c).
    { unfold onTermClick. destruct (activePopup c) as [a|]; [|reflexivity].
      rewrite Hclosed. reflexivity. }
    rewrite Hclick. destruct (Hshow c) as (H1 & H2 & H3).
    split; [exact H1|]. split; [exact H2|]. rewrite H3. apply hidePopup_clears.
Qed.

(** X26: the keydown listener of a popup closes the popup on Escape and
    leaves the controller alone on any other key; in neither case does an
    element receive the focus: when the listener reads the trigger, the
    record of the popup is already cleared. *)
Theorem escape_in_popup_moves_no_focus (key : string) (c : controller) :
  snd (onPopupKeydown key c) = None
  /\ fst (onPopupKeydown key c)
     = (if String.eqb key "Escape" then hidePopup c else c)
  /\ activePopup (fst (onPopupKeydown "Escape" c)) = None.
Proof.
  unfold onPopupKeydown. split; [|split].
  - destruct (String.eqb key "Escape"); [|reflexivity].
    cbn [snd]. rewrite hidePopup_clears. reflexivity.
  - destruct (String.eqb key "Escape"); reflexivity.
  - cbn [String.eqb Ascii.eqb fst]. apply hidePopup_clears.
Qed.

(** ** Scans that find nothing *)

Section ScanCoverage.

Variable parseFragment : string -> option (list node).

Lemma noOccurrence_matchTerms (o : options) (ts : list term) (data : string) :
  noOccurrence o ts data -> matchTerms o ts data false = Some (data, false).
Proof.
  unfold noOccurrence. induction ts as [|t ts IH]; intros H; [reflexivity|].
  inversion H as [|? ? Ht Hts]; subst. cbn [matchTerms].
  unfold termMatches in Ht. rewrite termRegExp_literal in *. cbn [option_map] in Ht.
  injection Ht as Ht. unfold matchesOf in Ht. cbn [global] in Ht.
  unfold RegExp_test. rewrite Ht. apply IH, Hts.
Qed.

Lemma processAll_nothing (xs : list (nat * string)) :
  forall g,
    (forall i d, In (i, d) xs -> noOccurrence (opts g) (terms g) d) ->
    exists g',
      processAll parseFragment xs g = Some g'
      /\ body g' = body g /\ terms g' = terms g /\ opts g' = opts g
      /\ nextNode g' = nextNode g.
Proof.
  induction xs as [|[i d] xs IH]; intros g Hno; cbn [processAll].
  - exists g. repeat split.
  - assert (Hstep : exists g1,
               processTextNode parseFragment g (i, d) = Some g1
               /\ body g1 = body g /\ terms g1 = terms g /\ opts g1 = opts g
               /\ nextNode g1 = nextNode g).
    { unfold processTextNode. case_bool_decide.
      - exists g. repeat split.
      - rewrite noOccurrence_matchTerms by (apply (Hno i d); left; reflexivity).
        eexists. repeat split. }
    destruct Hstep as (g1 & -> & Hb & Ht & Ho & Hk).
    destruct (IH g1) as (g' & Hall & Hb' & Ht' & Ho' & Hk').
    { intros j e Hin. rewrite Ho, Ht. apply (Hno j e). right. exact Hin. }
    exists g'. rewrite Hall. repeat split; congruence.
Qed.

(** X10: a scan of a document in which no term occurs changes nothing in
    the document, whatever the markup parser does: no node is replaced, no
    element is flagged. *)
Theorem scan_without_occurrence_changes_nothing (g : glossary) :
  (forall i d, In (i, d) (acceptedBelow g false (body g)) ->
               noOccurrence (opts g) (terms g) d) ->
  exists g',
    processExistingContent parseFragment g = Some g'
    /\ body g' = body g /\ terms g' = terms g.
Proof.
  intros Hno. destruct (processAll_nothing _ g Hno) as (g' & H & Hb & Ht & _).
  exists g'. repeat split; assumption.
Qed.

(** X11: [updateTerms] with an empty list stores no term and leaves the
    document as it is: the markers of earlier scans stay, and nothing can
    match afterwards. *)
Theorem updateTerms_empty_keeps_document (g : glossary) :
  exists g',
    updateTerms parseFragment [] g = Some g'
    /\ terms g' = [] /\ body g' = body g.
Proof.
  unfold updateTerms, refresh, processExistingContent.
  set (g0 := {| terms := indexTerms []; opts := opts g; processedNodes := ∅;
                body := body g; nextNode := nextNode g |}).
  destruct (processAll_nothing (acceptedBelow g0 false (body g0)) g0)
    as (g' & H & Hb & Ht & _).
  { intros i d _. constructor. }
  exists g'. repeat split; assumption.
Qed.

(** *** The processed set *)

Lemma processTextNode_records (g g' : glossary) (i : nat) (d : string) :
  processTextNode parseFragment g (i, d) = Some g' ->
  processedNodes g ⊆ processedNodes g' /\ i ∈ processedNodes g'.
Proof.
  unfold processTextNode. case_bool_decide as Hi.
  { intros [= <-]. split; [reflexivity | exact Hi]. }
  destruct (matchTerms (opts g) (terms g) d false) as [[content [|]]|];
    [| |discriminate].
  - destruct (parseFragment content) as [parsed|]; [|discriminate].
    destruct (threadNodes relabel _ _) as [fragment k].
    intros [= <-]. cbn [processedNodes withScan].
    split; [apply union_subseteq_r|].
    apply elem_of_union. left. apply elem_of_singleton. reflexivity.
  - intros [= <-]. cbn [processedNodes withScan].
    split; [apply union_subseteq_r|].
    apply elem_of_union. left. apply elem_of_singleton. reflexivity.
Qed.

Lemma processAll_records (xs : list (nat * string)) :
  forall g g',
    processAll parseFragment xs g = Some g' ->
    processedNodes g ⊆ processedNodes g'
    /\ (forall i d, In (i, d) xs -> i ∈ processedNodes g').
Proof.
  induction xs as [|[i d] xs IH]; intros g g'; cbn [processAll].
  - intros [= <-]. split; [reflexivity | intros ? ? []].
  - destruct (processTextNode parseFragment g (i, d)) as [g1|] eqn:E;
      [|discriminate].
    intros Hall. apply IH in Hall as [Hsub Hin].
    apply processTextNode_records in E as [Hsub1 Hi].
    split; [etransitivity; eassumption|].
    intros j e [[= <- <-]|Hj]; [apply Hsub, Hi | apply (Hin j e Hj)].
Qed.

(** X12: a scan records every text node the walker returned, with or
    without a match in it, and the processed set loses no node. *)
Theorem scan_records_every_accepted_node (g g' : glossary) :
  processExistingContent parseFragment g = Some g' ->
  processedNodes g ⊆ processedNodes g'
  /\ (forall i d, In (i, d) (acceptedBelow g false (body g)) ->
                  i ∈ processedNodes g').
Proof. apply processAll_records. Qed.

(** *** The scan raises nothing *)

Hypothesis parser_total : forall markup, exists f, parseFragment markup = Some f.

Lemma processTextNode_total (g : glossary) (x : nat * string) :
  exists g', processTextNode parseFragment g x = Some g'.
Proof.
  destruct x as [i d]. unfold processTextNode. case_bool_decide.
  { eexists; reflexivity. }
  destruct (matchTerms_total (opts g) (terms g) d false) as [[content h] ->].
  destruct h; [|eexists; reflexivity].
  destruct (parser_total content) as [f ->].
  destruct (threadNodes relabel _ _). eexists; reflexivity.
Qed.

Lemma processAll_total (xs : list (nat * string)) :
  forall g, exists g', processAll parseFragment xs g = Some g'.
Proof.
  induction xs as [|x xs IH]; intros g; cbn [processAll].
  - eexists; reflexivity.
  - destruct (processTextNode_total g x) as [g1 ->]. apply IH.
Qed.

End ScanCoverage.

(** X13: a term of the embedding has a string for its word.  For every
    such term, whatever characters the word holds, [new RegExp] does not
    raise: [escapeRegExp] puts a backslash before each syntax character, so
    the expression is the word taken literally between two word
    boundaries.  With a markup parser that is defined on every input, as a
    browser's is, the scan of any document with such terms then runs to
    its end.  (A term stored without a string word, on which
    [escapeRegExp] raises, is outside the statement.) *)
Theorem scan_completes_for_string_words
    (parseFragment : string -> option (list node)) (g : glossary) :
  (forall markup, exists f, parseFragment markup = Some f) ->
  (forall t, In t (terms g) ->
     exists re,
       termRegExp (opts g) t = Some re
       /\ atoms re = WordBoundary :: map Char (list_ascii_of_string (word t))
                      ++ [WordBoundary])
  /\ exists g', processExistingContent parseFragment g = Some g'.
Proof.
  intros Htotal. split.
  - intros t _. rewrite termRegExp_literal. eexists. split; reflexivity.
  - apply processAll_total, Htotal.
Qed.

Lemma scan_completes_for_string_words_witness :
  (exists re,
     termRegExp defaultOptions (plainTerm "1" "C++ (lang)" "d") = Some re
     /\ atoms re = [WordBoundary; Char "C"; Char "+"; Char "+"; Char " ";
                    Char "("; Char "l"; Char "a"; Char "n"; Char "g";
                    Char ")"; WordBoundary])
  /\ exists g',
       processExistingContent parseAsText
         (pageOf [plainTerm "1" "C++ (lang)" "d"; plainTerm "2" "a|b*" "d"]
                 defaultOptions (paragraph "Use C++ (lang) or a|b* here") 2)
       = Some g'.
Proof.
  destruct (scan_completes_for_string_words parseAsText
              (pageOf [plainTerm "1" "C++ (lang)" "d"; plainTerm "2" "a|b*" "d"]
                      defaultOptions (paragraph "Use C++ (lang) or a|b* here") 2))
    as [H1 H2].
  - intros markup. eexists. reflexivity.
  - split; [|exact H2].
    apply (H1 (plainTerm "1" "C++ (lang)" "d")). vm_compute. tauto.
Defined.

Lemma scan_without_occurrence_changes_nothing_witness :
  exists g',
    processExistingContent miniParse
      (pageOf [apiTerm] defaultOptions (paragraph "Nothing to mark here.") 2)
    = Some g'
    /\ body g' = paragraph "Nothing to mark here.".
Proof.
  destruct (scan_without_occurrence_changes_nothing miniParse
              (pageOf [apiTerm] defaultOptions
                 (paragraph "Nothing to mark here.") 2))
    as (g' & H & Hb & _).
  - intros i d [[= <- <-]|[]]. constructor; [reflexivity | constructor].
  - exists g'. split; [exact H | exact Hb].
Defined.

Lemma scan_records_every_accepted_node_witness :
  1%nat ∈ processedNodes scannedApiPage.
Proof.
  destruct (scan_records_every_accepted_node miniParse
              (pageOf [apiTerm] defaultOptions
                 (paragraph "Use the API to connect.") 2)
              scannedApiPage) as [_ H].
  - vm_compute. reflexivity.
  - apply (H 1%nat "Use the API to connect."). left. reflexivity.
Defined.

(** ** Excluded content *)

Lemma excluded_subtree_quiet (g : glossary) (above : bool) (n : node) :
  excludedBySelector (opts g) n = true -> acceptedBelow g above n = [].
Proof.
  destruct n as [i d|tag attrs cs]; [discriminate|].
  cbn [excludedBySelector acceptedBelow]. intros Hsel.
  unfold shouldExcludeElement. rewrite Hsel, orb_true_r.
  apply flat_map_nil. intros c _. destruct c as [j e|tag' attrs' cs'].
  - rewrite acceptNode_excluded. reflexivity.
  - apply acceptedBelow_excluded.
Qed.

(** X14: the text inside an element that an exclusion selector matches is
    never returned by the walker, at any depth and whatever the processed
    set holds. *)
Theorem excluded_content_is_never_scanned (g : glossary) (above : bool)
    (n : node) :
  excludedBySelector (opts g) n = true ->
  acceptedBelow g above n = [].
Proof. apply excluded_subtree_quiet. Qed.

Lemma excluded_content_is_never_scanned_witness :
  acceptedBelow (pageOf [apiTerm] defaultOptions pageWithCode 3) false
    (Element "pre" [] [Element "code" [] [TextNode 2 "API.call(1 &amp; 2)"]])
  = [].
Proof.
  apply (excluded_content_is_never_scanned
           (pageOf [apiTerm] defaultOptions pageWithCode 3)).
  reflexivity.
Defined.

Lemma accepted_ids_in_tree (g : glossary) (n : node) :
  forall above i d, In (i, d) (acceptedBelow g above n) -> In i (textIds n).
Proof.
  induction n as [j e|tag attrs cs IH] using node_induction;
    intros above i d; [intros []|].
  cbn [acceptedBelow textIds]. rewrite !in_flat_map. intros (c & Hc & Hx).
  exists c. split; [exact Hc|]. rewrite List.Forall_forall in IH.
  destruct c as [j e|tag' attrs' cs'].
  - destruct (acceptNode g _ j e); [|destruct Hx].
    destruct Hx as [[= <- <-]|[]]. left. reflexivity.
  - apply (IH _ Hc) in Hx. exact Hx.
Qed.

Lemma subtree_ids (n : node) :
  forall e i, In e (subtrees n) -> In i (textIds e) -> In i (textIds n).
Proof.
  induction n as [j d|tag attrs cs IH] using node_induction; intros e i.
  - intros [<-|[]] H. exact H.
  - cbn [subtrees]. intros [<-|He] Hi; [exact Hi|].
    cbn [textIds]. apply in_flat_map in He as (c & Hc & He).
    apply in_flat_map. exists c. split; [exact Hc|].
    rewrite List.Forall_forall in IH. apply (IH _ Hc e i He Hi).
Qed.

Lemma replaceTextNode_outside (i : nat) (frag : list node) (n : node) :
  ~ In i (textIds n) -> replaceTextNode i frag n = n.
Proof.
  induction n as [j d|tag attrs cs IH] using node_induction; [reflexivity|].
  cbn [textIds replaceTextNode]. intros Hout.
  assert (Hno : existsb (isTextNode i) cs = false).
  { apply not_true_is_false. intros H. apply existsb_exists in H as (c & Hc & Hi).
    destruct c as [j d|]; [|discriminate]. simpl in Hi. apply Nat.eqb_eq in Hi.
    apply Hout, in_flat_map. exists (TextNode j d). split; [exact Hc|].
    left. exact Hi. }
  rewrite Hno. f_equal. rewrite List.Forall_forall in IH.
  rewrite <- (map_id cs) at 2. apply map_ext_in. intros c Hc.
  apply (IH _ Hc). intros Hi. apply Hout, in_flat_map. exists c. tauto.
Qed.

Lemma isElement_subtree (c e : node) :
  In e (subtrees c) -> (exists tag attrs cs, e = Element tag attrs cs) ->
  exists tag attrs cs, c = Element tag attrs cs.
Proof.
  destruct c as [j d|tag attrs cs]; [|intros _ _; eauto].
  intros [<-|[]] (tag & attrs & cs & H). discriminate.
Qed.

(** Replacing a text node leaves in place every element that does not
    hold it. *)
Lemma replaceTextNode_keeps_subtree (i : nat) (frag : list node) (e : node) :
  (exists tag attrs cs, e = Element tag attrs cs) ->
  ~ In i (textIds e) ->
  forall n, In e (subtrees n) -> In e (subtrees (replaceTextNode i frag n)).
Proof.
  intros Helem Hout n.
  induction n as [j d|tag attrs cs IH] using node_induction; [intros H; exact H|].
  intros [<-|He].
  - rewrite replaceTextNode_outside by exact Hout. left. reflexivity.
  - apply in_flat_map in He as (c & Hc & He).
    destruct (isElement_subtree c e He Helem) as (tag' & attrs' & cs' & ->).
    rewrite List.Forall_forall in IH. specialize (IH _ Hc He).
    cbn [replaceTextNode].
    destruct (existsb (isTextNode i) cs); cbn [subtrees]; right;
      apply in_flat_map; exists (replaceTextNode i frag (Element tag' attrs' cs'));
      (split; [|exact IH]).
    + apply in_flat_map. exists (Element tag' attrs' cs').
      split; [exact Hc | left; reflexivity].
    + apply in_map. exact Hc.
Qed.

Lemma NoDup_flat_map_in {A B : Type} (f : A -> list B) (l : list A) (a : A) :
  List.NoDup (flat_map f l) -> In a l -> List.NoDup (f a).
Proof.
  induction l as [|x l IH]; intros Hnd Hin; [destruct Hin|].
  cbn [flat_map] in Hnd. destruct Hin as [->|Ha].
  - eapply NoDup_app_remove_r, Hnd.
  - apply IH; [eapply NoDup_app_remove_l, Hnd | exact Ha].
Qed.

(** In a list of siblings with distinct identities, an identity that [f]
    finds in some sibling and that belongs to a sibling with the property
    [Q] is found by [f] in a sibling with the property [Q]. *)
Lemma siblings_apart {A : Type} (ids f : A -> list nat) (Q : A -> Prop)
    (l : list A) (i : nat) :
  (forall a j, In j (f a) -> In j (ids a)) ->
  List.NoDup (flat_map ids l) ->
  In i (flat_map f l) ->
  (exists a, In a l /\ Q a /\ In i (ids a)) ->
  exists a, In a l /\ In i (f a) /\ Q a.
Proof.
  intros Hf. induction l as [|x l IH]; intros Hnd Hif Hq; [destruct Hif|].
  cbn [flat_map] in *. apply in_app_iff in Hif.
  assert (Hdis : forall j, In j (ids x) -> ~ In j (flat_map ids l)).
  { intros j Hj Hj'. clear IH Hif Hq.
    induction (ids x) as [|y ys IHy]; [destruct Hj|].
    cbn [app] in Hnd. inversion Hnd as [|? ? Hny Hrest]; subst.
    destruct Hj as [->|Hj]; [apply Hny, in_app_iff; right; exact Hj'|].
    apply IHy; assumption. }
  destruct Hq as (a & [<-|Ha] & HQ & Hia), Hif as [Hif|Hif].
  - exists x. split; [left; reflexivity | split; assumption].
  - exfalso. apply (Hdis i Hia). apply in_flat_map in Hif as (b & Hb & Hib).
    apply in_flat_map. exists b. split; [exact Hb | apply Hf, Hib].
  - exfalso. apply (Hdis i (Hf _ _ Hif)). apply in_flat_map. exists a.
    split; assumption.
  - destruct IH as (b & Hb & H1 & H2);
      [eapply List.NoDup_app_remove_l, Hnd | exact Hif | eauto |].
    exists b. split; [right; exact Hb | split; assumption].
Qed.

(** With distinct identities, no text node of an excluded element is one
    the walker returns. *)
Lemma excluded_ids_not_accepted (g : glossary) (e : node) :
  excludedBySelector (opts g) e = true ->
  forall n above i d,
    List.NoDup (textIds n) ->
    In e (subtrees n) ->
    In (i, d) (acceptedBelow g above n) ->
    ~ In i (textIds e).
Proof.
  intros Hex n.
  induction n as [j d'|tag attrs cs IH] using node_induction;
    intros above i d Hnd He Hacc; [destruct Hacc|].
  destruct He as [<-|He].
  { rewrite excluded_subtree_quiet in Hacc by exact Hex. destruct Hacc. }
  intros Hie.
  set (excl := shouldExcludeElement (opts g) above tag attrs) in *.
  set (f := fun c : node =>
              map fst (match c with
                       | TextNode j e' =>
                           if acceptNode g excl j e' then [(j, e')] else []
                       | Element _ _ _ => acceptedBelow g excl c
                       end)).
  destruct (siblings_apart textIds f (fun c => In e (subtrees c)) cs i)
    as (c & Hc & Hfc & Hec).
  - intros a j Hj. unfold f in Hj. apply in_map_iff in Hj as ([j' e'] & <- & Hj).
    destruct a as [k e''|tag' attrs' cs'].
    + destruct (acceptNode g excl k e''); [|destruct Hj].
      destruct Hj as [[= <- <-]|[]]. left. reflexivity.
    + eapply accepted_ids_in_tree, Hj.
  - exact Hnd.
  - cbn [acceptedBelow] in Hacc. fold excl in Hacc.
    apply in_flat_map in Hacc as (c & Hc & Hx).
    apply in_flat_map. exists c. split; [exact Hc|]. unfold f.
    apply in_map_iff. exists (i, d). split; [reflexivity | exact Hx].
  - apply in_flat_map in He as (c & Hc & He). exists c.
    split; [exact Hc|]. split; [exact He|]. eapply subtree_ids; eassumption.
  - unfold f in Hfc. apply in_map_iff in Hfc as ([i' d''] & Hi' & Hfc).
    simpl in Hi'. subst i'. rewrite List.Forall_forall in IH.
    destruct c as [k e''|tag' attrs' cs'].
    + destruct Hec as [<-|[]]. discriminate Hex.
    + apply (IH _ Hc excl i d''); try assumption.
      eapply NoDup_flat_map_in; [exact Hnd | exact Hc].
Qed.

Lemma processAll_keeps_subtree (parseFragment : string -> option (list node))
    (e : node) (xs : list (nat * string)) :
  (exists tag attrs cs, e = Element tag attrs cs) ->
  (forall i d, In (i, d) xs -> ~ In i (textIds e)) ->
  forall g g',
    processAll parseFragment xs g = Some g' ->
    In e (subtrees (body g)) -> In e (subtrees (body g')).
Proof.
  intros Helem. induction xs as [|[i d] xs IH]; intros Hout g g';
    cbn [processAll].
  - intros [= <-] H. exact H.
  - destruct (processTextNode parseFragment g (i, d)) as [g1|] eqn:E;
      [|discriminate].
    intros Hall He. apply (IH (fun j e' H => Hout j e' (or_intror H)) g1 g' Hall).
    revert E. unfold processTextNode. case_bool_decide.
    { intros [= <-]. exact He. }
    destruct (matchTerms (opts g) (terms g) d false) as [[content [|]]|];
      [| |discriminate].
    + destruct (parseFragment content) as [parsed|]; [|discriminate].
      destruct (threadNodes relabel _ _) as [fragment k].
      intros [= <-]. cbn [body withScan].
      apply replaceTextNode_keeps_subtree; [exact Helem | | exact He].
      apply (Hout i d). left. reflexivity.
    + intros [= <-]. exact He.
Qed.

(** X15: in a document whose text nodes are distinct, a scan leaves every
    element that an exclusion selector matches exactly as it was, with all
    it contains: the content of [script], [style], [code], [pre] and the
    like is not rewritten. *)
Theorem scan_leaves_excluded_elements_untouched
    (parseFragment : string -> option (list node)) (g g' : glossary)
    (e : node) :
  List.NoDup (textIds (body g)) ->
  processExistingContent parseFragment g = Some g' ->
  In e (subtrees (body g)) ->
  excludedBySelector (opts g) e = true ->
  In e (subtrees (body g')).
Proof.
  intros Hnd Hscan He Hex.
  apply (processAll_keeps_subtree parseFragment e
           (acceptedBelow g false (body g))) with (g := g);
    [| | exact Hscan | exact He].
  - destruct e as [|tag attrs cs]; [discriminate | eauto].
  - intros i d Hacc. eapply excluded_ids_not_accepted; eassumption.
Qed.

Lemma scan_leaves_excluded_elements_untouched_witness :
  exists g',
    processExistingContent miniParse
      (pageOf [apiTerm] defaultOptions pageWithCode 3) = Some g'
    /\ countMarkers (body g') = 1%nat
    /\ In (Element "pre" []
             [Element "code" [] [TextNode 2 "API.call(1 &amp; 2)"]])
          (subtrees (body g')).
Proof.
  destruct (processExistingContent miniParse
              (pageOf [apiTerm] defaultOptions pageWithCode 3))
    as [g'|] eqn:E.
  - exists g'. split; [reflexivity|]. split.
    + vm_compute in E. injection E as <-. reflexivity.
    + apply (scan_leaves_excluded_elements_untouched miniParse
               (pageOf [apiTerm] defaultOptions pageWithCode 3) g').
      * repeat constructor; simpl; intros H; decompose [or] H;
          try discriminate; assumption.
      * exact E.
      * simpl. tauto.
      * reflexivity.
  - vm_compute in E. discriminate E.
Defined.

(** ** Markers are not lost *)

Lemma hasClass_setAttribute (c name value : string)
    (attrs : list (string * string)) :
  String.eqb name "class" = false ->
  hasClass c (setAttribute name value attrs) = hasClass c attrs.
Proof.
  intros Hname. unfold hasClass, classList. f_equal.
  induction attrs as [|[n v] attrs IH]; simpl.
  - rewrite Hname. reflexivity.
  - destruct (String.eqb n name) eqn:E; simpl.
    + apply String.eqb_eq in E. subst n. rewrite Hname. reflexivity.
    + destruct (String.eqb n "class"); [reflexivity | exact IH].
Qed.

Lemma list_sum_flat_map_ge {A : Type} (f : A -> nat) (k : A -> list A)
    (l : list A) :
  (forall a, In a l -> (f a <= list_sum (map f (k a)))%nat) ->
  (list_sum (map f l) <= list_sum (map f (flat_map k l)))%nat.
Proof.
  induction l as [|a l IH]; intros H; [simpl; lia|].
  cbn [flat_map map list_sum]. rewrite map_app, list_sum_app.
  specialize (H a (or_introl eq_refl)) as Ha.
  specialize (IH (fun b Hb => H b (or_intror Hb))). simpl in *. lia.
Qed.

Lemma countMarkers_replaceTextNode (i : nat) (frag : list node) (n : node) :
  (countMarkers n <= countMarkers (replaceTextNode i frag n))%nat.
Proof.
  induction n as [j d|tag attrs cs IH] using node_induction; [simpl; lia|].
  rewrite List.Forall_forall in IH. cbn [replaceTextNode].
  destruct (existsb (isTextNode i) cs); cbn [countMarkers].
  - rewrite hasClass_setAttribute by reflexivity.
    apply Nat.add_le_mono_l.
    apply (list_sum_flat_map_ge countMarkers
             (fun c => if isTextNode i c then frag
                       else [replaceTextNode i frag c])).
    intros c Hc. destruct c as [j d|tag' attrs' cs'].
    + simpl. lia.
    + specialize (IH _ Hc).
      change (isTextNode i (Element tag' attrs' cs')) with false.
      cbv iota. unfold list_sum. cbn [map fold_right]. lia.
  - apply Nat.add_le_mono_l. rewrite map_map.
    clear -IH. induction cs as [|c cs IHcs]; [simpl; lia|].
    cbn [map list_sum].
    specialize (IH c (or_introl eq_refl)) as Hc.
    specialize (IHcs (fun b Hb => IH b (or_intror Hb))). simpl in *. lia.
Qed.

Lemma processAll_keeps_markers (parseFragment : string -> option (list node))
    (xs : list (nat * string)) :
  forall g g',
    processAll parseFragment xs g = Some g' ->
    (countMarkers (body g) <= countMarkers (body g'))%nat.
Proof.
  induction xs as [|[i d] xs IH]; intros g g'; cbn [processAll].
  - intros [= <-]. lia.
  - destruct (processTextNode parseFragment g (i, d)) as [g1|] eqn:E;
      [|discriminate].
    intros Hall. apply IH in Hall. etransitivity; [|exact Hall].
    revert E. unfold processTextNode. case_bool_decide.
    { intros [= <-]. lia. }
    destruct (matchTerms (opts g) (terms g) d false) as [[content [|]]|];
      [| |discriminate].
    + destruct (parseFragment content) as [parsed|]; [|discriminate].
      destruct (threadNodes relabel _ _) as [fragment k].
      intros [= <-]. cbn [body withScan]. apply countMarkers_replaceTextNode.
    + intros [= <-]. cbn [body withScan]. lia.
Qed.

(** X16: a scan never takes a marker away: the document holds as many
    markers after it as before, or more.  [refresh] and [updateTerms],
    which scan, do not undo markers of earlier terms. *)
Theorem scan_never_removes_markers
    (parseFragment : string -> option (list node)) (g g' : glossary)
    (newTerms : list term) :
  (processExistingContent parseFragment g = Some g' ->
   (countMarkers (body g) <= countMarkers (body g'))%nat)
  /\ (updateTerms parseFragment newTerms g = Some g' ->
      (countMarkers (body g) <= countMarkers (body g'))%nat).
Proof.
  split.
  - apply processAll_keeps_markers.
  - unfold updateTerms, refresh, processExistingContent. intros H.
    apply processAll_keeps_markers in H. exact H.
Qed.

Lemma scan_never_removes_markers_witness :
  exists g',
    updateTerms miniParse [plainTerm "2" "connect" "To link."] scannedApiPage
      = Some g'
    /\ countMarkers (body scannedApiPage) = 1%nat
    /\ (1 <= countMarkers (body g'))%nat.
Proof.
  destruct (updateTerms miniParse [plainTerm "2" "connect" "To link."]
              scannedApiPage) as [g'|] eqn:E.
  - exists g'. split; [reflexivity|]. split; [reflexivity|].
    exact (proj2 (scan_never_removes_markers miniParse scannedApiPage g'
                    [plainTerm "2" "connect" "To link."]) E).
  - vm_compute in E. discriminate E.
Defined.

(** ** Destroying *)

Lemma countMarkers_mergeText (cs : list node) :
  list_sum (map countMarkers (mergeText cs)) = list_sum (map countMarkers cs).
Proof.
  induction cs as [|c cs IH]; [reflexivity|].
  destruct c as [i d|tag attrs cs']; cbn [mergeText].
  - assert (Htext : forall l,
               list_sum (map countMarkers (TextNode i d :: l))
               = list_sum (map countMarkers l)) by reflexivity.
    rewrite Htext, <- IH.
    destruct (String.eqb d EmptyString); [reflexivity|].
    destruct (mergeText cs) as [|[j d'|tag attrs cs'] rest]; reflexivity.
  - change (list_sum (map countMarkers (Element tag attrs cs' :: mergeText cs))
            = list_sum (map countMarkers (Element tag attrs cs' :: cs)))
      with (countMarkers (Element tag attrs cs')
              + list_sum (map countMarkers (mergeText cs))
            = countMarkers (Element tag attrs cs')
              + list_sum (map countMarkers cs))%nat.
    rewrite IH. reflexivity.
Qed.

Lemma unwrapMarkers_no_marker (n : node) :
  forall norm k,
    isMarker n = false -> countMarkers (fst (unwrapMarkers norm k n)) = 0%nat.
Proof.
  induction n as [i d|tag attrs cs IH] using node_induction; intros norm k Hm;
    [reflexivity|].
  cbn [unwrapMarkers]. cbn [isMarker] in Hm.
  set (norm' := norm || existsb isMarker cs). clearbody norm'.
  set (f := fun k c => if isMarker c then (TextNode k (textContent c), S k)
                       else unwrapMarkers norm' k c).
  assert (Hgo : forall k,
             list_sum (map countMarkers (fst (threadNodes f k cs))) = 0%nat).
  { clear k. induction IH as [|c rest Hc _ IHrest]; intros k; [reflexivity|].
    cbn [threadNodes].
    assert (Hf : countMarkers (fst (f k c)) = 0%nat).
    { unfold f. destruct (isMarker c) eqn:Ec; [reflexivity|].
      apply Hc. reflexivity. }
    destruct (f k c) as [c' k1]. specialize (IHrest k1).
    destruct (threadNodes f k1 rest) as [rest' k2]. cbn [fst] in *.
    change (list_sum (map countMarkers (c' :: rest')))
      with (countMarkers c' + list_sum (map countMarkers rest'))%nat.
    rewrite Hf, IHrest. reflexivity. }
  specialize (Hgo k). destruct (threadNodes f k cs) as [cs' k'].
  cbn [fst] in *. cbn [countMarkers]. rewrite Hm.
  destruct norm'; [rewrite countMarkers_mergeText|]; exact Hgo.
Qed.

(** X17: [destroy] unwraps every marker and keeps the text: afterwards the
    document holds no marker element and reads as it did before the call.
    (The body itself is no marker.) *)
Theorem destroy_unwraps_every_marker (g : glossary) :
  isMarker (body g) = false ->
  countMarkers (body (destroy g)) = 0%nat
  /\ textContent (body (destroy g)) = textContent (body g).
Proof.
  intros Hroot. split; [|apply destroy_keeps_text].
  unfold destroy.
  pose proof (unwrapMarkers_no_marker (body g) false (nextNode g) Hroot) as H.
  destruct (unwrapMarkers false (nextNode g) (body g)) as [b k]. exact H.
Qed.

Lemma destroy_unwraps_every_marker_witness :
  countMarkers (body scannedApiPage) = 1%nat
  /\ countMarkers (body (destroy scannedApiPage)) = 0%nat
  /\ textContent (body (destroy scannedApiPage)) = "Use the API to connect.".
Proof.
  split; [reflexivity|].
  destruct (destroy_unwraps_every_marker scannedApiPage eq_refl) as [H1 H2].
  split; [exact H1 | rewrite H2; reflexivity].
Defined.

(** ** What [escapeHtml] writes *)

Lemma memChar_append (c : ascii) (a b : string) :
  memChar c (a +:+ b) = memChar c a || memChar c b.
Proof.
  induction a as [|x a IH]; [reflexivity|].
  simpl. rewrite IH. apply orb_assoc.
Qed.

Lemma escapeHtml_no_bracket (n : nat) :
  forall s, (String.length s <= n)%nat ->
            memChar "<" (escapeHtml s) = false
            /\ memChar ">" (escapeHtml s) = false.
Proof.
  induction n as [|n IH]; intros s Hlen.
  { destruct s; [split; reflexivity | cbn [String.length] in Hlen; lia]. }
  destruct s as [|c s]; [split; reflexivity|].
  cbn [String.length] in Hlen.
  destruct (IH s) as [IH1 IH2]; [lia|].
  cbn [escapeHtml].
  destruct (Ascii.eqb_spec c "&") as [->|Hamp].
  { rewrite !memChar_append, IH1, IH2. split; reflexivity. }
  destruct (Ascii.eqb_spec c "<") as [->|Hlt].
  { rewrite !memChar_append, IH1, IH2. split; reflexivity. }
  destruct (Ascii.eqb_spec c ">") as [->|Hgt].
  { rewrite !memChar_append, IH1, IH2. split; reflexivity. }
  assert (Hplain : memChar "<" (String c (escapeHtml s)) = false
                   /\ memChar ">" (String c (escapeHtml s)) = false).
  { cbn [memChar]. rewrite IH1, IH2.
    split; apply orb_false_iff; (split; [|reflexivity]);
      apply Ascii.eqb_neq; congruence. }
  destruct (Ascii.eqb_spec c "194") as [->|H194]; [|exact Hplain].
  destruct s as [|d s]; [exact Hplain|].
  destruct (Ascii.eqb_spec d "160") as [->|H160].
  - cbn [String.length] in Hlen. destruct (IH s) as [H1 H2]; [lia|].
    rewrite !memChar_append, H1, H2. split; reflexivity.
  - assert (Hother : match String d s with
                     | String "160"%char rest' => "&nbsp;" +:+ escapeHtml rest'
                     | _ => String "194"%char (escapeHtml (String d s))
                     end = String "194"%char (escapeHtml (String d s))).
    { revert H160. clear. each_char d. intros H. congruence. }
    rewrite Hother. exact Hplain.
Qed.

(** X19: whatever the text, what [escapeHtml] returns holds no angle
    bracket: escaped text cannot open or close a tag. *)
Theorem escapeHtml_writes_no_angle_bracket (text : string) :
  memChar "<" (escapeHtml text) = false
  /\ memChar ">" (escapeHtml text) = false.
Proof. apply (escapeHtml_no_bracket (String.length text)). lia. Qed.



(** ** The keys of the automatic initialization *)

Lemma upper_is_no_hyphen (d : ascii) :
  isLower d = true -> Ascii.eqb (canonicalize d) "-" = false.
Proof. revert d. intros d. each_char d. Qed.

Lemma upper_is_not_lower (d : ascii) :
  isLower d = true -> isLower (canonicalize d) = false.
Proof. revert d. intros d. each_char d. Qed.

Lemma camelKey_first (d : ascii) (r : string) :
  match camelKey (String d r) with
  | String d' _ => isLower d'
  | EmptyString => false
  end = true ->
  isLower d = true.
Proof.
  cbn [camelKey]. destruct (Ascii.eqb_spec d "-") as [->|Hd]; [|intros H; exact H].
  destruct r as [|d2 r]; [discriminate|].
  destruct (isLower d2) eqn:E; [|discriminate].
  rewrite upper_is_not_lower by exact E. discriminate.
Qed.

Lemma camelKey_no_hyphen_lower (n : nat) :
  forall key, (String.length key <= n)%nat ->
              hasHyphenLower (camelKey key) = false.
Proof.
  induction n as [|n IH]; intros key Hlen.
  { destruct key; [reflexivity | cbn [String.length] in Hlen; lia]. }
  destruct key as [|c rest]; [reflexivity|].
  cbn [String.length] in Hlen. cbn [camelKey].
  destruct (Ascii.eqb_spec c "-") as [->|Hc].
  - destruct rest as [|d rest']; [reflexivity|].
    cbn [String.length] in Hlen.
    destruct (isLower d) eqn:Ed.
    + cbn [hasHyphenLower]. rewrite upper_is_no_hyphen by exact Ed.
      apply IH. lia.
    + cbn [hasHyphenLower]. rewrite (IH (String d rest')) by (cbn [String.length]; lia).
      rewrite orb_false_r. cbn [Ascii.eqb]. 
      destruct (match camelKey (String d rest') with
                | String d' _ => isLower d'
                | EmptyString => false
                end) eqn:E; [|reflexivity].
      apply camelKey_first in E. congruence.
  - cbn [hasHyphenLower]. rewrite IH by lia.
    apply Ascii.eqb_neq in Hc. rewrite Hc. reflexivity.
Qed.

Lemma camelKey_unchanged (key : string) :
  hasHyphenLower key = false -> camelKey key = key.
Proof.
  induction key as [|c rest IH]; [reflexivity|].
  cbn [hasHyphenLower camelKey]. intros H.
  apply orb_false_iff in H as [Hc Hrest]. rewrite IH by exact Hrest.
  destruct (Ascii.eqb c "-"); [|reflexivity].
  destruct rest as [|d rest']; [reflexivity|].
  simpl in Hc. rewrite Hc. reflexivity.
Qed.

(** X21: the key conversion of the automatic initialization leaves no
    hyphen followed by a lower-case letter, leaves a key without one as it
    is, and so changes nothing when applied a second time. *)
Theorem camelKey_is_idempotent (key : string) :
  hasHyphenLower (camelKey key) = false
  /\ (hasHyphenLower key = false -> camelKey key = key)
  /\ camelKey (camelKey key) = camelKey key.
Proof.
  assert (H : hasHyphenLower (camelKey key) = false)
    by (apply (camelKey_no_hyphen_lower (String.length key)); lia).
  split; [exact H|]. split; [apply camelKey_unchanged|].
  apply camelKey_unchanged, H.
Qed.

Example camelKey_samples :
  camelKey "popup-position" = "popupPosition"
  /\ camelKey "data--url-" = "data-Url-"
  /\ camelKey "debugMode" = "debugMode".
Proof. repeat split. Qed.

(** ** The options of the constructor *)

Lemma listedOptions_keys (options : gmap string optionValue) :
  map fst (listedOptions options)
  = ["dataUrl"; "highlightColor"; "popupPosition"; "animationDuration";
     "mobileBreakpoint"; "caseSensitive"; "excludeSelectors";
     "enableKeyboard"; "enableTouch"; "enableHover"; "debugMode"].
Proof. reflexivity. Qed.

(** X22: a property the caller gives to the constructor is stored as it is
    given, falsy values included: the spread at the end of the object
    literal replaces what the [||] defaults computed, so an
    [animationDuration] of 0 stays 0.  The eleven listed options are
    always present, and an option that is not given has the value it has
    when no option is given at all. *)
Theorem given_options_win (options : gmap string optionValue) :
  (forall key v, options !! key = Some v ->
                 constructorOptions options !! key = Some v)
  /\ (forall key, In key (map fst (listedOptions options)) ->
                  is_Some (constructorOptions options !! key))
  /\ (forall key, options !! key = None ->
                  constructorOptions options !! key = constructorOptions ∅ !! key).
Proof.
  unfold constructorOptions. split; [|split].
  - intros key v H. apply lookup_union_Some_l. exact H.
  - intros key Hin. apply lookup_union_is_Some. right.
    rewrite listedOptions_keys in Hin. simpl in Hin.
    repeat (destruct Hin as [<-|Hin]; [eexists; vm_compute; reflexivity|]).
    destruct Hin.
  - intros key Hnone. rewrite (lookup_union_r options) by exact Hnone.
    rewrite (lookup_union_r ∅) by apply lookup_empty.
    destruct (in_dec String.string_dec key (map fst (listedOptions options)))
      as [Hin|Hout].
    + rewrite listedOptions_keys in Hin. simpl in Hin.
      repeat (destruct Hin as [<-|Hin];
              [unfold listedOptions; rewrite Hnone; vm_compute; reflexivity|]).
      destruct Hin.
    + rewrite (not_elem_of_list_to_map_1 (listedOptions options) key)
        by (intros H; apply Hout, list_elem_of_In, H).
      rewrite (not_elem_of_list_to_map_1 (listedOptions ∅) key)
        by (intros H; apply Hout, list_elem_of_In, H).
      reflexivity.
Qed.

Example explicit_zero_duration_is_kept :
  constructorOptions {[ "animationDuration" := OJs (JNum 0) ]} !! "animationDuration"
    = Some (OJs (JNum 0))
  /\ constructorOptions ∅ !! "animationDuration" = Some (OJs (JNum 300))
  /\ constructorOptions {[ "enableHover" := OJs (JBool false) ]} !! "enableHover"
     = Some (OJs (JBool false))
  /\ constructorOptions ∅ !! "enableHover" = Some (OJs (JBool true)).
Proof. vm_compute. repeat split; reflexivity. Qed.

(** ** Every whole-word occurrence is found *)

Lemma charMatches_refl (ic : bool) (c : ascii) : charMatches ic c c = true.
Proof. unfold charMatches. destruct ic; apply Ascii.eqb_refl. Qed.

Lemma sameText_refl (ic : bool) (w : string) : sameText ic w w = true.
Proof.
  induction w as [|c w IH]; [reflexivity|].
  cbn [sameText]. rewrite charMatches_refl, IH. reflexivity.
Qed.

Lemma sameText_length (ic : bool) (w : string) :
  forall m, sameText ic w m = true -> String.length m = String.length w.
Proof.
  induction w as [|c w IH]; intros [|d m]; cbn [sameText]; try discriminate.
  - reflexivity.
  - intros H. apply andb_prop in H as [_ H]. cbn [String.length].
    rewrite (IH m H). reflexivity.
Qed.

Lemma matchAtoms_chars_complete (ic : bool) (w : string) :
  forall a prev m rest l,
    sameText ic w m = true ->
    matchAtoms ic a (lastChar prev m) rest = Some l ->
    matchAtoms ic (map Char (list_ascii_of_string w) ++ a) prev (m +:+ rest)
    = Some (String.length w + l)%nat.
Proof.
  induction w as [|c w IH]; intros a prev [|d m] rest l; cbn [sameText];
    try discriminate.
  - intros _ H. exact H.
  - intros Hs Hm. apply andb_prop in Hs as [Hc Hs].
    cbn [list_ascii_of_string map app].
    change (String d m +:+ rest) with (String d (m +:+ rest)).
    cbn [matchAtoms]. rewrite Hc.
    cbn [lastChar] in Hm. rewrite (IH a (Some d) m rest l Hs Hm).
    reflexivity.
Qed.

Lemma execAll_finds (re : RegExp) (pre : string) :
  forall prev pos s l,
    matchAtoms (ignoreCase re) (atoms re) (lastChar prev pre) s = Some l ->
    execAll re prev (pre +:+ s) pos 0 <> [].
Proof.
  induction pre as [|c pre IH]; intros prev pos s l Hm.
  - change (EmptyString +:+ s) with s. cbn [lastChar] in Hm.
    destruct s as [|d s]; cbn [execAll]; rewrite Hm; discriminate.
  - change (String c pre +:+ s) with (String c (pre +:+ s)).
    cbn [execAll].
    destruct (matchAtoms _ _ prev (String c (pre +:+ s))); [discriminate|].
    apply (IH (Some c) (S pos) s l). exact Hm.
Qed.

Lemma length_substring (s : string) :
  forall p l, (p + l <= String.length s)%nat ->
              String.length (substring p l s) = l.
Proof.
  induction s as [|c s IH]; intros p l H.
  - cbn [String.length] in H. destruct p, l; try lia; reflexivity.
  - cbn [String.length] in H. destruct p as [|p].
    + destruct l as [|l]; [reflexivity|].
      cbn [substring String.length]. rewrite (IH 0%nat l) by lia. reflexivity.
    + cbn [substring]. apply IH. lia.
Qed.

Lemma substring_split (s : string) (p : nat) :
  (p <= String.length s)%nat ->
  s = substring 0 p s +:+ substring p (String.length s - p) s.
Proof.
  intros H.
  pose proof (substring_join s 0 p (String.length s - p)) as E.
  cbn [Nat.add] in E. rewrite E.
  replace (p + (String.length s - p))%nat with (String.length s) by lia.
  symmetry. apply substring_whole.
Qed.

Lemma substring_split3 (s : string) (p l : nat) :
  (p + l <= String.length s)%nat ->
  s = substring 0 p s +:+ substring p l s
        +:+ substring (p + l) (String.length s - (p + l)) s.
Proof.
  intros H.
  rewrite (substring_join s p l (String.length s - (p + l))).
  replace (l + (String.length s - (p + l)))%nat with (String.length s - p)%nat
    by lia.
  apply substring_split. lia.
Qed.

(** The word between two boundaries, wherever it stands, is matched. *)
Lemma occurrence_found (t : term) (pre m rest : string) :
  sameText (negb (truthy (caseSensitive t))) (word t) m = true ->
  isBoundary (lastChar None pre) (m +:+ rest) = true ->
  isBoundary (lastChar (lastChar None pre) m) rest = true ->
  RegExp_test {| atoms := WordBoundary
                            :: map Char (list_ascii_of_string (word t))
                            ++ [WordBoundary];
                 global := true;
                 ignoreCase := negb (truthy (caseSensitive t)) |}
              (pre +:+ m +:+ rest) = true.
Proof.
  intros Hs Hb1 Hb2. unfold RegExp_test.
  match goal with
  | |- match ?e with [] => _ | _ :: _ => _ end = _ =>
      destruct e eqn:E; [|reflexivity]
  end.
  exfalso. revert E.
  apply (execAll_finds _ pre None 0 (m +:+ rest) (String.length (word t) + 0)).
  cbn [atoms ignoreCase matchAtoms]. rewrite Hb1.
  apply matchAtoms_chars_complete; [exact Hs|].
  cbn [matchAtoms]. rewrite Hb2. reflexivity.
Qed.

(** X23: for a term that is case-sensitive or whose word is ASCII, the
    test of the term succeeds on a text exactly when the word stands
    somewhere in it as a whole word: the same characters, up to the case of
    ASCII letters unless the term is case-sensitive, between two word
    boundaries. *)
Theorem word_is_found_iff_it_stands_as_whole_word (o : options) (t : term)
    (content : string) :
  foldsExactly t = true ->
  (termFound o t content = true
   <-> exists p, wholeWordAt t content p = true).
Proof.
  intros _. unfold termFound. rewrite termRegExp_literal. split.
  - unfold RegExp_test.
    match goal with
    | |- match ?e with [] => _ | _ :: _ => _ end = _ -> _ =>
        destruct e as [|[p l] ms] eqn:E; [discriminate|]
    end.
    intros _.
    destruct (execAll_whole_word t content p l) as (-> & H2 & H3 & H4 & H5).
    { rewrite E. left. reflexivity. }
    exists p. unfold wholeWordAt.
    rewrite H3, H4, H5. rewrite (proj2 (Nat.leb_le _ _) H2). reflexivity.
  - intros [p Hp]. unfold wholeWordAt in Hp.
    apply andb_prop in Hp as [Hp Hb2]. apply andb_prop in Hp as [Hp Hb1].
    apply andb_prop in Hp as [Hle Hs]. apply Nat.leb_le in Hle.
    set (l := String.length (word t)) in *.
    rewrite (substring_split3 content p l Hle).
    rewrite (substring_split3 content p l Hle) in Hb1, Hb2.
    set (pre := substring 0 p content) in *.
    set (m := substring p l content) in *.
    set (rest := substring (p + l) (String.length content - (p + l)) content) in *.
    assert (Hpre : String.length pre = p).
    { unfold pre. apply length_substring. lia. }
    assert (Hm : String.length m = l).
    { unfold m. apply length_substring. exact Hle. }
    apply occurrence_found; [exact Hs| |].
    + rewrite <- Hpre, boundaryAt_split in Hb1. exact Hb1.
    + rewrite <- Hpre, <- Hm, <- length_append, <- append_assoc in Hb2.
      rewrite boundaryAt_split, lastChar_app in Hb2. exact Hb2.
Qed.

(** An upper-case occurrence of a lower-case word, found by its position. *)
Lemma word_is_found_iff_it_stands_as_whole_word_witness :
  foldsExactly (plainTerm "1" "api" "d") = true
  /\ wholeWordAt (plainTerm "1" "api" "d") "Use the API, not the apis" 8 = true
  /\ termFound defaultOptions (plainTerm "1" "api" "d")
       "Use the API, not the apis" = true.
Proof.
  split; [reflexivity|]. split; [reflexivity|].
  apply (word_is_found_iff_it_stands_as_whole_word defaultOptions
           (plainTerm "1" "api" "d") "Use the API, not the apis" eq_refl).
  exists 8%nat. reflexivity.
Defined.

Example api_is_found_as_a_word_only :
  termFound defaultOptions apiTerm "use the api, not the apis" = true
  /\ wholeWordAt apiTerm "use the api, not the apis" 8 = true
  /\ termFound defaultOptions apiTerm "many apis and rapid tools" = false.
Proof. vm_compute. repeat split; reflexivity. Qed.

(** ** The mutation observer *)

Lemma observerStep_debounced (ob : observer) (e : observerEvent) (n : nat) :
  debounced ob ->
  (scansRun ob + length (pendingScans ob) <= n)%nat ->
  debounced (observerStep ob e)
  /\ (scansRun (observerStep ob e) + length (pendingScans (observerStep ob e))
      <= n + batchesWithElements [e])%nat.
Proof.
  intros Hd Hn. unfold batchesWithElements.
  destruct e as [ms|h]; cbn [observerStep List.filter].
  - unfold observerCallback. destruct (shouldProcess ms); cbn [length].
    + cbn [processingTimeout pendingScans scansRun].
      assert (Hc : clearTimeout (processingTimeout ob) (pendingScans ob) = []).
      { destruct Hd as [E|(h & E & Et)]; rewrite E.
        - destruct (processingTimeout ob); reflexivity.
        - rewrite Et. cbn [clearTimeout List.filter]. rewrite Nat.eqb_refl.
          reflexivity. }
      rewrite Hc. cbn [app length]. split; [|lia].
      right. exists (nextHandle ob). split; reflexivity.
    + split; [exact Hd | lia].
  - unfold rescanTimer. cbn [length].
    destruct Hd as [E|(h' & E & Et)].
    + rewrite E. cbn [existsb]. split; [left; exact E | lia].
    + rewrite E. cbn [existsb]. rewrite orb_false_r.
      destruct (h =? h')%nat eqn:Eh.
      * cbn [processingTimeout pendingScans scansRun List.filter].
        apply Nat.eqb_eq in Eh. subst h'. rewrite Nat.eqb_refl. cbn [negb length].
        rewrite E in Hn. cbn [length] in Hn. split; [left; reflexivity | lia].
      * split; [right; exists h'; split; assumption | lia].
Qed.

Lemma batchesWithElements_cons (e : observerEvent) (es : list observerEvent) :
  batchesWithElements (e :: es)
  = (batchesWithElements [e] + batchesWithElements es)%nat.
Proof.
  unfold batchesWithElements. cbn [List.filter].
  destruct e as [ms|h]; [destruct (shouldProcess ms)|]; reflexivity.
Qed.

Lemma observe_debounced (es : list observerEvent) :
  forall ob n,
    debounced ob ->
    (scansRun ob + length (pendingScans ob) <= n)%nat ->
    debounced (fold_left observerStep es ob)
    /\ (scansRun (fold_left observerStep es ob)
        + length (pendingScans (fold_left observerStep es ob))
        <= n + batchesWithElements es)%nat.
Proof.
  induction es as [|e es IH]; intros ob n Hd Hn.
  - cbn [fold_left]. split; [exact Hd|]. unfold batchesWithElements.
    cbn [List.filter length]. lia.
  - cbn [fold_left].
    destruct (observerStep_debounced ob e n Hd Hn) as [Hd' Hn'].
    destruct (IH _ _ Hd' Hn') as [H1 H2]. split; [exact H1|].
    rewrite batchesWithElements_cons. lia.
Qed.

(** X24: whatever mutation batches arrive and whichever timers fire, at
    most one rescan waits at any time, and the rescans that have run and
    the one that waits are together no more than the batches that added an
    element: a burst of mutations gives one rescan. *)
Theorem rescans_are_debounced (es : list observerEvent) :
  (length (pendingScans (observe es)) <= 1)%nat
  /\ (scansRun (observe es) + length (pendingScans (observe es))
      <= batchesWithElements es)%nat.
Proof.
  destruct (observe_debounced es initialObserver 0) as [Hd Hn].
  - left. reflexivity.
  - cbn. lia.
  - fold (observe es) in Hd, Hn. split; [|exact Hn].
    destruct Hd as [E|(h & E & _)]; rewrite E; cbn [length]; lia.
Qed.

Example burst_gives_one_rescan :
  let added := {| mutationType := "childList"; addedNodes := [ElementNode] |} in
  let text := {| mutationType := "childList"; addedNodes := [TextKind] |} in
  let ob := observe [Mutations [added]; Mutations [text]; Mutations [added; text];
                     Mutations [added]; TimerFires 0; TimerFires 1;
                     TimerFires 2] in
  scansRun ob = 1%nat /\ pendingScans ob = [].
Proof. vm_compute. split; reflexivity. Qed.

(** ** The announcement of a popup *)

Lemma matchTerms_keeps_flag (o : options) (ts : list term) :
  forall content, exists c, matchTerms o ts content true = Some (c, true).
Proof.
  induction ts as [|t ts IH]; intros content; cbn [matchTerms].
  - eexists; reflexivity.
  - rewrite termRegExp_literal. destruct (RegExp_test _ content); apply IH.
Qed.

Lemma matchTerms_found (o : options) (t : term) (ts : list term) :
  forall content hasMatches,
    In t ts ->
    termFound o t content = true ->
    exists c, matchTerms o ts content hasMatches = Some (c, true).
Proof.
  induction ts as [|t0 ts IH]; intros content hasMatches Hin Hf; [destruct Hin|].
  cbn [matchTerms]. rewrite termRegExp_literal.
  destruct (RegExp_test _ content) eqn:E; [apply matchTerms_keeps_flag|].
  destruct Hin as [->|Hin]; [|apply IH; assumption].
  unfold termFound in Hf. rewrite termRegExp_literal, E in Hf. discriminate.
Qed.

Lemma wordAt_append (w s : string) :
  wordAt (w +:+ s) = match firstChar w with
                     | Some c => isWordChar c
                     | None => wordAt s
                     end.
Proof. destruct w; reflexivity. Qed.

Lemma announcement_found (o : options) (t : term) (c : ascii) :
  firstChar (word t) = Some c ->
  isWordChar c = true ->
  wordBefore (lastChar None (word t)) = true ->
  termFound o t (announcementFor t) = true.
Proof.
  intros Hc Hw Hl. unfold termFound, announcementFor.
  rewrite termRegExp_literal.
  apply (occurrence_found t "Glossary definition for " (word t)
           (": " +:+ definition t)).
  - apply sameText_refl.
  - unfold isBoundary. rewrite wordAt_append, Hc, Hw. reflexivity.
  - cbn [lastChar]. unfold isBoundary.
    destruct (word t) as [|d w]; [discriminate|].
    cbn [lastChar] in *. rewrite Hl. reflexivity.
Qed.

Lemma accepted_in_last_child (g : glossary) (tag : string)
    (attrs : list (string * string)) (cs : list node) (e : node)
    (x : nat * string) :
  shouldExcludeElement (opts g) false tag attrs = false ->
  In x (acceptedBelow g false e) ->
  (exists tg at' ch, e = Element tg at' ch) ->
  In x (acceptedBelow g false (Element tag attrs (cs ++ [e]))).
Proof.
  intros Hex Hin (tg & at' & ch & ->). cbn [acceptedBelow]. rewrite Hex.
  apply in_flat_map. exists (Element tg at' ch). split.
  - apply in_or_app. right. left. reflexivity.
  - exact Hin.
Qed.

(** X25: the live region [showPopup] appends for the screen reader lies in
    the body like any other content.  Unless a selector excludes it, the
    next scan accepts its text node; and when the term is indexed and its
    word begins and ends with a word character, the loop over the terms
    ends with [hasMatches] set for the text of the announcement, which is
    the case in which [processTextNode] rewrites the node. *)
Theorem announcement_is_scanned (g : glossary) (t : term) (tag : string)
    (attrs : list (string * string)) (cs : list node) (c : ascii) :
  body g = Element tag attrs cs ->
  shouldExcludeElement (opts g) false tag attrs = false ->
  shouldExcludeElement (opts g) false "div" announcementAttrs = false ->
  nextNode g ∉ processedNodes g ->
  In t (terms g) ->
  firstChar (word t) = Some c ->
  isWordChar c = true ->
  wordBefore (lastChar None (word t)) = true ->
  let g' := announceToScreenReader (announcementFor t) g in
  In (nextNode g, announcementFor t) (acceptedBelow g' false (body g'))
  /\ exists content,
       matchTerms (opts g') (terms g') (announcementFor t) false
       = Some (content, true).
Proof.
  intros Hb Hex Hdiv Hnew Hin Hc Hw Hl g'. subst g'.
  unfold announceToScreenReader. rewrite Hb.
  cbn [body opts terms withScan]. split.
  - apply accepted_in_last_child; [exact Hex| |eexists _, _, _; reflexivity].
    change (String.eqb (announcementFor t) EmptyString) with false.
    cbn [acceptedBelow flat_map app opts withScan]. rewrite Hdiv.
    unfold acceptNode. cbn [processedNodes withScan].
    rewrite bool_decide_eq_false_2 by exact Hnew.
    change (trim (announcementFor t))
      with (String "G" (String "l"
              (trimEnd ("ossary definition for " +:+ word t +:+ ": "
                          +:+ definition t)))).
    cbn [String.eqb Ascii.eqb String.length Nat.ltb Nat.leb orb]. left. reflexivity.
  - apply (matchTerms_found _ t); [exact Hin|].
    apply (announcement_found _ t c); assumption.
Qed.

Lemma announcement_is_scanned_witness :
  In (2%nat, "Glossary definition for API: Application Programming Interface")
     (acceptedBelow
        (announceToScreenReader (announcementFor apiTerm) announcingPage) false
        (body (announceToScreenReader (announcementFor apiTerm) announcingPage)))
  /\ exists content,
       matchTerms defaultOptions [apiTerm]
         "Glossary definition for API: Application Programming Interface" false
       = Some (content, true).
Proof.
  apply (announcement_is_scanned announcingPage apiTerm "body" []
           [Element "p" [] [TextNode 1 "Nothing to mark here."]] "A"%char).
  - reflexivity.
  - reflexivity.
  - reflexivity.
  - vm_compute. discriminate.
  - left. reflexivity.
  - reflexivity.
  - reflexivity.
  - reflexivity.
Defined.
